(** * Windowed statistics of astcenc_compute_variance.cpp

    A shallow embedding of [brent_kung_prefix_sum],
    [compute_pixel_region_variance], [compute_averages_and_variances] and
    [init_compute_averages_and_variances].

    Conventions of the embedding.
    - [float] is taken in exact arithmetic: a sample is a rational [Qc].
    - [int] is a [Z]: signed overflow is undefined behaviour in C++, so the
      definitions describe every execution that has a defined meaning.
    - [size_t] is a [Z] reduced modulo [2^64] and [unsigned int] a [Z]
      reduced modulo [2^32] after every operation that can leave the range.
    - a [float4*] is an index into a memory [Z -> float4]; the output arrays
      are the log of the stores made to them.
    - a function that can fail to return gives an [option]: [None] is a
      loop out of fuel or a failed [assert].
    - [powf] and [sf16_to_float] come from outside the file and are taken as
      parameters.

    The file has the embedding first, then the definitions the statements
    need, then the proofs: the prefix sum, the phases of a region (loading,
    padding, summed-area tables, windows), the statements C1 to C10 about
    the specification of the program, and further properties of the code,
    X1 to X21. *)

From Stdlib Require Import ZArith List Lia Lqa Bool QArith Qcanon.
Import ListNotations.

Local Open Scope Z_scope.

(** ** float4 *)

Record float4 : Type := mkfloat4 { f4r : Qc; f4g : Qc; f4b : Qc; f4a : Qc }.

Module F4.

Definition zero : float4 := mkfloat4 0%Qc 0%Qc 0%Qc 0%Qc.

Definition splat (s : Qc) : float4 := mkfloat4 s s s s.

Definition add (u v : float4) : float4 :=
  mkfloat4 (f4r u + f4r v)%Qc (f4g u + f4g v)%Qc (f4b u + f4b v)%Qc (f4a u + f4a v)%Qc.

Definition sub (u v : float4) : float4 :=
  mkfloat4 (f4r u - f4r v)%Qc (f4g u - f4g v)%Qc (f4b u - f4b v)%Qc (f4a u - f4a v)%Qc.

Definition mul (u v : float4) : float4 :=
  mkfloat4 (f4r u * f4r v)%Qc (f4g u * f4g v)%Qc (f4b u * f4b v)%Qc (f4a u * f4a v)%Qc.

(** [float4 * float] and [float * float4] *)
Definition scale (u : float4) (s : Qc) : float4 := mul u (splat s).

Definition eqb (u v : float4) : bool :=
  Qeq_bool (f4r u) (f4r v) && Qeq_bool (f4g u) (f4g v) &&
  Qeq_bool (f4b u) (f4b v) && Qeq_bool (f4a u) (f4a v).

End F4.

Infix "+^" := F4.add (at level 50, left associativity).
Infix "-^" := F4.sub (at level 50, left associativity).
Infix "*^" := F4.mul (at level 40, left associativity).

(** ** Memory *)

Definition mem : Type := Z -> float4.

Definition upd (m : mem) (p : Z) (v : float4) : mem :=
  fun q => if q =? p then v else m q.

(** ** Machine integers *)

Definition size_t (z : Z) : Z := z mod 2 ^ 64.

Definition ptrdiff_t (z : Z) : Z :=
  let w := z mod 2 ^ 64 in if w <? 2 ^ 63 then w else w - 2 ^ 64.

Definition INT_MAX : Z := 2 ^ 31 - 1.

(** ** brent_kung_prefix_sum *)

(** The inner [while (iters)] loop, shared by both trees:
    [*da = *da + da[ofs]; da += ofs_stride; iters--]. *)
Fixpoint sweep (iters : nat) (da ofs ofs_stride : Z) (m : mem) : mem :=
  match iters with
  | O => m
  | S iters' =>
      let v := m da +^ m (da + ofs) in
      sweep iters' (da + ofs_stride) ofs ofs_stride (upd m da v)
  end.

(** The reduction-tree [do ... while (lc_stride <= items)] loop.  [None] is
    fuel exhaustion. *)
Fixpoint reduction_tree (fuel : nat) (d items stride lc_stride log2_stride : Z)
    (m : mem) : option (Z * Z * mem) :=
  match fuel with
  | O => None
  | S fuel' =>
      let step := Z.shiftr lc_stride 1 in
      let start := size_t (lc_stride - 1) in
      let iters := Z.shiftr items log2_stride in
      let da := d + size_t (start * stride) in
      let ofs := - ptrdiff_t (size_t (step * stride)) in
      let ofs_stride := size_t (Z.shiftl stride log2_stride) in
      let m' := sweep (Z.to_nat iters) da ofs ofs_stride m in
      let log2_stride' := size_t (log2_stride + 1) in
      let lc_stride' := size_t (Z.shiftl lc_stride 1) in
      if lc_stride' <=? items
      then reduction_tree fuel' d items stride lc_stride' log2_stride' m'
      else Some (lc_stride', log2_stride', m')
  end.

(** The expansion-tree [do ... while (lc_stride > 2)] loop. *)
Fixpoint expansion_tree (fuel : nat) (d items stride lc_stride log2_stride : Z)
    (m : mem) : option mem :=
  match fuel with
  | O => None
  | S fuel' =>
      let log2_stride' := size_t (log2_stride - 1) in
      let lc_stride' := Z.shiftr lc_stride 1 in
      let step := Z.shiftr lc_stride' 1 in
      let start := size_t (step + lc_stride' - 1) in
      let iters := Z.shiftr (size_t (items - step)) log2_stride' in
      let da := d + size_t (start * stride) in
      let ofs := - ptrdiff_t (size_t (step * stride)) in
      let ofs_stride := size_t (Z.shiftl stride log2_stride') in
      let m' := sweep (Z.to_nat iters) da ofs ofs_stride m in
      if 2 <? lc_stride'
      then expansion_tree fuel' d items stride lc_stride' log2_stride' m'
      else Some m'
  end.

(** [lc_stride] is a 64-bit [size_t] that starts at 2 and doubles: after 63
    rounds it is 0 and the reduction loop can no longer exit.  64 rounds of
    fuel therefore decide each loop: [None] is a run that never returns. *)
Definition tree_fuel : nat := 64.

Definition brent_kung_prefix_sum (m : mem) (d items stride : Z) : option mem :=
  if items <? 2 then Some m
  else
    match reduction_tree tree_fuel d items stride 2 1 m with
    | None => None
    | Some (lc_stride, log2_stride, m1) =>
        expansion_tree tree_fuel d items stride lc_stride log2_stride m1
    end.

(** ** Loops *)

(** [for (int i = lo; i < hi; i++) body], the body not assigning [i]. *)
Fixpoint for_steps {S : Type} (n : nat) (i : Z) (body : Z -> S -> option S) (s : S)
    : option S :=
  match n with
  | O => Some s
  | S n' =>
      match body i s with
      | Some s' => for_steps n' (i + 1) body s'
      | None => None
      end
  end.

Definition for_loop {S : Type} (lo hi : Z) (body : Z -> S -> option S) (s : S)
    : option S :=
  for_steps (Z.to_nat (hi - lo)) lo body s.

(** [for (int x = lo; x < hi; x += step) body]; [None] is fuel exhaustion. *)
Fixpoint for_stride {S : Type} (fuel : nat) (x hi step : Z)
    (body : Z -> S -> option S) (s : S) : option S :=
  match fuel with
  | O => None
  | S fuel' =>
      if x <? hi then
        match body x s with
        | Some s' => for_stride fuel' (x + step) hi step body s'
        | None => None
        end
      else Some s
  end.

Notation "x <- c1 ;; c2" :=
  (match c1 with Some x => c2 | None => None end)
  (at level 61, c1 at next level, right associativity).

(** ** Helpers declared outside the file *)

(** Modelled from the spec: the macros [MAX] and [MIN] of astcenc_internal.h
    are not in the sources; they are the usual conditional expressions
    [((x) > (y) ? (x) : (y))] and [((x) < (y) ? (x) : (y))]. *)
Definition MAX (x y : Z) : Z := if x >? y then x else y.
Definition MIN (x y : Z) : Z := if x <? y then x else y.

Definition Qc_gtb (x y : Qc) : bool :=
  match (x ?= y)%Qc with Gt => true | _ => false end.

Definition MAXf (x y : Qc) : Qc := if Qc_gtb x y then x else y.

(** Modelled from the spec: [astc::clamp] of astcenc_mathlib.h is not in the
    sources; it returns its first argument clamped to [[mn, mx]] and leaves
    the argument itself alone. *)
Definition clamp (v mn mx : Z) : Z :=
  if v >? mx then mx else if v >? mn then v else mn.

Definition uint32 (z : Z) : Z := z mod 2 ^ 32.

Definition int32 (z : Z) : Z :=
  let w := z mod 2 ^ 32 in if w <? 2 ^ 31 then w else w - 2 ^ 32.

(** [(float)n] for an integer [n] *)
Definition Zf (n : Z) : Qc := Q2Qc (inject_Z n).

(** ** Data model *)

Inductive astcenc_swz : Type :=
  | ASTCENC_SWZ_R | ASTCENC_SWZ_G | ASTCENC_SWZ_B | ASTCENC_SWZ_A
  | ASTCENC_SWZ_0 | ASTCENC_SWZ_1.

Record astcenc_swizzle : Type := mkswizzle
  { swz_r : astcenc_swz; swz_g : astcenc_swz; swz_b : astcenc_swz; swz_a : astcenc_swz }.

Inductive astcenc_type : Type :=
  | ASTCENC_TYPE_U8 | ASTCENC_TYPE_F16 | ASTCENC_TYPE_F32.

(** [img->data] is a [void*]; each branch casts it to the layout of its own
    data type, so the image carries one view per cast. *)
Record astcenc_image : Type := mkimage
  { dim_x : Z; dim_y : Z; dim_z : Z;
    data_type : astcenc_type;
    data8 : Z -> Z;             (* static_cast<uint8_t*>:    data8[i] *)
    data16 : Z -> Z -> Z -> Z;  (* static_cast<uint16_t***>: data16[z][y][i] *)
    data32 : Z -> float4 }.     (* static_cast<float4*>:     data32[i] *)

Record int3 : Type := mkint3 { i3r : Z; i3g : Z; i3b : Z }.

Record pixel_region_variance_args : Type := mkargs
  { img : astcenc_image;
    rgb_power : Qc;
    alpha_power : Qc;
    swz : astcenc_swizzle;
    have_z : bool;
    avg_var_kernel_radius : Z;
    alpha_kernel_radius : Z;
    size : int3;
    offset : int3 }.

Record avg_var_args : Type := mkavgvar
  { arg : pixel_region_variance_args;
    img_size : int3;
    blk_size : int3;
    work_memory_size : Z }.

(** One pixel's stores to [input_alpha_averages], [input_averages] and
    [input_variances], all three at [out_index].  The output arrays are the
    log of these stores in program order. *)
Record store : Type := mkstore
  { out_index : Z;
    alpha_average : Qc;
    average : float4;
    variance : float4 }.

(** [data[sel]] for the six-entry swizzle table *)
Definition swz_select {T : Type} (d0 d1 d2 d3 d4 d5 : T) (sel : astcenc_swz) : T :=
  match sel with
  | ASTCENC_SWZ_R => d0
  | ASTCENC_SWZ_G => d1
  | ASTCENC_SWZ_B => d2
  | ASTCENC_SWZ_A => d3
  | ASTCENC_SWZ_0 => d4
  | ASTCENC_SWZ_1 => d5
  end.

Definition swz_eqb (s t : astcenc_swz) : bool :=
  match s, t with
  | ASTCENC_SWZ_R, ASTCENC_SWZ_R | ASTCENC_SWZ_G, ASTCENC_SWZ_G
  | ASTCENC_SWZ_B, ASTCENC_SWZ_B | ASTCENC_SWZ_A, ASTCENC_SWZ_A
  | ASTCENC_SWZ_0, ASTCENC_SWZ_0 | ASTCENC_SWZ_1, ASTCENC_SWZ_1 => true
  | _, _ => false
  end.

Definition needs_swz (sw : astcenc_swizzle) : bool :=
  negb (swz_eqb (swz_r sw) ASTCENC_SWZ_R) || negb (swz_eqb (swz_g sw) ASTCENC_SWZ_G) ||
  negb (swz_eqb (swz_b sw) ASTCENC_SWZ_B) || negb (swz_eqb (swz_a sw) ASTCENC_SWZ_A).

Definition eps : Qc := Q2Qc (1 # 1000000).

Definition Qc_eqb (x y : Qc) : bool := Qeq_bool x y.

(** ** compute_pixel_region_variance *)

Section Pipeline.

(** [powf] of the C library and [sf16_to_float] of the soft-float module *)
Variable powf : Qc -> Qc -> Qc.
Variable sf16_to_float : Z -> Qc.

Section Region.

Variable a : pixel_region_variance_args.

Definition size_x : Z := i3r (size a).
Definition size_y : Z := i3g (size a).
Definition size_z : Z := i3b (size a).

Definition offset_x : Z := i3r (offset a).
Definition offset_y : Z := i3g (offset a).
Definition offset_z : Z := i3b (offset a).

Definition kernel_radius : Z := MAX (avg_var_kernel_radius a) (alpha_kernel_radius a).
Definition kerneldim : Z := 2 * kernel_radius + 1.
Definition kernel_radius_xy : Z := kernel_radius.
Definition kernel_radius_z : Z := if have_z a then kernel_radius else 0.

Definition padsize_x : Z := size_x + kerneldim.
Definition padsize_y : Z := size_y + kerneldim.
Definition padsize_z : Z := size_z + (if have_z a then kerneldim else 0).
Definition sizeprod : Z := padsize_x * padsize_y * padsize_z.

Definition zd_start : Z := if have_z a then 1 else 0.
Definition are_powers_1 : bool :=
  Qc_eqb (rgb_power a) 1%Qc && Qc_eqb (alpha_power a) 1%Qc.

(** Scaling factors for the work buffers and for the result buffers *)
Definition yst : Z := padsize_x.
Definition zst : Z := padsize_x * padsize_y.
Definition ydt : Z := dim_x (img a).
Definition zdt : Z := dim_x (img a) * dim_y (img a).

(** [work_memory] is index 0 of the work memory; [varbuf1 = work_memory] and
    [varbuf2 = work_memory + sizeprod].  The macros give the index of a cell. *)
Definition VARBUF1 (z y x : Z) : Z := z * zst + y * yst + x.
Definition VARBUF2 (z y x : Z) : Z := sizeprod + (z * zst + y * yst + x).

(** *** Loading one texel: the three branches on [img->data_type] *)

Definition load_u8 (x_src y_src z_src : Z) : option float4 :=
  let px := (y_src * dim_x (img a) + x_src) * 4 in
  let r := data8 (img a) (px + 0) in
  let g := data8 (img a) (px + 1) in
  let b := data8 (img a) (px + 2) in
  let al := data8 (img a) (px + 3) in
  let sel := swz_select r g b al 0 255 in
  let '(r, g, b, al) :=
    if needs_swz (swz a)
    then (sel (swz_r (swz a)), sel (swz_g (swz a)), sel (swz_b (swz a)), sel (swz_a (swz a)))
    else (r, g, b, al) in
  let d := mkfloat4 (Zf r) (Zf g) (Zf b) (Zf al) in
  Some (F4.scale d (1 / Zf 255)%Qc).

Definition load_f16 (x_src y_src z_src : Z) : option float4 :=
  let sel := swz_select (data16 (img a) z_src y_src (4 * x_src))
                        (data16 (img a) z_src y_src (4 * x_src + 1))
                        (data16 (img a) z_src y_src (4 * x_src + 2))
                        (data16 (img a) z_src y_src (4 * x_src + 3))
                        0 15360 (* 0x3C00 *) in
  let r := sel (swz_r (swz a)) in
  let g := sel (swz_g (swz a)) in
  let b := sel (swz_b (swz a)) in
  let al := sel (swz_a (swz a)) in
  Some (mkfloat4 (sf16_to_float r) (sf16_to_float g) (sf16_to_float b) (sf16_to_float al)).

(** [None] is the failed [assert(z_src == 0)]. *)
Definition load_f32 (x_src y_src z_src : Z) : option float4 :=
  if z_src =? 0 then
    let d := data32 (img a) (y_src * dim_x (img a) + x_src) in
    let sel := swz_select (f4r d) (f4g d) (f4b d) (f4a d) 0%Qc 1%Qc in
    Some (if needs_swz (swz a)
          then mkfloat4 (sel (swz_r (swz a))) (sel (swz_g (swz a)))
                        (sel (swz_b (swz a))) (sel (swz_a (swz a)))
          else d)
  else None.

Definition power_curve (d : float4) : float4 :=
  if negb are_powers_1 then
    mkfloat4 (powf (MAXf (f4r d) eps) (rgb_power a))
             (powf (MAXf (f4g d) eps) (rgb_power a))
             (powf (MAXf (f4b d) eps) (rgb_power a))
             (powf (MAXf (f4a d) eps) (alpha_power a))
  else d.

(** The value [d] of a branch before the power curve, and the value stored *)
Definition load_raw (x_src y_src z_src : Z) : option float4 :=
  match data_type (img a) with
  | ASTCENC_TYPE_U8 => load_u8 x_src y_src z_src
  | ASTCENC_TYPE_F16 => load_f16 x_src y_src z_src
  | ASTCENC_TYPE_F32 => load_f32 x_src y_src z_src
  end.

Definition load_texel (x_src y_src z_src : Z) : option float4 :=
  d <- load_raw x_src y_src z_src ;;
  Some (power_curve d).

(** Load N and N^2 values into the work buffers.  The source repeats this
    loop nest once per data type; the copies differ in the texel load only. *)
Definition load_buffers (m : mem) : option mem :=
  for_loop zd_start padsize_z (fun z m =>
    let z_src := (z - zd_start) + offset_z - kernel_radius_z in
    let z_src := clamp z_src 0 (dim_z (img a) - 1) in
    for_loop 1 padsize_y (fun y m =>
      let y_src := (y - 1) + offset_y - kernel_radius_xy in
      let y_src := clamp y_src 0 (dim_y (img a) - 1) in
      for_loop 1 padsize_x (fun x m =>
        let x_src := (x - 1) + offset_x - kernel_radius_xy in
        let x_src := clamp x_src 0 (dim_x (img a) - 1) in
        d <- load_texel x_src y_src z_src ;;
        let m := upd m (VARBUF1 z y x) d in
        let m := upd m (VARBUF2 z y x) (d *^ d) in
        Some m) m) m) m.

(** Pad with an extra layer of 0s. *)
Definition pad_zero (m : mem) : option mem :=
  let vbz := F4.splat 0%Qc in
  m <- for_loop 0 padsize_z (fun z m =>
         m <- for_loop 0 padsize_y (fun y m =>
                let m := upd m (VARBUF1 z y 0) vbz in
                let m := upd m (VARBUF2 z y 0) vbz in
                Some m) m ;;
         for_loop 0 padsize_x (fun x m =>
           let m := upd m (VARBUF1 z 0 x) vbz in
           let m := upd m (VARBUF2 z 0 x) vbz in
           Some m) m) m ;;
  if have_z a then
    for_loop 0 padsize_y (fun y m =>
      for_loop 0 padsize_x (fun x m =>
        let m := upd m (VARBUF1 0 y x) vbz in
        let m := upd m (VARBUF2 0 y x) vbz in
        Some m) m) m
  else Some m.

(** Generate summed-area tables for N and N^2, in place: the three loop
    nests, along x, along y and, if [have_z], along z. *)
Definition prefix_sums_x (m : mem) : option mem :=
  for_loop zd_start padsize_z (fun z m =>
    for_loop 1 padsize_y (fun y m =>
      m <- brent_kung_prefix_sum m (VARBUF1 z y 1) (size_t (padsize_x - 1)) 1 ;;
      brent_kung_prefix_sum m (VARBUF2 z y 1) (size_t (padsize_x - 1)) 1) m) m.

Definition prefix_sums_y (m : mem) : option mem :=
  for_loop zd_start padsize_z (fun z m =>
    for_loop 1 padsize_x (fun x m =>
      m <- brent_kung_prefix_sum m (VARBUF1 z 1 x) (size_t (padsize_y - 1)) yst ;;
      brent_kung_prefix_sum m (VARBUF2 z 1 x) (size_t (padsize_y - 1)) yst) m) m.

Definition prefix_sums_z (m : mem) : option mem :=
  for_loop 1 padsize_y (fun y m =>
    for_loop 1 padsize_x (fun x m =>
      m <- brent_kung_prefix_sum m (VARBUF1 1 y x) (size_t (padsize_z - 1)) zst ;;
      brent_kung_prefix_sum m (VARBUF2 1 y x) (size_t (padsize_z - 1)) zst) m) m.

Definition summed_area_tables (m : mem) : option mem :=
  m <- prefix_sums_x m ;;
  m <- prefix_sums_y m ;;
  if have_z a then prefix_sums_z m else Some m.

(** *** Constants of the variance calculation *)

Definition avg_var_kdim : Z := 2 * avg_var_kernel_radius a + 1.
Definition alpha_kdim : Z := 2 * alpha_kernel_radius a + 1.

Definition avg_var_samples : Qc :=
  if have_z a then Zf (avg_var_kdim * avg_var_kdim * avg_var_kdim)
  else Zf (avg_var_kdim * avg_var_kdim).

Definition alpha_rsamples : Qc :=
  if have_z a then (1 / Zf (alpha_kdim * alpha_kdim * alpha_kdim))%Qc
  else (1 / Zf (alpha_kdim * alpha_kdim))%Qc.

Definition avg_var_rsamples : Qc := (1 / avg_var_samples)%Qc.

Definition mul1 : Qc :=
  if Qc_eqb avg_var_samples 1%Qc then 1%Qc
  else (1 / (avg_var_samples * (avg_var_samples - 1)))%Qc.

Definition mul2 : Qc := (avg_var_samples * mul1)%Qc.

(** *** The windows *)

(** One axis of the loop head, [kr] its kernel radius: [src], [low] and
    [high], followed by the three [astc::clamp] calls, whose results the
    source does not use. *)
Definition window (kr i dim : Z) : Z * Z :=
  let src := i + kr in
  let low := src - alpha_kernel_radius a in
  let high := src + alpha_kernel_radius a + 1 in
  let _ := clamp src 0 (dim - 1) in
  let _ := clamp low 0 (dim - 1) in
  let _ := clamp high 0 (dim - 1) in
  (low, high).

(** The four-corner expression of the source, on one z plane *)
Definition corners (V : Z -> Z -> Z -> Z) (m : mem) (z y_low y_high x_low x_high : Z)
    : float4 :=
  m (V z y_low x_low) -^ m (V z y_low x_high) -^ m (V z y_high x_low)
  +^ m (V z y_high x_high).

Definition corners_a (m : mem) (z y_low y_high x_low x_high : Z) : Qc :=
  (f4a (m (VARBUF1 z y_low x_low)) - f4a (m (VARBUF1 z y_low x_high))
   - f4a (m (VARBUF1 z y_high x_low)) + f4a (m (VARBUF1 z y_high x_high)))%Qc.

Definition emit (out : Z) (vasum : Qc) (v1sum v2sum : float4) : store :=
  let avg := F4.scale v1sum avg_var_rsamples in
  let var := F4.scale v2sum mul2 -^ F4.scale (v1sum *^ v1sum) mul1 in
  mkstore out (vasum * alpha_rsamples)%Qc avg var.

(** The body of the innermost loop, [have_z] branch *)
Definition pixel_3d (m : mem) (z y x : Z) : store :=
  let '(z_low, z_high) := window kernel_radius_z z (dim_z (img a)) in
  let z_dst := z + offset_z in
  let '(y_low, y_high) := window kernel_radius_xy y (dim_y (img a)) in
  let y_dst := y + offset_y in
  let '(x_low, x_high) := window kernel_radius_xy x (dim_x (img a)) in
  let x_dst := x + offset_x in
  let vasum := (corners_a m z_high y_low y_high x_low x_high
                - corners_a m z_low y_low y_high x_low x_high)%Qc in
  let out := z_dst * zdt + y_dst * ydt + x_dst in
  let v1sum := corners VARBUF1 m z_high y_low y_high x_low x_high
               -^ corners VARBUF1 m z_low y_low y_high x_low x_high in
  let v2sum := corners VARBUF2 m z_high y_low y_high x_low x_high
               -^ corners VARBUF2 m z_low y_low y_high x_low x_high in
  emit out vasum v1sum v2sum.

(** The body of the innermost loop, 2D branch *)
Definition pixel_2d (m : mem) (y x : Z) : store :=
  let '(y_low, y_high) := window kernel_radius_xy y (dim_y (img a)) in
  let y_dst := y + offset_y in
  let '(x_low, x_high) := window kernel_radius_xy x (dim_x (img a)) in
  let x_dst := x + offset_x in
  let vasum := corners_a m 0 y_low y_high x_low x_high in
  let out := y_dst * ydt + x_dst in
  let v1sum := corners VARBUF1 m 0 y_low y_high x_low x_high in
  let v2sum := corners VARBUF2 m 0 y_low y_high x_low x_high in
  emit out vasum v1sum v2sum.

(** Use the summed-area tables to compute variance for each neighborhood. *)
Definition extract (m : mem) (log : list store) : option (list store) :=
  if have_z a then
    for_loop 0 size_z (fun z log =>
      for_loop 0 size_y (fun y log =>
        for_loop 0 size_x (fun x log =>
          Some (log ++ [pixel_3d m z y x])) log) log) log
  else
    for_loop 0 size_y (fun y log =>
      for_loop 0 size_x (fun x log =>
        Some (log ++ [pixel_2d m y x])) log) log.

(** The work memory is handed in as found: the caller allocates it once and
    does not clear it between regions. *)
Definition compute_pixel_region_variance (st : mem * list store)
    : option (mem * list store) :=
  m <- load_buffers (fst st) ;;
  m <- pad_zero m ;;
  m <- summed_area_tables m ;;
  log <- extract m (snd st) ;;
  Some (m, log).

End Region.

(** ** The task manager *)

Record ParallelManager : Type := mkmanager { start_count : Z; task_count : Z }.

(** Modelled from the spec: [ParallelManager::get_task_assignment] is not in
    the sources.  [claim(n)] reserves up to [n] units starting at the current
    cursor and returns the starting index and the count granted, 0 when the
    units are exhausted. *)
Definition get_task_assignment (granule : Z) (pm : ParallelManager)
    : Z * Z * ParallelManager :=
  let base := start_count pm in
  let count := MAX 0 (MIN granule (task_count pm - base)) in
  (base, count, mkmanager (base + count) (task_count pm)).

(** ** compute_averages_and_variances *)

Definition set_size_offset_b (a : pixel_region_variance_args) (sz off : Z) :=
  mkargs (img a) (rgb_power a) (alpha_power a) (swz a) (have_z a)
         (avg_var_kernel_radius a) (alpha_kernel_radius a)
         (mkint3 (i3r (size a)) (i3g (size a)) sz)
         (mkint3 (i3r (offset a)) (i3g (offset a)) off).

Definition set_size_offset_g (a : pixel_region_variance_args) (sz off : Z) :=
  mkargs (img a) (rgb_power a) (alpha_power a) (swz a) (have_z a)
         (avg_var_kernel_radius a) (alpha_kernel_radius a)
         (mkint3 (i3r (size a)) sz (i3b (size a)))
         (mkint3 (i3r (offset a)) off (i3b (offset a))).

Definition set_size_offset_r (a : pixel_region_variance_args) (sz off : Z) :=
  mkargs (img a) (rgb_power a) (alpha_power a) (swz a) (have_z a)
         (avg_var_kernel_radius a) (alpha_kernel_radius a)
         (mkint3 sz (i3g (size a)) (i3b (size a)))
         (mkint3 off (i3g (offset a)) (i3b (offset a))).

(** The state of a worker: its copy of [arg], its work memory and the
    output arrays. *)
Definition worker_state : Type := (pixel_region_variance_args * (mem * list store))%type.

(** One claimed unit: the body of the [while (true)] loop after the
    [if (!count) break].  [base] is an [unsigned int], so the arithmetic that
    mixes it with [int] operands is carried out modulo [2^32]. *)
Definition process_unit (fuel : nat) (ag : avg_var_args) (y_tasks base : Z)
    (ws : worker_state) : option worker_state :=
  let size_x := i3r (img_size ag) in
  let size_y := i3g (img_size ag) in
  let size_z := i3b (img_size ag) in
  let step_x := i3r (blk_size ag) in
  let step_y := i3g (blk_size ag) in
  let step_z := i3b (blk_size ag) in
  let z := int32 (uint32 ((base / uint32 y_tasks) * uint32 step_z)) in
  let y := int32 (uint32 (uint32 (base - uint32 (z * y_tasks)) * uint32 step_y)) in
  let a := fst ws in
  let a := set_size_offset_b a (MIN step_z (size_z - z)) z in
  let a := set_size_offset_g a (MIN step_y (size_y - y)) y in
  for_stride fuel 0 size_x step_x (fun x ws =>
    let a := set_size_offset_r (fst ws) (MIN step_x (size_x - x)) x in
    st <- compute_pixel_region_variance a (snd ws) ;;
    Some (a, st)) (a, snd ws).

(** All threads run this processing loop until there is no work remaining;
    [None] is fuel exhaustion or a failed region. *)
Fixpoint processing_loop (fuel : nat) (ag : avg_var_args) (y_tasks : Z)
    (pm : ParallelManager) (ws : worker_state)
    : option (ParallelManager * worker_state) :=
  match fuel with
  | O => None
  | S fuel' =>
      let '(base, count, pm) := get_task_assignment 1 pm in
      if count =? 0 then Some (pm, ws)
      else
        ws <- process_unit fuel' ag y_tasks base ws ;;
        processing_loop fuel' ag y_tasks pm ws
  end.

(** [wm] is the content of the fresh [new float4[ag.work_memory_size]]. *)
Definition compute_averages_and_variances (fuel : nat) (pm : ParallelManager)
    (ag : avg_var_args) (wm : mem) (log : list store)
    : option (ParallelManager * list store) :=
  let size_y := i3g (img_size ag) in
  let step_y := i3g (blk_size ag) in
  let y_tasks := Z.quot (size_y + step_y - 1) step_y in
  r <- processing_loop fuel ag y_tasks pm (arg ag, (wm, log)) ;;
  Some (fst r, snd (snd (snd r))).

End Pipeline.

(** ** init_compute_averages_and_variances *)

Definition init_compute_averages_and_variances (im : astcenc_image)
    (rgb_power alpha_power : Qc) (avg_var_kernel_radius alpha_kernel_radius : Z)
    (swz : astcenc_swizzle) : avg_var_args * Z :=
  let size_x := dim_x im in
  let size_y := dim_y im in
  let size_z := dim_z im in
  let kernel_radius := MAX avg_var_kernel_radius alpha_kernel_radius in
  let kerneldim := 2 * kernel_radius + 1 in
  let have_z := size_z >? 1 in
  let max_blk_size_xy := if have_z then 16 else 32 in
  let max_blk_size_z := MIN size_z (if have_z then 16 else 1) in
  let max_padsize_xy := max_blk_size_xy + kerneldim in
  let max_padsize_z := max_blk_size_z + (if have_z then kerneldim else 0) in
  let arg := mkargs im rgb_power alpha_power swz have_z
                    avg_var_kernel_radius alpha_kernel_radius
                    (mkint3 0 0 0) (mkint3 0 0 0) in
  let ag := mkavgvar arg (mkint3 size_x size_y size_z)
                     (mkint3 max_blk_size_xy max_blk_size_xy max_blk_size_z)
                     (2 * max_padsize_xy * max_padsize_xy * max_padsize_z) in
  let z_tasks := Z.quot (size_z + max_blk_size_z - 1) max_blk_size_z in
  let y_tasks := Z.quot (size_y + max_blk_size_xy - 1) max_blk_size_xy in
  (ag, uint32 (z_tasks * y_tasks)).

(** Modelled from the spec: the caller that creates the work cursor is not in
    the sources.  Setup computes the total unit count; the cursor is created
    at run start; a worker then runs the processing loop until drained. *)
Definition run (powf : Qc -> Qc -> Qc) (sf16_to_float : Z -> Qc) (fuel : nat)
    (im : astcenc_image) (rgb_power alpha_power : Qc)
    (avg_var_kernel_radius alpha_kernel_radius : Z) (swz : astcenc_swizzle)
    (wm : mem) : option (ParallelManager * list store) :=
  let '(ag, total) := init_compute_averages_and_variances im rgb_power alpha_power
                        avg_var_kernel_radius alpha_kernel_radius swz in
  compute_averages_and_variances powf sf16_to_float fuel (mkmanager 0 total) ag wm [].

(** ** Reference sums *)

(** [sum f lo hi] is [f lo + f (lo+1) + ... + f (hi-1)]. *)
Fixpoint sum_steps (n : nat) (lo : Z) (f : Z -> float4) : float4 :=
  match n with
  | O => F4.zero
  | S n' => f lo +^ sum_steps n' (lo + 1) f
  end.

Definition sum (f : Z -> float4) (lo hi : Z) : float4 :=
  sum_steps (Z.to_nat (hi - lo)) lo f.

(** ** Invariants of the prefix sum *)

Section PrefixSumInvariants.

Variables (m0 : mem) (d items stride : Z).

(** Element [p] of the strided array, as the call found it *)
Definition orig (p : Z) : float4 := m0 (d + p * stride).

(** Memory outside the array is left alone. *)
Definition frame (m : mem) : Prop :=
  forall p, (forall i, 0 <= i < items -> p <> d + i * stride) -> m p = m0 p.

(** After the reduction level [k]: the element that ends a block of length
    [2^j], [j <= k], which is not also the end of a longer such block, holds
    the sum of its block. *)
Definition reduced (k : Z) (m : mem) : Prop :=
  frame m /\
  forall j q, 0 <= j <= k -> 1 <= q -> q * 2 ^ j <= items ->
    Z.odd q = true \/ j = k ->
    m (d + (q * 2 ^ j - 1) * stride) = sum orig ((q - 1) * 2 ^ j) (q * 2 ^ j).

(** Before the expansion level [k]: ends of blocks of length [2^k] hold full
    prefix sums; shorter blocks are as the reduction left them. *)
Definition expanded (k : Z) (m : mem) : Prop :=
  frame m /\
  (forall q, 1 <= q -> q * 2 ^ k <= items ->
     m (d + (q * 2 ^ k - 1) * stride) = sum orig 0 (q * 2 ^ k)) /\
  (forall j q, 0 <= j < k -> 1 <= q -> Z.odd q = true -> q * 2 ^ j <= items ->
     m (d + (q * 2 ^ j - 1) * stride) = sum orig ((q - 1) * 2 ^ j) (q * 2 ^ j)).

End PrefixSumInvariants.

(** ** Specifications of memory phases *)

(** [c] returns, writes only addresses in [P], and what it leaves at an
    address it wrote satisfies [V]. *)
Definition writes (P : Z -> Prop) (V : Z -> float4 -> Prop)
    (c : mem -> option mem) : Prop :=
  forall m, exists m',
    c m = Some m' /\
    (forall p, P p -> V p (m' p)) /\
    (forall p, m' p = m p \/ (P p /\ V p (m' p))).

(** Lines of [n] elements at stride [s], each named by its base address and
    taken from the universe [U].  [c] returns, turns the lines in [P] into
    their prefix sums and leaves every other line and all other memory
    alone. *)
Definition scans (n s : Z) (U P : Z -> Prop) (c : mem -> option mem) : Prop :=
  forall m, exists m',
    c m = Some m' /\
    (forall b i, U b -> 0 <= i < n ->
       (P b -> m' (b + i * s) = sum (fun k => m (b + k * s)) 0 (i + 1)) /\
       (m' (b + i * s) = m (b + i * s) \/ P b)) /\
    (forall p, (forall b i, U b -> 0 <= i < n -> p <> b + i * s) -> m' p = m p).

(** Lines of a universe do not meet. *)
Definition separated (n s : Z) (U : Z -> Prop) : Prop :=
  forall b b' i i', U b -> U b' -> 0 <= i < n -> 0 <= i' < n ->
    b + i * s = b' + i' * s -> b = b'.

(** ** The work buffers as three-dimensional tables *)

Section Tables.

Variable powf : Qc -> Qc -> Qc.
Variable sf16_to_float : Z -> Qc.
Variable a : pixel_region_variance_args.

(** The index of cell [(z, y, x)] of [VARBUF1] ([pl = false]) or [VARBUF2]
    ([pl = true]) *)
Definition cell (pl : bool) (z y x : Z) : Z :=
  (if pl then sizeprod a else 0) + (z * zst a + y * yst a + x).

Definition in_box (z y x : Z) : Prop :=
  0 <= z < padsize_z a /\ 0 <= y < padsize_y a /\ 0 <= x < padsize_x a.

(** The value loaded for a source coordinate whose load passes its
    assertion *)
Definition texel (x_src y_src z_src : Z) : float4 :=
  match load_texel powf sf16_to_float a x_src y_src z_src with
  | Some d => d
  | None => F4.zero
  end.

(** The source coordinate of a pixel at distance [i] from the region's
    offset, clamped to the image *)
Definition src (i off dim : Z) : Z := clamp (i + off) 0 (dim - 1).

(** The sample at the image position [(x, y, z)], positions taken relative to
    the region's offset *)
Definition sample (z y x : Z) : float4 :=
  texel (src x (offset_x a) (dim_x (img a)))
        (src y (offset_y a) (dim_y (img a)))
        (src z (offset_z a) (dim_z (img a))).

(** What a cell holds once the buffers are loaded and padded: 0 on the zero
    layer, the sample (or its square) elsewhere. *)
Definition cell0 (pl : bool) (z y x : Z) : float4 :=
  if (x <? 1) || (y <? 1) || (z <? zd_start a) then F4.zero
  else
    let d := sample (z - zd_start a - kernel_radius_z a)
                    (y - 1 - kernel_radius_xy a) (x - 1 - kernel_radius_xy a) in
    if pl then d *^ d else d.

Definition loaded (p : Z) (v : float4) : Prop :=
  forall pl z y x, in_box z y x -> p = cell pl z y x -> v = cell0 pl z y x.

(** The cells the loading loops write *)
Definition interior_cells (p : Z) : Prop :=
  exists z, zd_start a <= z < padsize_z a /\
  exists y, 1 <= y < padsize_y a /\
  exists x, 1 <= x < padsize_x a /\
  (p = cell false z y x \/ p = cell true z y x).

(** The cells the padding loops write *)
Definition border_cells (p : Z) : Prop :=
  (exists z, 0 <= z < padsize_z a /\
     ((exists y, 0 <= y < padsize_y a /\ (p = cell false z y 0 \/ p = cell true z y 0)) \/
      (exists x, 0 <= x < padsize_x a /\ (p = cell false z 0 x \/ p = cell true z 0 x)))) \/
  (have_z a = true /\
   exists y, 0 <= y < padsize_y a /\
   exists x, 0 <= x < padsize_x a /\ (p = cell false 0 y x \/ p = cell true 0 y x)).

(** The tables after the pass along x and after the pass along y *)
Definition sat_x (pl : bool) (z y x : Z) : float4 :=
  sum (cell0 pl z y) 0 (x + 1).

Definition sat_xy (pl : bool) (z y x : Z) : float4 :=
  sum (fun y' => sat_x pl z y' x) 0 (y + 1).

Definition sat_xyz (pl : bool) (z y x : Z) : float4 :=
  sum (fun z' => sat_xy pl z' y x) 0 (z + 1).

(** Sums over a box of a table, each range half open *)
Definition sum2 (f : Z -> Z -> float4) (yl yh xl xh : Z) : float4 :=
  sum (fun y => sum (fun x => f y x) xl xh) yl yh.

Definition sum3 (f : Z -> Z -> Z -> float4) (zl zh yl yh xl xh : Z) : float4 :=
  sum (fun z => sum2 (f z) yl yh xl xh) zl zh.

(** The summed-area table of the loaded buffers *)
Definition sat (pl : bool) (z y x : Z) : float4 :=
  if have_z a then sum3 (cell0 pl) 0 (z + 1) 0 (y + 1) 0 (x + 1)
  else sum2 (cell0 pl z) 0 (y + 1) 0 (x + 1).

(** The stores of one region in program order *)
Definition pixel (m : mem) (z y x : Z) : store :=
  if have_z a then pixel_3d a m z y x else pixel_2d a m y x.

Definition Zrange (lo hi : Z) : list Z :=
  map (fun k => lo + Z.of_nat k) (seq 0 (Z.to_nat (hi - lo))).

Definition region_stores (m : mem) : list store :=
  flat_map (fun z =>
    flat_map (fun y =>
      map (fun x => pixel m z y x) (Zrange 0 (size_x a)))
      (Zrange 0 (size_y a)))
    (Zrange 0 (if have_z a then size_z a else 1)).

(** The window of radius [r] about the pixel, summed over samples *)
Definition window_sum (f : float4 -> float4) (r : Z) (z y x : Z) : float4 :=
  if have_z a then
    sum3 (fun z' y' x' => f (sample z' y' x'))
         (z - r) (z + r + 1) (y - r) (y + r + 1) (x - r) (x + r + 1)
  else
    sum2 (fun y' x' => f (sample 0 y' x')) (y - r) (y + r + 1) (x - r) (x + r + 1).

(** The square of a sample in [VARBUF2], the sample itself in [VARBUF1] *)
Definition plane_value (pl : bool) (d : float4) : float4 :=
  if pl then d *^ d else d.

(** Where the stores of the pixel go *)
Definition out_at (z y x : Z) : Z :=
  if have_z a then
    (z + offset_z a) * zdt a + (y + offset_y a) * ydt a + (x + offset_x a)
  else (y + offset_y a) * ydt a + (x + offset_x a).

(** The stores of a pixel, from the sums over its window of samples: the
    window has the alpha radius, for all three stores. *)
Definition window_store (z y x : Z) : store :=
  let w1 := window_sum (plane_value false) (alpha_kernel_radius a) z y x in
  let w2 := window_sum (plane_value true) (alpha_kernel_radius a) z y x in
  emit a (out_at z y x) (f4a w1) w1 w2.

(** The regions the theorems are about: radii are not negative, the region
    is not empty, the work buffers are indexable by an [int], and a region
    of 32-bit floats passes [assert(z_src == 0)]. *)
Definition region_ok : Prop :=
  0 <= avg_var_kernel_radius a /\ 0 <= alpha_kernel_radius a /\
  1 <= size_x a /\ 1 <= size_y a /\ 1 <= size_z a /\
  2 * sizeprod a <= INT_MAX /\
  (data_type (img a) = ASTCENC_TYPE_F32 -> dim_z (img a) = 1).

End Tables.

(** ** Concrete inputs *)

(** A [powf] for the exponents 1 and 2, and a [sf16_to_float] for the two
    half-float constants of the swizzle table *)
Definition powf_12 (x e : Qc) : Qc :=
  if Qc_eqb e 1%Qc then x else (x * x)%Qc.

Definition sf16_01 (h : Z) : Qc := if h =? 15360 then 1%Qc else 0%Qc.

Definition swz_rgba : astcenc_swizzle :=
  mkswizzle ASTCENC_SWZ_R ASTCENC_SWZ_G ASTCENC_SWZ_B ASTCENC_SWZ_A.

(** A strided array holding 1, 2, 3, ... in every component *)
Definition mem_count : mem := fun p => F4.splat (Zf (p + 1)).

(** ** The cells a pixel looks up *)

(** The corner coordinates [(z, y, x)] at which the loop body of a pixel
    reads [VARBUF1] and [VARBUF2] *)
Definition lookups (a : pixel_region_variance_args) (z y x : Z) : list (Z * Z * Z) :=
  let '(z_low, z_high) := window a (kernel_radius_z a) z (dim_z (img a)) in
  let '(y_low, y_high) := window a (kernel_radius_xy a) y (dim_y (img a)) in
  let '(x_low, x_high) := window a (kernel_radius_xy a) x (dim_x (img a)) in
  if have_z a then
    [ (z_high, y_low, x_low); (z_high, y_low, x_high);
      (z_high, y_high, x_low); (z_high, y_high, x_high);
      (z_low, y_low, x_low); (z_low, y_low, x_high);
      (z_low, y_high, x_low); (z_low, y_high, x_high) ]
  else
    [ (0, y_low, x_low); (0, y_low, x_high); (0, y_high, x_low); (0, y_high, x_high) ].

(** A region of a 4 x 4 image of bytes, processed whole with both radii 1 *)
Definition image_4x4 : astcenc_image :=
  mkimage 4 4 1 ASTCENC_TYPE_U8 (fun i => (i * 37) mod 256) (fun _ _ _ => 0)
          (fun _ => F4.zero).

Definition region_4x4 : pixel_region_variance_args :=
  mkargs image_4x4 1%Qc 1%Qc swz_rgba false 1 1 (mkint3 4 4 1) (mkint3 0 0 0).


(** The same region with both radii 0 *)
Definition region_4x4_r0 : pixel_region_variance_args :=
  mkargs image_4x4 1%Qc 1%Qc swz_rgba false 0 0 (mkint3 4 4 1) (mkint3 0 0 0).

(** ** Windows with clamped corners *)

(** The window of the loop head with the three [astc::clamp] results
    assigned, as the specification words it: every corner clamped to the
    image before the lookup *)
Definition clamped_window (a : pixel_region_variance_args) (kr i dim : Z) : Z * Z :=
  let src := i + kr in
  let low := src - alpha_kernel_radius a in
  let high := src + alpha_kernel_radius a + 1 in
  (clamp low 0 (dim - 1), clamp high 0 (dim - 1)).

(** The store of a pixel as the specification words it: the averages and
    variances over the window of radius [avg_var_kernel_radius], the alpha
    average over the window of radius [alpha_kernel_radius] *)
Definition two_window_store (powf : Qc -> Qc -> Qc) (sf16_to_float : Z -> Qc)
    (a : pixel_region_variance_args) (z y x : Z) : store :=
  let wa := window_sum powf sf16_to_float a (plane_value false)
              (alpha_kernel_radius a) z y x in
  let w1 := window_sum powf sf16_to_float a (plane_value false)
              (avg_var_kernel_radius a) z y x in
  let w2 := window_sum powf sf16_to_float a (plane_value true)
              (avg_var_kernel_radius a) z y x in
  emit a (out_at a z y x) (f4a wa) w1 w2.

(** A 2 x 2 image of 32-bit floats, every pixel (9, 18, 27, 36) *)
Definition image_flat : astcenc_image :=
  mkimage 2 2 1 ASTCENC_TYPE_F32 (fun _ => 0) (fun _ _ _ => 0)
          (fun _ => mkfloat4 (Zf 9) (Zf 18) (Zf 27) (Zf 36)).

(** The image processed whole, with the radius 1 for averages and variances
    and the radius 0 for the alpha average *)
Definition region_flat : pixel_region_variance_args :=
  mkargs image_flat 1%Qc 1%Qc swz_rgba false 1 0 (mkint3 2 2 1) (mkint3 0 0 0).

(** The stores of a run, as a table from output index to the values stored
    there last *)
Definition stored (r : option (ParallelManager * list store)) (i : Z) : option store :=
  match r with
  | Some (_, log) => find (fun st => out_index st =? i) (rev log)
  | None => None
  end.

(** The number of stores of a run to an output index *)
Definition store_count (r : option (ParallelManager * list store)) (i : Z) : nat :=
  match r with
  | Some (_, log) => length (filter (fun st => out_index st =? i) log)
  | None => O
  end.

(** ** Source pixels *)

(** Modelled from the spec: the raw buffer is row-major and contiguous, so
    that pixel [(x, y, z)] is the pixel number [z*dim_x*dim_y + y*dim_x + x]
    of the 8-bit and of the 32-bit float layout; the 16-bit layout is an
    array of slices of rows. *)
Definition pixel_index (im : astcenc_image) (x y z : Z) : Z :=
  (z * dim_y im + y) * dim_x im + x.

(** The value loaded from the source pixel at [(x, y, z)]: its four channels
    fetched according to the data type, remapped by the swizzle and
    converted. *)
Definition load_pixel (sf16_to_float : Z -> Qc) (a : pixel_region_variance_args)
    (x y z : Z) : float4 :=
  match data_type (img a) with
  | ASTCENC_TYPE_U8 =>
      let px := pixel_index (img a) x y z * 4 in
      let sel := swz_select (data8 (img a) (px + 0)) (data8 (img a) (px + 1))
                            (data8 (img a) (px + 2)) (data8 (img a) (px + 3)) 0 255 in
      F4.scale (mkfloat4 (Zf (sel (swz_r (swz a)))) (Zf (sel (swz_g (swz a))))
                         (Zf (sel (swz_b (swz a)))) (Zf (sel (swz_a (swz a)))))
               (1 / Zf 255)%Qc
  | ASTCENC_TYPE_F16 =>
      let sel := swz_select (data16 (img a) z y (4 * x)) (data16 (img a) z y (4 * x + 1))
                            (data16 (img a) z y (4 * x + 2)) (data16 (img a) z y (4 * x + 3))
                            0 15360 in
      mkfloat4 (sf16_to_float (sel (swz_r (swz a)))) (sf16_to_float (sel (swz_g (swz a))))
               (sf16_to_float (sel (swz_b (swz a)))) (sf16_to_float (sel (swz_a (swz a))))
  | ASTCENC_TYPE_F32 =>
      let d := data32 (img a) (pixel_index (img a) x y z) in
      let sel := swz_select (f4r d) (f4g d) (f4b d) (f4a d) 0%Qc 1%Qc in
      mkfloat4 (sel (swz_r (swz a))) (sel (swz_g (swz a)))
               (sel (swz_b (swz a))) (sel (swz_a (swz a)))
  end.

(** A volumetric 1 x 1 x 2 image of bytes: the pixel of slice 0 is
    (0, 1, 2, 3), the pixel of slice 1 is (4, 5, 6, 7). *)
Definition image_vol : astcenc_image :=
  mkimage 1 1 2 ASTCENC_TYPE_U8 (fun i => i) (fun _ _ _ => 0) (fun _ => F4.zero).

Definition region_vol : pixel_region_variance_args :=
  mkargs image_vol 1%Qc 1%Qc swz_rgba true 0 0 (mkint3 1 1 2) (mkint3 0 0 0).

(** ** Exchanging two channels *)

Inductive channel : Type := CH_R | CH_G | CH_B | CH_A.

Definition channel_eqb (c d : channel) : bool :=
  match c, d with
  | CH_R, CH_R | CH_G, CH_G | CH_B, CH_B | CH_A, CH_A => true
  | _, _ => false
  end.

(** The transposition of [c1] and [c2] *)
Definition exchange (c1 c2 c : channel) : channel :=
  if channel_eqb c c1 then c2 else if channel_eqb c c2 then c1 else c.

Definition get_channel (c : channel) (v : float4) : Qc :=
  match c with CH_R => f4r v | CH_G => f4g v | CH_B => f4b v | CH_A => f4a v end.

Definition get_selector (c : channel) (sw : astcenc_swizzle) : astcenc_swz :=
  match c with CH_R => swz_r sw | CH_G => swz_g sw | CH_B => swz_b sw | CH_A => swz_a sw end.

(** A vector with the channels [c1] and [c2] exchanged *)
Definition swap_f4 (c1 c2 : channel) (v : float4) : float4 :=
  mkfloat4 (get_channel (exchange c1 c2 CH_R) v) (get_channel (exchange c1 c2 CH_G) v)
           (get_channel (exchange c1 c2 CH_B) v) (get_channel (exchange c1 c2 CH_A) v).

(** A swizzle with the selectors of the channels [c1] and [c2] exchanged *)
Definition swap_swz (c1 c2 : channel) (sw : astcenc_swizzle) : astcenc_swizzle :=
  mkswizzle (get_selector (exchange c1 c2 CH_R) sw) (get_selector (exchange c1 c2 CH_G) sw)
            (get_selector (exchange c1 c2 CH_B) sw) (get_selector (exchange c1 c2 CH_A) sw).

Definition set_swz (a : pixel_region_variance_args) (sw : astcenc_swizzle) :=
  mkargs (img a) (rgb_power a) (alpha_power a) sw (have_z a)
         (avg_var_kernel_radius a) (alpha_kernel_radius a) (size a) (offset a).

(** Two stores to one output index whose averages and variances are each
    other's with the channels [c1] and [c2] exchanged *)
Definition swapped_store (c1 c2 : channel) (st st' : store) : Prop :=
  out_index st' = out_index st /\
  average st' = swap_f4 c1 c2 (average st) /\
  variance st' = swap_f4 c1 c2 (variance st).

(** A volumetric 1 x 1 x 17 image of bytes *)
Definition image_deep : astcenc_image :=
  mkimage 1 1 17 ASTCENC_TYPE_U8 (fun i => i mod 256) (fun _ _ _ => 0)
          (fun _ => F4.zero).

(** ** The output indices of a run *)

(** The output indices of the stores of a region, in program order *)
Definition region_indices (a : pixel_region_variance_args) : list Z :=
  flat_map (fun z =>
    flat_map (fun y =>
      map (fun x => out_at a z y x) (Zrange 0 (size_x a)))
      (Zrange 0 (size_y a)))
    (Zrange 0 (if have_z a then size_z a else 1)).

Section OneSlab.

Variables (im : astcenc_image) (rgb_power alpha_power : Qc).
Variables (avg_var_kernel_radius alpha_kernel_radius : Z) (sw : astcenc_swizzle).

(** The block size in x and y, and the counts of blocks along x and y *)
Definition blk_xy : Z := if dim_z im >? 1 then 16 else 32.
Definition x_blocks : Z := (dim_x im + blk_xy - 1) / blk_xy.
Definition y_blocks : Z := (dim_y im + blk_xy - 1) / blk_xy.

(** The arguments of the region of block row [j] and block column [k], for
    an image whose slices make one block along z *)
Definition block_args (j k : Z) : pixel_region_variance_args :=
  mkargs im rgb_power alpha_power sw (dim_z im >? 1)
         avg_var_kernel_radius alpha_kernel_radius
         (mkint3 (MIN blk_xy (dim_x im - k * blk_xy))
                 (MIN blk_xy (dim_y im - j * blk_xy))
                 (dim_z im))
         (mkint3 (k * blk_xy) (j * blk_xy) 0).

Definition unit_indices (j : Z) : list Z :=
  flat_map (fun k => region_indices (block_args j k)) (Zrange 0 x_blocks).

Definition run_indices : list Z := flat_map unit_indices (Zrange 0 y_blocks).

(** The images and radii of the coverage lemma: at most 16 slices, output
    arrays and work memory indexable by an [int], radii not negative, and
    32-bit floats in one slice only. *)
Definition one_slab : Prop :=
  1 <= dim_x im /\ 1 <= dim_y im /\ 1 <= dim_z im <= 16 /\
  dim_x im * dim_y im * dim_z im <= INT_MAX /\
  0 <= avg_var_kernel_radius /\ 0 <= alpha_kernel_radius /\
  work_memory_size
    (fst (init_compute_averages_and_variances im rgb_power alpha_power
            avg_var_kernel_radius alpha_kernel_radius sw)) <= INT_MAX /\
  (data_type im = ASTCENC_TYPE_F32 -> dim_z im = 1).

End OneSlab.

(** Two argument records that differ in [size] and [offset] at most *)
Definition same_params (a b : pixel_region_variance_args) : Prop :=
  img a = img b /\ rgb_power a = rgb_power b /\ alpha_power a = alpha_power b /\
  swz a = swz b /\ have_z a = have_z b /\
  avg_var_kernel_radius a = avg_var_kernel_radius b /\
  alpha_kernel_radius a = alpha_kernel_radius b.

(** The output indices of the stores of a worker *)
Definition indices_of (ws : worker_state) : list Z := map out_index (snd (snd ws)).

(** The output index of the pixel [(x, y, z)] of an image *)
Definition image_index (im : astcenc_image) (x y z : Z) : Z :=
  z * (dim_x im * dim_y im) + y * dim_x im + x.

(** The pixel [(x, y, z)] of the block [(j, k)], as an output index *)
Definition block_pixel (im : astcenc_image) (j k z y x i : Z) : Prop :=
  0 <= z < dim_z im /\
  0 <= y < MIN (blk_xy im) (dim_y im - j * blk_xy im) /\
  0 <= x < MIN (blk_xy im) (dim_x im - k * blk_xy im) /\
  i = image_index im (x + k * blk_xy im) (y + j * blk_xy im) z.

(** ** Further definitions *)

(** A phase that, when it returns, has left alone every address outside [P] *)
Definition confined (P : Z -> Prop) (c : mem -> option mem) : Prop :=
  forall m m', c m = Some m' -> forall p, ~ P p -> m' p = m p.

(** The stores of a region in program order, each from the windows of
    samples about its pixel: no work memory takes part. *)
Definition region_results (powf : Qc -> Qc -> Qc) (sf16_to_float : Z -> Qc)
    (a : pixel_region_variance_args) : list store :=
  flat_map (fun z =>
    flat_map (fun y =>
      map (fun x => window_store powf sf16_to_float a z y x) (Zrange 0 (size_x a)))
      (Zrange 0 (size_y a)))
    (Zrange 0 (if have_z a then size_z a else 1)).

(** The number of samples of a window of radius [r] *)
Definition window_count (a : pixel_region_variance_args) (r : Z) : Z :=
  if have_z a then (2 * r + 1) * (2 * r + 1) * (2 * r + 1)
  else (2 * r + 1) * (2 * r + 1).

(** ** Further concrete inputs *)

(** The lower right quarter of the 4 x 4 image as a region of its own *)
Definition region_4x4_tile : pixel_region_variance_args :=
  mkargs image_4x4 1%Qc 1%Qc swz_rgba false 1 1 (mkint3 2 2 1) (mkint3 2 2 0).

(** The 4 x 4 region with green set to 0 and blue set to 1 by the swizzle *)
Definition region_4x4_swz01 : pixel_region_variance_args :=
  mkargs image_4x4 1%Qc 1%Qc
         (mkswizzle ASTCENC_SWZ_R ASTCENC_SWZ_0 ASTCENC_SWZ_1 ASTCENC_SWZ_A)
         false 1 1 (mkint3 4 4 1) (mkint3 0 0 0).

(** The 2 x 2 image of one colour, processed whole with both radii 1 *)
Definition region_flat_eq : pixel_region_variance_args :=
  mkargs image_flat 1%Qc 1%Qc swz_rgba false 1 1 (mkint3 2 2 1) (mkint3 0 0 0).

(** A volumetric 1 x 1 x 2 image of 32-bit floats, processed whole *)
Definition image_vol32 : astcenc_image :=
  mkimage 1 1 2 ASTCENC_TYPE_F32 (fun _ => 0) (fun _ _ _ => 0) (fun _ => F4.zero).

Definition region_vol32 : pixel_region_variance_args :=
  mkargs image_vol32 1%Qc 1%Qc swz_rgba true 0 0 (mkint3 1 1 2) (mkint3 0 0 0).

(** ** The stores of a unit of work *)

(** The whole image as one region *)
Definition image_args (im : astcenc_image) (rgb_power alpha_power : Qc)
    (avg_var_kernel_radius alpha_kernel_radius : Z) (sw : astcenc_swizzle)
    : pixel_region_variance_args :=
  mkargs im rgb_power alpha_power sw (dim_z im >? 1)
         avg_var_kernel_radius alpha_kernel_radius
         (mkint3 (dim_x im) (dim_y im) (dim_z im)) (mkint3 0 0 0).

(** The stores of the pixel [(x, y, z)] of an image: those of the windows
    of samples about the pixel, regions apart *)
Definition image_store (powf : Qc -> Qc -> Qc) (sf16_to_float : Z -> Qc)
    (im : astcenc_image) (rgb_power alpha_power : Qc)
    (avg_var_kernel_radius alpha_kernel_radius : Z) (sw : astcenc_swizzle)
    (x y z : Z) : store :=
  window_store powf sf16_to_float
    (image_args im rgb_power alpha_power avg_var_kernel_radius alpha_kernel_radius sw)
    z y x.

(** The stores of the pixels of the block row [j], block after block, each
    block slice after slice and row after row *)
Definition unit_results (powf : Qc -> Qc -> Qc) (sf16_to_float : Z -> Qc)
    (im : astcenc_image) (rgb_power alpha_power : Qc)
    (avg_var_kernel_radius alpha_kernel_radius : Z) (sw : astcenc_swizzle)
    (j : Z) : list store :=
  flat_map (fun k =>
    flat_map (fun z =>
      flat_map (fun y =>
        map (fun x =>
               image_store powf sf16_to_float im rgb_power alpha_power
                 avg_var_kernel_radius alpha_kernel_radius sw
                 (x + k * blk_xy im) (y + j * blk_xy im) z)
            (Zrange 0 (MIN (blk_xy im) (dim_x im - k * blk_xy im))))
        (Zrange 0 (MIN (blk_xy im) (dim_y im - j * blk_xy im))))
      (Zrange 0 (dim_z im)))
    (Zrange 0 (x_blocks im)).

(** [y_tasks] as [compute_averages_and_variances] computes it *)
Definition y_tasks (ag : avg_var_args) : Z :=
  Z.quot (i3g (img_size ag) + i3g (blk_size ag) - 1) (i3g (blk_size ag)).

(** The stores of the unit of work [base], made by a worker that starts
    with the work memory [wm] *)
Definition unit_log (powf : Qc -> Qc -> Qc) (sf16_to_float : Z -> Qc) (fuel : nat)
    (ag : avg_var_args) (wm : mem) (base : Z) : list store :=
  match process_unit powf sf16_to_float fuel ag (y_tasks ag) base (arg ag, (wm, [])) with
  | Some ws => snd (snd ws)
  | None => []
  end.

(** The arguments of the region at the offset [(x, y, z)], with the sizes
    [compute_averages_and_variances] gives it *)
Definition tile_args (ag : avg_var_args) (x y z : Z) : pixel_region_variance_args :=
  set_size_offset_r
    (set_size_offset_g
       (set_size_offset_b (arg ag) (MIN (i3b (blk_size ag)) (i3b (img_size ag) - z)) z)
       (MIN (i3g (blk_size ag)) (i3g (img_size ag) - y)) y)
    (MIN (i3r (blk_size ag)) (i3r (img_size ag) - x)) x.

(** A 40 x 33 image of bytes: two blocks along each of x and y *)
Definition image_40x33 : astcenc_image :=
  mkimage 40 33 1 ASTCENC_TYPE_U8 (fun i => (i * 37) mod 256) (fun _ _ _ => 0)
          (fun _ => F4.zero).

(** The positions [(z', y', x')] of the window of radius [r] about the pixel
    [(z, y, x)]; a 2D region has the plane 0 only. *)
Definition in_window (a : pixel_region_variance_args) (r z y x z' y' x' : Z) : Prop :=
  (if have_z a then z - r <= z' <= z + r else z' = 0) /\
  y - r <= y' <= y + r /\ x - r <= x' <= x + r.

(** A 2 x 2 image of 32-bit floats whose pixel [i] has the value [i] in
    every channel, and the same image with every channel doubled and raised
    by 1; both processed whole with both radii 1 *)
Definition image_ramp : astcenc_image :=
  mkimage 2 2 1 ASTCENC_TYPE_F32 (fun _ => 0) (fun _ _ _ => 0)
          (fun i => F4.splat (Zf i)).

Definition region_ramp : pixel_region_variance_args :=
  mkargs image_ramp 1%Qc 1%Qc swz_rgba false 1 1 (mkint3 2 2 1) (mkint3 0 0 0).

Definition image_ramp_affine : astcenc_image :=
  mkimage 2 2 1 ASTCENC_TYPE_F32 (fun _ => 0) (fun _ _ _ => 0)
          (fun i => F4.splat (Zf (2 * i + 1))).

Definition region_ramp_affine : pixel_region_variance_args :=
  mkargs image_ramp_affine 1%Qc 1%Qc swz_rgba false 1 1 (mkint3 2 2 1) (mkint3 0 0 0).

(** * Proofs *)

(** ** float4 arithmetic *)

Lemma f4_ext (u v : float4) :
  f4r u = f4r v -> f4g u = f4g v -> f4b u = f4b v -> f4a u = f4a v -> u = v.
Proof. destruct u, v; simpl; intros; subst; reflexivity. Qed.

Ltac f4_simpl :=
  cbn [F4.add F4.sub F4.mul F4.scale F4.splat F4.zero f4r f4g f4b f4a] in *.

Ltac f4_ring := apply f4_ext; f4_simpl; ring.

Lemma f4_add_comm (u v : float4) : u +^ v = v +^ u.
Proof. f4_ring. Qed.

Lemma f4_add_assoc (u v w : float4) : u +^ (v +^ w) = u +^ v +^ w.
Proof. f4_ring. Qed.

Lemma f4_add_0_l (u : float4) : F4.zero +^ u = u.
Proof. f4_ring. Qed.

Lemma f4_add_0_r (u : float4) : u +^ F4.zero = u.
Proof. f4_ring. Qed.

Lemma Qc_eqb_eq (x y : Qc) : Qc_eqb x y = true <-> x = y.
Proof.
  unfold Qc_eqb. rewrite Qeq_bool_iff. split.
  - apply Qc_is_canon.
  - intros ->. reflexivity.
Qed.

Lemma f4_eqb_eq (u v : float4) : F4.eqb u v = true <-> u = v.
Proof.
  unfold F4.eqb. rewrite !andb_true_iff. fold (Qc_eqb (f4r u) (f4r v)).
  fold (Qc_eqb (f4g u) (f4g v)). fold (Qc_eqb (f4b u) (f4b v)).
  fold (Qc_eqb (f4a u) (f4a v)). rewrite !Qc_eqb_eq. split.
  - intros [[[? ?] ?] ?]. now apply f4_ext.
  - intros ->. auto.
Qed.

(** ** Memory updates *)

Lemma upd_same (m : mem) (p : Z) (v : float4) : upd m p v p = v.
Proof. unfold upd. now rewrite Z.eqb_refl. Qed.

Lemma upd_other (m : mem) (p q : Z) (v : float4) : q <> p -> upd m p v q = m q.
Proof. unfold upd. intros H. apply Z.eqb_neq in H. now rewrite H. Qed.

(** ** Reference sums *)

Lemma sum_nil (f : Z -> float4) (lo hi : Z) : hi <= lo -> sum f lo hi = F4.zero.
Proof.
  intros H. unfold sum. replace (Z.to_nat (hi - lo)) with O by lia. reflexivity.
Qed.

Lemma sum_first (f : Z -> float4) (lo hi : Z) :
  lo < hi -> sum f lo hi = f lo +^ sum f (lo + 1) hi.
Proof.
  intros H. unfold sum.
  replace (Z.to_nat (hi - lo)) with (S (Z.to_nat (hi - (lo + 1)))) by lia.
  reflexivity.
Qed.

Lemma sum_steps_ext (n : nat) (lo : Z) (f g : Z -> float4) :
  (forall i, lo <= i < lo + Z.of_nat n -> f i = g i) ->
  sum_steps n lo f = sum_steps n lo g.
Proof.
  revert lo. induction n as [|n IH]; intros lo H; simpl; [reflexivity|].
  rewrite H by lia. f_equal. apply IH. intros i Hi. apply H. lia.
Qed.

Lemma sum_ext (f g : Z -> float4) (lo hi : Z) :
  (forall i, lo <= i < hi -> f i = g i) -> sum f lo hi = sum g lo hi.
Proof.
  intros H. unfold sum. apply sum_steps_ext. intros i Hi. apply H. lia.
Qed.

Lemma sum_steps_app (n k : nat) (lo : Z) (f : Z -> float4) :
  sum_steps (n + k) lo f = sum_steps n lo f +^ sum_steps k (lo + Z.of_nat n) f.
Proof.
  revert lo. induction n as [|n IH]; intros lo.
  - simpl. rewrite Z.add_0_r, f4_add_0_l. reflexivity.
  - cbn [Nat.add sum_steps]. rewrite IH, f4_add_assoc.
    do 2 f_equal. lia.
Qed.

Lemma sum_split (f : Z -> float4) (lo mid hi : Z) :
  lo <= mid <= hi -> sum f lo hi = sum f lo mid +^ sum f mid hi.
Proof.
  intros H. unfold sum.
  replace (Z.to_nat (hi - lo)) with (Z.to_nat (mid - lo) + Z.to_nat (hi - mid))%nat by lia.
  rewrite sum_steps_app. do 2 f_equal. lia.
Qed.

Lemma sum_one (f : Z -> float4) (lo : Z) : sum f lo (lo + 1) = f lo.
Proof.
  rewrite sum_first by lia. rewrite sum_nil by lia. apply f4_add_0_r.
Qed.

Lemma sum_last (f : Z -> float4) (lo hi : Z) :
  lo < hi -> sum f lo hi = sum f lo (hi - 1) +^ f (hi - 1).
Proof.
  intros H. rewrite (sum_split f lo (hi - 1) hi) by lia.
  f_equal. replace hi with (hi - 1 + 1) at 2 by lia. apply sum_one.
Qed.

Lemma sum_zero (f : Z -> float4) (lo hi : Z) :
  (forall i, lo <= i < hi -> f i = F4.zero) -> sum f lo hi = F4.zero.
Proof.
  intros H. rewrite (sum_ext f (fun _ => F4.zero) lo hi H).
  unfold sum. generalize lo at 2. induction (Z.to_nat (hi - lo)) as [|n IH]; intros l.
  - reflexivity.
  - simpl. rewrite IH. apply f4_add_0_l.
Qed.

Lemma sum_steps_shift (n : nat) (lo c : Z) (f : Z -> float4) :
  sum_steps n lo (fun k => f (k + c)) = sum_steps n (lo + c) f.
Proof.
  revert lo. induction n as [|n IH]; intros lo; [reflexivity|].
  simpl. rewrite IH. do 2 f_equal. lia.
Qed.

Lemma sum_shift (f : Z -> float4) (lo hi c : Z) :
  sum (fun k => f (k + c)) lo hi = sum f (lo + c) (hi + c).
Proof.
  unfold sum. rewrite sum_steps_shift. f_equal. f_equal. lia.
Qed.

(** ** The inner loop of the prefix sum *)

Lemma sweep_miss (iters : nat) (da ofs os : Z) (m : mem) (p : Z) :
  (forall j, 0 <= j < Z.of_nat iters -> p <> da + j * os) ->
  sweep iters da ofs os m p = m p.
Proof.
  revert da m. induction iters as [|n IH]; intros da m H; [reflexivity|].
  cbn [sweep]. rewrite IH.
  - apply upd_other. specialize (H 0). lia.
  - intros j Hj. specialize (H (j + 1)). lia.
Qed.

Lemma sweep_hit (iters : nat) (da ofs os : Z) (m : mem) (j : Z) :
  0 < os -> - os < ofs < 0 -> 0 <= j < Z.of_nat iters ->
  sweep iters da ofs os m (da + j * os) =
  m (da + j * os) +^ m (da + j * os + ofs).
Proof.
  intros Hos Hofs. revert da m j.
  induction iters as [|n IH]; intros da m j Hj; [lia|].
  cbn [sweep]. destruct (Z.eq_dec j 0) as [->|Hj0].
  - rewrite sweep_miss by (intros; nia).
    replace (da + 0 * os) with da by lia. apply upd_same.
  - replace (da + j * os) with (da + os + (j - 1) * os) by lia.
    rewrite IH by lia. rewrite !upd_other by nia. reflexivity.
Qed.

(** ** Powers of two and machine integers *)

Lemma pow2_pos (k : Z) : 0 <= k -> 1 <= 2 ^ k.
Proof. intros H. pose proof (Z.pow_pos_nonneg 2 k). lia. Qed.

Lemma pow2_succ (k : Z) : 1 <= k -> 2 ^ k = 2 * 2 ^ (k - 1).
Proof.
  intros H. replace k with (Z.succ (k - 1)) at 1 by lia.
  apply Z.pow_succ_r. lia.
Qed.

Lemma pow2_factor (j k : Z) :
  0 <= j < k -> exists c, 1 <= c /\ 2 ^ k = 2 * c * 2 ^ j.
Proof.
  intros H. exists (2 ^ (k - j - 1)). split; [apply pow2_pos; lia|].
  replace k with (1 + (k - j - 1) + j) at 1 by lia.
  rewrite !Z.pow_add_r by lia. reflexivity.
Qed.

Lemma pow2_bound (k x : Z) : 0 <= k -> 2 ^ k <= x -> x < 2 ^ 31 -> k <= 30.
Proof.
  intros Hk H1 H2. destruct (Z_le_gt_dec k 30) as [|Hgt]; [assumption|].
  pose proof (Z.pow_le_mono_r 2 31 k). lia.
Qed.

Lemma odd_not_double (q x : Z) : Z.odd q = true -> q <> 2 * x.
Proof. intros H ->. rewrite Z.odd_mul in H. discriminate. Qed.

Lemma size_t_small (z : Z) : 0 <= z < 2 ^ 64 -> size_t z = z.
Proof. apply Z.mod_small. Qed.

Lemma ptrdiff_t_small (z : Z) : 0 <= z < 2 ^ 63 -> ptrdiff_t z = z.
Proof.
  intros H. unfold ptrdiff_t. rewrite Z.mod_small by lia.
  destruct (Z.ltb_spec z (2 ^ 63)); lia.
Qed.

Lemma shiftr_pow2 (k : Z) : 1 <= k -> Z.shiftr (2 ^ k) 1 = 2 ^ (k - 1).
Proof.
  intros H. rewrite Z.shiftr_div_pow2 by lia. rewrite (pow2_succ k H).
  change (2 ^ 1) with 2. rewrite Z.mul_comm. apply Z.div_mul. lia.
Qed.

Lemma shiftl_pow2 (k : Z) : 0 <= k -> Z.shiftl (2 ^ k) 1 = 2 ^ (k + 1).
Proof.
  intros H. rewrite Z.shiftl_mul_pow2 by lia. rewrite Z.pow_add_r by lia.
  reflexivity.
Qed.

(** ** Correctness of the two trees *)

Section BrentKung.

Variables (d items stride : Z) (m0 : mem).
Hypothesis Hstride : 1 <= stride.
Hypothesis Hrange : items * stride <= INT_MAX.

Local Abbreviation orig := (orig m0 d stride).
Local Abbreviation frame := (frame m0 d items stride).
Local Abbreviation reduced := (reduced m0 d items stride).
Local Abbreviation expanded := (expanded m0 d items stride).

Lemma reduced_0 : reduced 0 m0.
Proof.
  split; [intros p _; reflexivity|].
  intros j q Hj Hq _ _. assert (j = 0) as -> by lia. rewrite Z.pow_0_r, !Z.mul_1_r.
  replace (sum orig (q - 1) q) with (sum orig (q - 1) (q - 1 + 1)) by (f_equal; lia).
  rewrite sum_one. reflexivity.
Qed.

Lemma reduction_level (k : Z) (m : mem) :
  1 <= k -> 2 ^ k <= items -> reduced (k - 1) m ->
  reduced k (sweep (Z.to_nat (items / 2 ^ k)) (d + (2 ^ k - 1) * stride)
                   (- (2 ^ (k - 1) * stride)) (stride * 2 ^ k) m).
Proof.
  intros Hk Hle [Hfr Hred].
  pose proof (pow2_succ k Hk) as HP. pose proof (pow2_pos (k - 1) ltac:(lia)) as HP1.
  set (P := 2 ^ (k - 1)) in *.
  assert (Hiters : forall t, 0 <= t < Z.of_nat (Z.to_nat (items / 2 ^ k)) ->
                             (t + 1) * 2 ^ k <= items).
  { intros t Ht. rewrite Z2Nat.id in Ht by (apply Z.div_pos; lia).
    pose proof (Z.mul_div_le items (2 ^ k) ltac:(lia)). nia. }
  split.
  - intros p Hp. rewrite sweep_miss; [apply Hfr, Hp|].
    intros t Ht. specialize (Hiters t Ht).
    replace (d + (2 ^ k - 1) * stride + t * (stride * 2 ^ k))
      with (d + ((t + 1) * 2 ^ k - 1) * stride) by ring.
    apply Hp. nia.
  - intros j q Hj Hq Hqi Hcase.
    destruct (Z.eq_dec j k) as [->|Hjk].
    + assert (Hq' : q <= items / 2 ^ k) by (apply Z.div_le_lower_bound; lia).
      replace (d + (q * 2 ^ k - 1) * stride)
        with (d + (2 ^ k - 1) * stride + (q - 1) * (stride * 2 ^ k)) by ring.
      rewrite sweep_hit by nia.
      replace (d + (2 ^ k - 1) * stride + (q - 1) * (stride * 2 ^ k))
        with (d + ((2 * q) * P - 1) * stride) by (rewrite HP; ring).
      replace (d + ((2 * q) * P - 1) * stride + - (P * stride))
        with (d + ((2 * q - 1) * P - 1) * stride) by ring.
      pose proof (Hred (k - 1) (2 * q)) as H1. fold P in H1.
      rewrite H1 by (auto; lia). clear H1.
      pose proof (Hred (k - 1) (2 * q - 1)) as H1. fold P in H1.
      rewrite H1 by (try lia; left; rewrite Z.odd_sub, Z.odd_mul; reflexivity).
      clear H1. rewrite HP.
      rewrite (sum_split orig ((q - 1) * (2 * P)) ((2 * q - 1) * P) (q * (2 * P))) by nia.
      rewrite f4_add_comm. f_equal; f_equal; ring.
    + destruct Hcase as [Hodd|?]; [|lia].
      rewrite sweep_miss; [apply Hred; auto; lia|].
      intros t Ht Heq.
      destruct (pow2_factor j k ltac:(lia)) as (c & Hc & Hkj).
      pose proof (pow2_pos j ltac:(lia)) as Hj1.
      assert (q * 2 ^ j = (t + 1) * 2 ^ k) as Hq2 by nia.
      rewrite Hkj in Hq2.
      apply (odd_not_double q ((t + 1) * c) Hodd).
      apply (Z.mul_cancel_r _ _ (2 ^ j)); lia.
Qed.

Lemma reduced_expanded (k : Z) (m : mem) :
  0 <= k -> items < 2 ^ (k + 1) -> reduced k m -> expanded k m.
Proof.
  intros Hk Hlt [Hfr Hred]. split; [assumption|]. split.
  - intros q Hq Hqi.
    assert (q = 1) as ->.
    { rewrite Z.pow_add_r in Hlt by lia. change (2 ^ 1) with 2 in Hlt.
      pose proof (pow2_pos k Hk). nia. }
    rewrite (Hred k 1) by (auto; lia). f_equal; ring.
  - intros j q Hj Hq Hodd Hqi. apply Hred; auto; lia.
Qed.

Lemma expansion_level (k : Z) (m : mem) :
  1 <= k -> 2 ^ k <= items -> expanded k m ->
  expanded (k - 1)
    (sweep (Z.to_nat ((items - 2 ^ (k - 1)) / 2 ^ k))
           (d + (2 ^ (k - 1) + 2 ^ k - 1) * stride)
           (- (2 ^ (k - 1) * stride)) (stride * 2 ^ k) m).
Proof.
  intros Hk Hle (Hfr & Hfull & Hblk).
  pose proof (pow2_succ k Hk) as HP. pose proof (pow2_pos (k - 1) ltac:(lia)) as HP1.
  set (P := 2 ^ (k - 1)) in *.
  assert (Hiters : forall t, 0 <= t < Z.of_nat (Z.to_nat ((items - P) / 2 ^ k)) ->
                             (2 * t + 3) * P <= items).
  { intros t Ht. rewrite Z2Nat.id in Ht by (apply Z.div_pos; lia).
    pose proof (Z.mul_div_le (items - P) (2 ^ k) ltac:(lia)). nia. }
  assert (Haddr : forall t, d + (P + 2 ^ k - 1) * stride + t * (stride * 2 ^ k)
                            = d + ((2 * t + 3) * P - 1) * stride).
  { intros t. rewrite HP. ring. }
  split; [|split].
  - intros p Hp. rewrite sweep_miss; [apply Hfr, Hp|].
    intros t Ht. specialize (Hiters t Ht). rewrite Haddr. apply Hp. nia.
  - intros q Hq Hqi. fold P in Hqi |- *.
    destruct (Z.odd q) eqn:Hodd.
    + apply Z.odd_spec in Hodd. destruct Hodd as [h ->].
      destruct (Z.eq_dec h 0) as [->|Hh].
      * rewrite sweep_miss.
        -- pose proof (Hblk (k - 1) 1) as H1. fold P in H1.
           replace ((2 * 0 + 1) * P - 1) with (1 * P - 1) by ring.
           rewrite H1 by (auto; lia). f_equal; ring.
        -- intros t Ht. rewrite Haddr. nia.
      * assert (Hh' : h <= (items - P) / 2 ^ k) by (apply Z.div_le_lower_bound; lia).
        replace (d + ((2 * h + 1) * P - 1) * stride)
          with (d + (P + 2 ^ k - 1) * stride + (h - 1) * (stride * 2 ^ k))
          by (rewrite HP; ring).
        rewrite sweep_hit by nia.
        rewrite Haddr.
        replace (d + ((2 * (h - 1) + 3) * P - 1) * stride + - (P * stride))
          with (d + (h * 2 ^ k - 1) * stride) by (rewrite HP; ring).
        replace (2 * (h - 1) + 3) with (2 * h + 1) by ring.
        pose proof (Hblk (k - 1) (2 * h + 1)) as H1. fold P in H1.
        rewrite H1 by (try lia; rewrite Z.odd_add, Z.odd_mul; reflexivity).
        clear H1.
        rewrite Hfull by lia.
        rewrite (sum_split orig 0 (h * 2 ^ k) ((2 * h + 1) * P)) by nia.
        rewrite f4_add_comm. f_equal; f_equal; rewrite ?HP; ring.
    + rewrite sweep_miss.
      * assert (Heven : Z.even q = true) by (rewrite <- Z.negb_odd, Hodd; reflexivity).
        apply Z.even_spec in Heven. destruct Heven as [h ->].
        replace (2 * h * P) with (h * 2 ^ k) by (rewrite HP; ring).
        apply Hfull; lia.
      * intros t Ht. rewrite Haddr. intros Heq.
        assert (q * P = (2 * t + 3) * P) as Hq2 by nia.
        apply Z.mul_cancel_r in Hq2; [|lia]. subst q.
        rewrite Z.odd_add, Z.odd_mul in Hodd. discriminate.
  - intros j q Hj Hq Hodd Hqi.
    rewrite sweep_miss; [apply Hblk; auto; lia|].
    intros t Ht. rewrite Haddr. intros Heq.
    pose proof (pow2_pos j ltac:(lia)) as Hj1.
    assert (q * 2 ^ j = (2 * t + 3) * P) as Hq2 by nia.
    destruct (pow2_factor j (k - 1) ltac:(lia)) as (c & Hc & Hkj).
    fold P in Hkj. rewrite Hkj in Hq2.
    apply (odd_not_double q ((2 * t + 3) * c) Hodd).
    apply (Z.mul_cancel_r _ _ (2 ^ j)); lia.
Qed.


Lemma items_range : 1 <= items -> items < 2 ^ 31.
Proof. unfold INT_MAX in Hrange. intros H. nia. Qed.

Lemma reduction_tree_spec (fuel : nat) (k : Z) (m : mem) :
  1 <= k -> 2 ^ k <= items -> 30 < Z.of_nat fuel + k -> reduced (k - 1) m ->
  exists K m',
    reduction_tree fuel d items stride (2 ^ k) k m = Some (2 ^ (K + 1), K + 1, m') /\
    k <= K /\ 2 ^ K <= items < 2 ^ (K + 1) /\ reduced K m'.
Proof.
  revert k m. induction fuel as [|fuel IH]; intros k m Hk Hle Hfuel Hred.
  - pose proof (pow2_pos k ltac:(lia)).
    pose proof (pow2_bound k items ltac:(lia) Hle (items_range ltac:(lia))). lia.
  - pose proof (pow2_succ k Hk) as HP. pose proof (pow2_pos (k - 1) ltac:(lia)) as HP1.
    pose proof (items_range ltac:(lia)) as Hit.
    pose proof (pow2_bound k items ltac:(lia) Hle Hit) as Hk30.
    unfold INT_MAX in Hrange. cbn [reduction_tree].
    rewrite (shiftr_pow2 k Hk), (shiftl_pow2 k ltac:(lia)).
    rewrite Z.shiftr_div_pow2, Z.shiftl_mul_pow2 by lia.
    assert (H2k : 2 ^ (k + 1) = 2 * 2 ^ k) by (rewrite Z.pow_add_r by lia; ring).
    rewrite (size_t_small (2 ^ k - 1)) by lia.
    rewrite (size_t_small ((2 ^ k - 1) * stride)) by nia.
    rewrite (size_t_small (2 ^ (k - 1) * stride)) by nia.
    rewrite (ptrdiff_t_small (2 ^ (k - 1) * stride)) by nia.
    rewrite (size_t_small (stride * 2 ^ k)) by nia.
    rewrite (size_t_small (k + 1)) by lia.
    rewrite (size_t_small (2 ^ (k + 1))) by lia.
    pose proof (reduction_level k m Hk Hle Hred) as Hnext.
    destruct (Z.leb_spec (2 ^ (k + 1)) items) as [Hgo|Hstop].
    + replace k with (k + 1 - 1) in Hnext at 1 by lia.
      destruct (IH (k + 1) _ ltac:(lia) Hgo ltac:(lia) Hnext) as (K & m' & HK).
      exists K, m'. intuition lia.
    + exists k. eexists. split; [reflexivity|]. intuition lia.
Qed.

Lemma expansion_tree_spec (fuel : nat) (k : Z) (m : mem) :
  1 <= k -> 2 ^ k <= items -> k <= Z.of_nat fuel -> expanded k m ->
  exists m',
    expansion_tree fuel d items stride (2 ^ (k + 1)) (k + 1) m = Some m' /\
    expanded 0 m'.
Proof.
  revert k m. induction fuel as [|fuel IH]; intros k m Hk Hle Hfuel Hexp; [lia|].
  pose proof (pow2_succ k Hk) as HP. pose proof (pow2_pos (k - 1) ltac:(lia)) as HP1.
  pose proof (items_range ltac:(lia)) as Hit.
  pose proof (pow2_bound k items ltac:(lia) Hle Hit) as Hk30.
  unfold INT_MAX in Hrange. cbn [expansion_tree].
  rewrite (shiftr_pow2 (k + 1)) by lia. replace (k + 1 - 1) with k by lia.
  rewrite (shiftr_pow2 k Hk).
  rewrite (size_t_small k) by lia.
  rewrite (size_t_small (items - 2 ^ (k - 1))) by lia.
  rewrite Z.shiftr_div_pow2, Z.shiftl_mul_pow2 by lia.
  rewrite (size_t_small (2 ^ (k - 1) + 2 ^ k - 1)) by lia.
  rewrite (size_t_small ((2 ^ (k - 1) + 2 ^ k - 1) * stride)) by nia.
  rewrite (size_t_small (2 ^ (k - 1) * stride)) by nia.
  rewrite (ptrdiff_t_small (2 ^ (k - 1) * stride)) by nia.
  rewrite (size_t_small (stride * 2 ^ k)) by nia.
  pose proof (expansion_level k m Hk Hle Hexp) as Hnext.
  destruct (Z.ltb_spec 2 (2 ^ k)) as [Hgo|Hstop].
  - assert (2 <= k) by (destruct (Z.eq_dec k 1) as [->|]; [simpl in Hgo|]; lia).
    pose proof (IH (k - 1) _ ltac:(lia) ltac:(lia) ltac:(lia) Hnext) as Hrec.
    replace (k - 1 + 1) with k in Hrec by lia. exact Hrec.
  - assert (k = 1) as ->.
    { destruct (Z.eq_dec k 1); [assumption|].
      pose proof (pow2_succ (k - 1) ltac:(lia)). pose proof (pow2_pos (k - 1 - 1) ltac:(lia)).
      lia. }
    eexists. split; [reflexivity|]. exact Hnext.
Qed.

End BrentKung.

(** The prefix sum returns, and what it returns. *)
Lemma brent_kung_prefix_sum_spec (m : mem) (d items stride : Z) :
  0 <= items -> 1 <= stride -> items * stride <= INT_MAX ->
  exists m',
    brent_kung_prefix_sum m d items stride = Some m' /\
    (forall i, 0 <= i < items ->
       m' (d + i * stride) = sum (fun k => m (d + k * stride)) 0 (i + 1)) /\
    (forall p, (forall i, 0 <= i < items -> p <> d + i * stride) -> m' p = m p).
Proof.
  intros Hit Hst Hr. unfold brent_kung_prefix_sum.
  destruct (Z.ltb_spec items 2) as [Hsmall|Hbig].
  - exists m. split; [reflexivity|]. split; [|reflexivity].
    intros i Hi. assert (i = 0) as -> by lia. rewrite (sum_one _ 0). reflexivity.
  - pose proof (items_range items stride Hst Hr ltac:(lia)) as Hlt.
    assert (Hfuel : 30 < Z.of_nat tree_fuel + 1) by (unfold tree_fuel; lia).
    destruct (reduction_tree_spec d items stride m Hst Hr tree_fuel 1 m
                ltac:(lia) ltac:(lia) Hfuel (reduced_0 d items stride m))
      as (K & m1 & E1 & HK & Hb & Hred).
    change (2 ^ 1) with 2 in E1. rewrite E1.
    pose proof (pow2_bound K items ltac:(lia) ltac:(lia) Hlt) as HK30.
    assert (Hfuel' : K <= Z.of_nat tree_fuel) by (unfold tree_fuel; lia).
    destruct (expansion_tree_spec d items stride m Hst Hr tree_fuel K m1
                ltac:(lia) ltac:(lia) Hfuel'
                (reduced_expanded d items stride m K m1 ltac:(lia) ltac:(lia) Hred))
      as (m2 & E2 & Hfr & Hfull & _).
    exists m2. split; [exact E2|]. split; [|exact Hfr].
    intros i Hi. specialize (Hfull (i + 1) ltac:(lia)).
    rewrite Z.pow_0_r, !Z.mul_1_r in Hfull.
    replace (i + 1 - 1) with i in Hfull by lia. apply Hfull. lia.
Qed.

(** ** Loops *)

Lemma for_loop_empty {St : Type} (lo hi : Z) (body : Z -> St -> option St) (s : St) :
  hi <= lo -> for_loop lo hi body s = Some s.
Proof.
  intros H. unfold for_loop. replace (Z.to_nat (hi - lo)) with O by lia. reflexivity.
Qed.

Lemma for_loop_step {St : Type} (lo hi : Z) (body : Z -> St -> option St) (s : St) :
  lo < hi ->
  for_loop lo hi body s = (s' <- body lo s ;; for_loop (lo + 1) hi body s').
Proof.
  intros H. unfold for_loop.
  replace (Z.to_nat (hi - lo)) with (S (Z.to_nat (hi - (lo + 1)))) by lia.
  reflexivity.
Qed.

(** Induction over the iterations of a loop, first iteration first *)
Lemma for_loop_ind (hi : Z) (Q : Z -> Prop) :
  (forall lo, hi <= lo -> Q lo) ->
  (forall lo, lo < hi -> Q (lo + 1) -> Q lo) ->
  forall lo, Q lo.
Proof.
  intros Hbase Hstep lo.
  remember (Z.to_nat (hi - lo)) as n eqn:En. revert lo En.
  induction n as [|n IH]; intros lo En.
  - apply Hbase. lia.
  - apply Hstep; [lia|]. apply IH. lia.
Qed.

(** ** Phases that write *)

Lemma writes_iff (P P' : Z -> Prop) (V : Z -> float4 -> Prop) (c : mem -> option mem) :
  (forall p, P p <-> P' p) -> writes P V c -> writes P' V c.
Proof.
  intros HP Hc m. destruct (Hc m) as (m' & E & H1 & H2).
  exists m'. split; [exact E|]. split.
  - intros p Hp. apply H1, HP, Hp.
  - intros p. destruct (H2 p) as [?|[? ?]]; [left|right]; auto. split; auto.
    now apply HP.
Qed.

Lemma writes_ret (V : Z -> float4 -> Prop) : writes (fun _ => False) V Some.
Proof. intros m. exists m. split; [reflexivity|]. split; [tauto|auto]. Qed.

Lemma writes_bind (P1 P2 : Z -> Prop) (V : Z -> float4 -> Prop)
    (c1 c2 : mem -> option mem) :
  writes P1 V c1 -> writes P2 V c2 ->
  writes (fun p => P1 p \/ P2 p) V (fun m => m1 <- c1 m ;; c2 m1).
Proof.
  intros H1 H2 m. destruct (H1 m) as (m1 & E1 & A1 & B1).
  destruct (H2 m1) as (m2 & E2 & A2 & B2).
  exists m2. rewrite E1. split; [exact E2|].
  assert (HV : forall p, P1 p \/ P2 p -> V p (m2 p)).
  { intros p [Hp|Hp]; [|auto].
    destruct (B2 p) as [->|[_ ?]]; auto. }
  split; [exact HV|].
  intros p. destruct (B2 p) as [E|[Hp Hv]]; [|right; auto].
  destruct (B1 p) as [E'|[Hp Hv]]; [left; congruence|right].
  split; [auto|]. rewrite E. exact Hv.
Qed.

Lemma writes_for (P : Z -> Z -> Prop) (V : Z -> float4 -> Prop) (hi : Z)
    (body : Z -> mem -> option mem) (lo : Z) :
  (forall i, lo <= i < hi -> writes (P i) V (body i)) ->
  writes (fun p => exists i, lo <= i < hi /\ P i p) V (for_loop lo hi body).
Proof.
  pattern lo. apply (for_loop_ind hi); clear lo.
  - intros lo Hlo _.
    apply (writes_iff (fun _ => False)); [intros p; split; [tauto|]|].
    + intros (i & Hi & _). lia.
    + intros m. rewrite for_loop_empty by lia. apply writes_ret.
  - intros lo Hlo IH Hbody.
    apply (writes_iff (fun p => P lo p \/ exists i, lo + 1 <= i < hi /\ P i p)).
    + intros p. split.
      * intros [Hp|(i & Hi & Hp)]; [exists lo|exists i]; split; auto; lia.
      * intros (i & Hi & Hp). destruct (Z.eq_dec i lo) as [->|]; [left; auto|].
        right. exists i. split; [lia|auto].
    + intros m. rewrite for_loop_step by lia.
      apply (writes_bind _ _ V (body lo) (for_loop (lo + 1) hi body)).
      * apply Hbody. lia.
      * apply IH. intros i Hi. apply Hbody. lia.
Qed.

Lemma writes_store2 (V : Z -> float4 -> Prop) (p1 p2 : Z) (v1 v2 : float4) :
  p1 <> p2 -> V p1 v1 -> V p2 v2 ->
  writes (fun p => p = p1 \/ p = p2) V (fun m => Some (upd (upd m p1 v1) p2 v2)).
Proof.
  intros Hne H1 H2 m. eexists. split; [reflexivity|].
  assert (HV : forall p, p = p1 \/ p = p2 -> V p (upd (upd m p1 v1) p2 v2 p)).
  { intros p [->| ->].
    - rewrite upd_other, upd_same by exact Hne. exact H1.
    - rewrite upd_same. exact H2. }
  split; [exact HV|].
  intros p. destruct (Z.eq_dec p p2) as [->|N2]; [right; auto|].
  destruct (Z.eq_dec p p1) as [->|N1]; [right; auto|].
  left. now rewrite !upd_other.
Qed.

(** ** Phases that scan *)

Section Scans.

Variables (n s : Z) (U : Z -> Prop).
Hypothesis Hn : 0 <= n.
Hypothesis Hs : 1 <= s.
Hypothesis Hns : n * s <= INT_MAX.
Hypothesis Hsep : separated n s U.

Lemma scans_iff (P P' : Z -> Prop) (c : mem -> option mem) :
  (forall b, U b -> (P b <-> P' b)) -> scans n s U P c -> scans n s U P' c.
Proof.
  intros HP Hc m. destruct (Hc m) as (m' & E & H1 & H2).
  exists m'. split; [exact E|]. split; [|exact H2].
  intros b i Hb Hi. destruct (H1 b i Hb Hi) as [A B]. split.
  - intros Hp. apply A, HP; auto.
  - destruct B; [left|right]; auto. apply HP; auto.
Qed.

Lemma scans_ret : scans n s U (fun _ => False) Some.
Proof.
  intros m. exists m. split; [reflexivity|]. split; [|reflexivity].
  intros b i _ _. split; [tauto|auto].
Qed.

Lemma scans_one (b0 : Z) :
  U b0 -> scans n s U (eq b0) (fun m => brent_kung_prefix_sum m b0 n s).
Proof.
  intros Hb0 m.
  destruct (brent_kung_prefix_sum_spec m b0 n s Hn Hs Hns) as (m' & E & Hsum & Hfr).
  exists m'. split; [exact E|]. split.
  - intros b i Hb Hi. split.
    + intros <-. apply Hsum, Hi.
    + destruct (Z.eq_dec b0 b) as [|Hne]; [right; assumption|left].
      apply Hfr. intros i' Hi' Heq. apply Hne. symmetry.
      apply (Hsep b b0 i i'); auto.
  - intros p Hp. apply Hfr. intros i Hi. apply Hp; auto.
Qed.

Lemma scans_bind (P1 P2 : Z -> Prop) (c1 c2 : mem -> option mem) :
  (forall b, P1 b -> P2 b -> False) ->
  scans n s U P1 c1 -> scans n s U P2 c2 ->
  scans n s U (fun b => P1 b \/ P2 b) (fun m => m1 <- c1 m ;; c2 m1).
Proof.
  intros Hdis H1 H2 m. destruct (H1 m) as (m1 & E1 & A1 & F1).
  destruct (H2 m1) as (m2 & E2 & A2 & F2).
  exists m2. rewrite E1. split; [exact E2|]. split.
  - intros b i Hb Hi. destruct (A2 b i Hb Hi) as [S2 K2].
    destruct (A1 b i Hb Hi) as [S1 K1]. split.
    + intros [Hp|Hp].
      * destruct K2 as [->|Hp2]; [auto|exfalso; eauto].
      * rewrite (S2 Hp). apply sum_ext. intros k Hk. cbv beta.
        destruct (A1 b k Hb ltac:(lia)) as [_ [->|Hp1]]; [reflexivity|exfalso; eauto].
    + destruct K2 as [->|?]; [|right; auto].
      destruct K1 as [->|?]; [left; reflexivity|right; auto].
  - intros p Hp. rewrite (F2 p Hp). apply F1, Hp.
Qed.

Lemma scans_for (P : Z -> Z -> Prop) (hi : Z)
    (body : Z -> mem -> option mem) (lo : Z) :
  (forall i j b, lo <= i < hi -> lo <= j < hi -> P i b -> P j b -> i = j) ->
  (forall i, lo <= i < hi -> scans n s U (P i) (body i)) ->
  scans n s U (fun b => exists i, lo <= i < hi /\ P i b) (for_loop lo hi body).
Proof.
  pattern lo. apply (for_loop_ind hi); clear lo.
  - intros lo Hlo _ _.
    apply (scans_iff (fun _ => False)).
    + intros b _. split; [tauto|]. intros (i & Hi & _). lia.
    + intros m. rewrite for_loop_empty by lia. apply scans_ret.
  - intros lo Hlo IH Hdis Hbody.
    apply (scans_iff (fun b => P lo b \/ exists i, lo + 1 <= i < hi /\ P i b)).
    + intros b _. split.
      * intros [Hp|(i & Hi & Hp)]; [exists lo|exists i]; split; auto; lia.
      * intros (i & Hi & Hp). destruct (Z.eq_dec i lo) as [->|]; [left; auto|].
        right. exists i. split; [lia|auto].
    + intros m. rewrite for_loop_step by lia.
      apply (scans_bind _ _ (body lo) (for_loop (lo + 1) hi body)).
      * intros b Hp (i & Hi & Hp').
        specialize (Hdis lo i b ltac:(lia) ltac:(lia) Hp Hp'). lia.
      * apply Hbody. lia.
      * apply IH.
        -- intros i j b Hi Hj. apply Hdis; lia.
        -- intros i Hi. apply Hbody. lia.
Qed.

End Scans.

(** ** Geometry of the work buffers *)

Lemma radix_inj (B q r q' r' : Z) :
  0 <= r < B -> 0 <= r' < B -> q * B + r = q' * B + r' -> q = q' /\ r = r'.
Proof. intros Hr Hr' H. assert (q = q') by nia. subst. lia. Qed.

Lemma idx_inj (X Y z y x z' y' x' : Z) :
  0 <= x < X -> 0 <= x' < X -> 0 <= y < Y -> 0 <= y' < Y ->
  z * (X * Y) + y * X + x = z' * (X * Y) + y' * X + x' ->
  z = z' /\ y = y' /\ x = x'.
Proof.
  intros Hx Hx' Hy Hy' H.
  destruct (radix_inj X (z * Y + y) x (z' * Y + y') x' Hx Hx') as [H1 H2]; [lia|].
  destruct (radix_inj Y z y z' y' Hy Hy' H1) as [H3 H4]. auto.
Qed.

Lemma idx_range (X Y D z y x : Z) :
  0 <= x < X -> 0 <= y < Y -> 0 <= z < D ->
  0 <= z * (X * Y) + y * X + x < X * Y * D.
Proof.
  intros Hx Hy Hz.
  assert (0 <= y * X + x < X * Y) by nia.
  assert (0 <= z * (X * Y) <= (D - 1) * (X * Y)) by nia.
  lia.
Qed.

Lemma clamp_range (v mn mx : Z) : mn <= mx -> mn <= clamp v mn mx <= mx.
Proof.
  intros H. unfold clamp.
  destruct (Z.gtb_spec v mx); [lia|]. destruct (Z.gtb_spec v mn); lia.
Qed.

Lemma clamp_id (v mn mx : Z) : mn <= v <= mx -> clamp v mn mx = v.
Proof.
  intros H. unfold clamp.
  destruct (Z.gtb_spec v mx); [lia|]. destruct (Z.gtb_spec v mn); lia.
Qed.

Lemma MAX_spec (x y : Z) : MAX x y = Z.max x y.
Proof. unfold MAX. destruct (Z.gtb_spec x y); lia. Qed.

Lemma MIN_spec (x y : Z) : MIN x y = Z.min x y.
Proof. unfold MIN. destruct (Z.ltb_spec x y); lia. Qed.

Section Geometry.

Variable powf : Qc -> Qc -> Qc.
Variable sf16_to_float : Z -> Qc.
Variable a : pixel_region_variance_args.
Hypothesis Hok : region_ok a.

Lemma radius_bounds :
  0 <= alpha_kernel_radius a <= kernel_radius a /\
  0 <= avg_var_kernel_radius a <= kernel_radius a.
Proof.
  destruct Hok as (H1 & H2 & _). unfold kernel_radius. rewrite MAX_spec. lia.
Qed.

Lemma padsize_bounds :
  size_x a + 1 <= padsize_x a /\ size_y a + 1 <= padsize_y a /\
  size_z a + zd_start a <= padsize_z a /\
  1 <= size_x a /\ 1 <= size_y a /\ 1 <= size_z a /\ 0 <= zd_start a <= 1.
Proof.
  pose proof radius_bounds as [H1 H2]. destruct Hok as (_ & _ & Hx & Hy & Hz & _).
  unfold padsize_x, padsize_y, padsize_z, zd_start, kerneldim.
  destruct (have_z a); lia.
Qed.

Lemma sizeprod_eq : sizeprod a = padsize_x a * padsize_y a * padsize_z a.
Proof. reflexivity. Qed.

Lemma cell_range (pl : bool) (z y x : Z) :
  in_box a z y x ->
  (if pl then sizeprod a else 0) <= cell a pl z y x
  < (if pl then sizeprod a else 0) + sizeprod a.
Proof.
  intros (Hz & Hy & Hx). unfold cell, zst, yst, sizeprod.
  pose proof (idx_range (padsize_x a) (padsize_y a) (padsize_z a) z y x Hx Hy Hz).
  lia.
Qed.

Lemma cell_inj (pl pl' : bool) (z y x z' y' x' : Z) :
  in_box a z y x -> in_box a z' y' x' ->
  cell a pl z y x = cell a pl' z' y' x' ->
  pl = pl' /\ z = z' /\ y = y' /\ x = x'.
Proof.
  intros B B' H. pose proof (cell_range pl z y x B) as R.
  pose proof (cell_range pl' z' y' x' B') as R'.
  destruct B as (Hz & Hy & Hx), B' as (Hz' & Hy' & Hx').
  assert (pl = pl') as <-.
  { destruct pl, pl'; try reflexivity; lia. }
  split; [reflexivity|].
  apply (idx_inj (padsize_x a) (padsize_y a)); auto.
  unfold cell, zst, yst in H. lia.
Qed.

Lemma VARBUF1_cell (z y x : Z) : VARBUF1 a z y x = cell a false z y x.
Proof. reflexivity. Qed.

Lemma VARBUF2_cell (z y x : Z) : VARBUF2 a z y x = cell a true z y x.
Proof. reflexivity. Qed.

(** *** Loading *)

Lemma load_texel_some (x y z : Z) :
  load_texel powf sf16_to_float a x y (clamp z 0 (dim_z (img a) - 1))
  = Some (texel powf sf16_to_float a x y (clamp z 0 (dim_z (img a) - 1))).
Proof.
  unfold texel, load_texel, load_raw.
  destruct (data_type (img a)) eqn:Et.
  { unfold load_u8. destruct (needs_swz (swz a)); reflexivity. }
  { reflexivity. }
  destruct Hok as (_ & _ & _ & _ & _ & _ & H32). rewrite (H32 Et).
  unfold load_f32. replace (clamp z 0 (1 - 1) =? 0) with true; [reflexivity|].
  symmetry. apply Z.eqb_eq. pose proof (clamp_range z 0 (1 - 1)). lia.
Qed.

Lemma cell0_interior (pl : bool) (z y x : Z) :
  zd_start a <= z -> 1 <= y -> 1 <= x ->
  cell0 powf sf16_to_float a pl z y x =
  let d := sample powf sf16_to_float a (z - zd_start a - kernel_radius_z a)
             (y - 1 - kernel_radius_xy a) (x - 1 - kernel_radius_xy a) in
  if pl then d *^ d else d.
Proof.
  intros Hz Hy Hx. unfold cell0.
  destruct (Z.ltb_spec x 1); [lia|]. destruct (Z.ltb_spec y 1); [lia|].
  destruct (Z.ltb_spec z (zd_start a)); [lia|]. reflexivity.
Qed.

Lemma cell0_border (pl : bool) (z y x : Z) :
  x < 1 \/ y < 1 \/ z < zd_start a ->
  cell0 powf sf16_to_float a pl z y x = F4.zero.
Proof.
  intros H. unfold cell0.
  destruct (Z.ltb_spec x 1); [reflexivity|]. destruct (Z.ltb_spec y 1); [reflexivity|].
  destruct (Z.ltb_spec z (zd_start a)); [reflexivity|]. lia.
Qed.

Lemma load_buffers_writes :
  writes (interior_cells a) (loaded powf sf16_to_float a)
         (load_buffers powf sf16_to_float a).
Proof.
  pose proof padsize_bounds as Hp.
  unfold load_buffers, interior_cells.
  apply writes_for; intros z Hz. apply writes_for; intros y Hy.
  apply writes_for; intros x Hx.
  rewrite load_texel_some. rewrite VARBUF1_cell, VARBUF2_cell.
  assert (B : in_box a z y x) by (unfold in_box; lia).
  apply writes_store2.
  - intros E. apply cell_inj in E; auto. destruct E; discriminate.
  - intros pl z' y' x' B' E. apply cell_inj in E; auto.
    destruct E as (<- & <- & <- & <-).
    rewrite cell0_interior by lia. cbv zeta. unfold sample, src.
    f_equal; f_equal; lia.
  - intros pl z' y' x' B' E. apply cell_inj in E; auto.
    destruct E as (<- & <- & <- & <-).
    rewrite cell0_interior by lia. cbv zeta. unfold sample, src.
    f_equal; f_equal; f_equal; lia.
Qed.

End Geometry.

(** ** One pass of prefix sums over a table *)

(** A pass scans every line [(u, v)] of both buffers, [u] and [v] from their
    first interior index, along the third coordinate [i].  [at_] gives the
    address of a cell from these coordinates. *)
Section Pass.

Variable at_ : bool -> Z -> Z -> Z -> Z.
Variable T : bool -> Z -> Z -> Z -> float4.
Variables ulo uhi vlo vhi N s : Z.

Hypothesis Hulo : 0 <= ulo.
Hypothesis Hvlo : 0 <= vlo.
Hypothesis HN : 1 <= N.
Hypothesis Hs : 1 <= s.
Hypothesis Hrange : (N - 1) * s <= INT_MAX.
Hypothesis at_lin : forall pl u v i, at_ pl u v i = at_ pl u v 0 + i * s.
Hypothesis at_inj : forall pl u v i pl' u' v' i',
  0 <= u < uhi -> 0 <= v < vhi -> 0 <= i < N ->
  0 <= u' < uhi -> 0 <= v' < vhi -> 0 <= i' < N ->
  at_ pl u v i = at_ pl' u' v' i' -> pl = pl' /\ u = u' /\ v = v' /\ i = i'.
Hypothesis T_border : forall pl u v i,
  u < ulo \/ v < vlo \/ i < 1 -> T pl u v i = F4.zero.

Lemma pass_separated :
  separated (N - 1) s
    (fun b => exists pl u v, ulo <= u < uhi /\ vlo <= v < vhi /\ b = at_ pl u v 1).
Proof.
  intros b b' i i' (pl & u & v & Hu & Hv & ->) (pl' & u' & v' & Hu' & Hv' & ->) Hi Hi' E.
  rewrite (at_lin pl u v 1), (at_lin pl' u' v' 1) in E.
  assert (E' : at_ pl u v (1 + i) = at_ pl' u' v' (1 + i')).
  { rewrite (at_lin pl u v (1 + i)), (at_lin pl' u' v' (1 + i')). lia. }
  apply at_inj in E'; try lia. destruct E' as (-> & -> & -> & _). reflexivity.
Qed.

Lemma pass_table (m : mem) :
  (forall pl u v i, 0 <= u < uhi -> 0 <= v < vhi -> 0 <= i < N ->
     m (at_ pl u v i) = T pl u v i) ->
  exists m',
    for_loop ulo uhi (fun u m =>
      for_loop vlo vhi (fun v m =>
        m <- brent_kung_prefix_sum m (at_ false u v 1) (size_t (N - 1)) s ;;
        brent_kung_prefix_sum m (at_ true u v 1) (size_t (N - 1)) s) m) m = Some m' /\
    forall pl u v i, 0 <= u < uhi -> 0 <= v < vhi -> 0 <= i < N ->
      m' (at_ pl u v i) = sum (T pl u v) 0 (i + 1).
Proof.
  intros Hm.
  set (U := fun b => exists pl u v, ulo <= u < uhi /\ vlo <= v < vhi /\ b = at_ pl u v 1).
  assert (Hsz : size_t (N - 1) = N - 1).
  { apply size_t_small. unfold INT_MAX in Hrange. nia. }
  rewrite Hsz.
  assert (Hscan : scans (N - 1) s U
            (fun b => exists u, ulo <= u < uhi /\ exists v, vlo <= v < vhi /\
                        (at_ false u v 1 = b \/ at_ true u v 1 = b))
            (for_loop ulo uhi (fun u m =>
               for_loop vlo vhi (fun v m =>
                 m <- brent_kung_prefix_sum m (at_ false u v 1) (N - 1) s ;;
                 brent_kung_prefix_sum m (at_ true u v 1) (N - 1) s) m))).
  { pose proof pass_separated as Hsep. fold U in Hsep.
    apply (scans_for (N - 1) s U); try assumption; try lia.
    - intros u u' b Hu Hu' (v & Hv & Hb) (v' & Hv' & Hb').
      assert (exists pl pl', at_ pl u v 1 = at_ pl' u' v' 1) as (pl & pl' & E).
      { destruct Hb as [<-|<-], Hb' as [Hb'|Hb']; eauto. }
      destruct (Z.eq_dec N 1) as [HN1|HN1].
      { rewrite (at_lin pl u v 1), (at_lin pl' u' v' 1) in E.
        assert (E' : at_ pl u v 0 = at_ pl' u' v' 0) by lia.
        apply at_inj in E'; lia. }
      apply at_inj in E; lia.
    - intros u Hu.
      apply (scans_for (N - 1) s U); try assumption; try lia.
      + intros v v' b Hv Hv' Hb Hb'.
        assert (exists pl pl', at_ pl u v 1 = at_ pl' u v' 1) as (pl & pl' & E).
        { destruct Hb as [<-|<-], Hb' as [Hb'|Hb']; eauto. }
        destruct (Z.eq_dec N 1) as [HN1|HN1].
        { rewrite (at_lin pl u v 1), (at_lin pl' u v' 1) in E.
          assert (E' : at_ pl u v 0 = at_ pl' u v' 0) by lia.
          apply at_inj in E'; lia. }
        apply at_inj in E; lia.
      + intros v Hv.
        apply (scans_bind (N - 1) s U (eq (at_ false u v 1)) (eq (at_ true u v 1))
                 (fun m => brent_kung_prefix_sum m (at_ false u v 1) (N - 1) s)
                 (fun m => brent_kung_prefix_sum m (at_ true u v 1) (N - 1) s)).
        * intros b <- E.
          destruct (Z.eq_dec N 1) as [HN1|HN1].
          { rewrite (at_lin true u v 1), (at_lin false u v 1) in E.
            assert (E' : at_ true u v 0 = at_ false u v 0) by lia.
            apply at_inj in E'; lia. }
          apply at_inj in E; lia.
        * apply scans_one; try assumption; try lia.
          exists false, u, v. auto.
        * apply scans_one; try assumption; try lia.
          exists true, u, v. auto. }
  destruct (Hscan m) as (m' & E & Hlines & Hframe).
  exists m'. split; [exact E|].
  intros pl u v i Hu Hv Hi.
  destruct (Z_lt_dec u ulo) as [Bu|Bu]; [|destruct (Z_lt_dec v vlo) as [Bv|Bv];
    [|destruct (Z_lt_dec i 1) as [Bi|Bi]]].
  4: { (* on a scanned line *)
    assert (HU : U (at_ pl u v 1)) by (exists pl, u, v; repeat split; lia).
    destruct (Hlines (at_ pl u v 1) (i - 1) HU ltac:(lia)) as [Hsum _].
    replace (at_ pl u v 1 + (i - 1) * s) with (at_ pl u v i) in Hsum
      by (rewrite (at_lin pl u v i), (at_lin pl u v 1); ring).
    rewrite Hsum.
    2: { exists u. split; [lia|]. exists v. split; [lia|]. destruct pl; auto. }
    replace (i - 1 + 1) with i by lia.
    rewrite (sum_first (T pl u v) 0 (i + 1)) by lia.
    rewrite (T_border pl u v 0) by lia. rewrite f4_add_0_l.
    rewrite <- (sum_shift (T pl u v) 0 i 1). apply sum_ext.
    intros k Hk. cbv beta.
    replace (at_ pl u v 1 + k * s) with (at_ pl u v (k + 1))
      by (rewrite (at_lin pl u v (k + 1)), (at_lin pl u v 1); ring).
    apply Hm; lia. }
  all: rewrite Hframe.
  all: try (intros b j (pl' & u' & v' & Hu' & Hv' & ->) Hj E';
            replace (at_ pl' u' v' 1 + j * s) with (at_ pl' u' v' (1 + j)) in E'
              by (rewrite (at_lin pl' u' v' (1 + j)), (at_lin pl' u' v' 1); ring);
            apply at_inj in E'; lia).
  all: rewrite Hm by lia.
  - rewrite sum_zero; [apply T_border; auto|]. intros; apply T_border; auto.
  - rewrite sum_zero; [apply T_border; auto|]. intros; apply T_border; auto.
  - assert (i = 0) as -> by lia. rewrite (sum_one _ 0). reflexivity.
Qed.

End Pass.

Section Phases.

Variable powf : Qc -> Qc -> Qc.
Variable sf16_to_float : Z -> Qc.
Variable a : pixel_region_variance_args.
Hypothesis Hok : region_ok a.

Local Abbreviation c0 := (cell0 powf sf16_to_float a).
Local Abbreviation ld := (loaded powf sf16_to_float a).

(** *** Padding *)

Lemma loaded_zero (pl : bool) (z y x : Z) :
  in_box a z y x -> x < 1 \/ y < 1 \/ z < zd_start a ->
  ld (cell a pl z y x) F4.zero.
Proof.
  intros B Hb pl' z' y' x' B' E. apply (cell_inj a) in E; auto.
  destruct E as (<- & <- & <- & <-). symmetry. now apply cell0_border.
Qed.

Lemma pad_store (z y x : Z) :
  in_box a z y x -> x < 1 \/ y < 1 \/ z < zd_start a ->
  writes (fun p => p = cell a false z y x \/ p = cell a true z y x) ld
    (fun m => Some (upd (upd m (VARBUF1 a z y x) (F4.splat 0%Qc))
                        (VARBUF2 a z y x) (F4.splat 0%Qc))).
Proof.
  intros B Hb. rewrite VARBUF1_cell, VARBUF2_cell. apply writes_store2.
  - intros E. apply (cell_inj a) in E; auto. destruct E; discriminate.
  - now apply loaded_zero.
  - now apply loaded_zero.
Qed.

Lemma pad_zero_writes : writes (border_cells a) ld (pad_zero a).
Proof.
  pose proof (padsize_bounds a Hok) as Hp.
  unfold pad_zero, border_cells. cbv zeta.
  apply writes_bind.
  - apply writes_for; intros z Hz. apply writes_bind.
    + apply writes_for; intros y Hy. apply pad_store; unfold in_box; lia.
    + apply writes_for; intros x Hx. apply pad_store; unfold in_box; lia.
  - destruct (have_z a) eqn:Ez.
    + apply (writes_iff (fun p => exists y, 0 <= y < padsize_y a /\
               exists x, 0 <= x < padsize_x a /\
                 (p = cell a false 0 y x \/ p = cell a true 0 y x))).
      { intros p. split; [auto|]. intros [_ H]. exact H. }
      apply writes_for; intros y Hy. apply writes_for; intros x Hx.
      apply pad_store; unfold in_box, zd_start; rewrite ?Ez; lia.
    + apply (writes_iff (fun _ => False)).
      { intros p. split; [tauto|]. intros [H _]. discriminate. }
      apply writes_ret.
Qed.

(** After loading and padding, the buffers hold the table [cell0]. *)
Lemma load_pad_table (m : mem) :
  exists m2,
    (m1 <- load_buffers powf sf16_to_float a m ;; pad_zero a m1) = Some m2 /\
    forall pl z y x, in_box a z y x -> m2 (cell a pl z y x) = c0 pl z y x.
Proof.
  pose proof (padsize_bounds a Hok) as Hp.
  destruct (writes_bind _ _ _ _ _ (load_buffers_writes powf sf16_to_float a Hok)
              pad_zero_writes m) as (m2 & E & HV & _).
  exists m2. split; [exact E|].
  intros pl z y x B. apply (HV (cell a pl z y x)); auto.
  destruct B as (Hz & Hy & Hx).
  destruct (Z.eq_dec x 0) as [->|Nx].
  { right. left. exists z. split; [lia|]. left. exists y. split; [lia|].
    destruct pl; auto. }
  destruct (Z.eq_dec y 0) as [->|Ny].
  { right. left. exists z. split; [lia|]. right. exists x. split; [lia|].
    destruct pl; auto. }
  destruct (Z_lt_dec z (zd_start a)) as [Lz|Lz].
  { right. right. unfold zd_start in Lz. destruct (have_z a); [|lia].
    split; [reflexivity|]. assert (z = 0) as -> by lia.
    exists y. split; [lia|]. exists x. split; [lia|]. destruct pl; auto. }
  left. exists z. split; [lia|]. exists y. split; [lia|]. exists x. split; [lia|].
  destruct pl; auto.
Qed.

(** *** The summed-area tables *)

Lemma sat_x_border (pl : bool) (z y x : Z) :
  x < 1 \/ y < 1 \/ z < zd_start a -> sat_x powf sf16_to_float a pl z y x = F4.zero.
Proof.
  intros H. unfold sat_x. apply sum_zero. intros k Hk.
  apply cell0_border. lia.
Qed.

Lemma sat_xy_border (pl : bool) (z y x : Z) :
  x < 1 \/ y < 1 \/ z < zd_start a -> sat_xy powf sf16_to_float a pl z y x = F4.zero.
Proof.
  intros H. unfold sat_xy. apply sum_zero. intros k Hk.
  apply sat_x_border. lia.
Qed.

Lemma buffer_bounds :
  (padsize_x a - 1) * 1 <= INT_MAX /\
  (padsize_y a - 1) * yst a <= INT_MAX /\
  (padsize_z a - 1) * zst a <= INT_MAX.
Proof.
  pose proof (padsize_bounds a Hok) as Hp.
  destruct Hok as (_ & _ & _ & _ & _ & Hs & _).
  unfold sizeprod in Hs. unfold yst, zst.
  assert (1 <= padsize_x a) by lia. assert (1 <= padsize_y a) by lia.
  assert (1 <= padsize_z a) by lia.
  assert (1 <= padsize_x a * padsize_y a) by nia.
  assert (padsize_x a * padsize_y a <= padsize_x a * padsize_y a * padsize_z a) by nia.
  assert (padsize_x a <= padsize_x a * padsize_y a) by nia.
  repeat split; nia.
Qed.

Lemma prefix_sums_x_table (m : mem) :
  (forall pl z y x, in_box a z y x -> m (cell a pl z y x) = c0 pl z y x) ->
  exists m',
    prefix_sums_x a m = Some m' /\
    forall pl z y x, in_box a z y x ->
      m' (cell a pl z y x) = sat_x powf sf16_to_float a pl z y x.
Proof.
  intros Hm. pose proof (padsize_bounds a Hok) as Hp.
  pose proof buffer_bounds as (Bx & _ & _).
  destruct (pass_table (fun pl u v i => cell a pl u v i) (fun pl u v i => c0 pl u v i)
              (zd_start a) (padsize_z a) 1 (padsize_y a) (padsize_x a) 1)
    with (m := m) as (m' & E & H); try lia.
  - intros. unfold cell. ring.
  - intros pl u v i pl' u' v' i' Hu Hv Hi Hu' Hv' Hi'.
    apply (cell_inj a); unfold in_box; lia.
  - intros pl u v i Hb. apply cell0_border. lia.
  - intros pl u v i Hu Hv Hi. apply Hm. unfold in_box. lia.
  - exists m'. split; [exact E|]. intros pl z y x (Hz & Hy & Hx). now apply H.
Qed.

Lemma prefix_sums_y_table (m : mem) :
  (forall pl z y x, in_box a z y x ->
     m (cell a pl z y x) = sat_x powf sf16_to_float a pl z y x) ->
  exists m',
    prefix_sums_y a m = Some m' /\
    forall pl z y x, in_box a z y x ->
      m' (cell a pl z y x) = sat_xy powf sf16_to_float a pl z y x.
Proof.
  intros Hm. pose proof (padsize_bounds a Hok) as Hp.
  pose proof buffer_bounds as (_ & By & _).
  destruct (pass_table (fun pl u v i => cell a pl u i v)
              (fun pl u v i => sat_x powf sf16_to_float a pl u i v)
              (zd_start a) (padsize_z a) 1 (padsize_x a) (padsize_y a) (yst a))
    with (m := m) as (m' & E & H); try lia.
  - unfold yst. lia.
  - intros. unfold cell. ring.
  - intros pl u v i pl' u' v' i' Hu Hv Hi Hu' Hv' Hi' E.
    apply (cell_inj a) in E; [tauto|unfold in_box; lia..].
  - intros pl u v i Hb. apply sat_x_border. lia.
  - intros pl u v i Hu Hv Hi. apply Hm. unfold in_box. lia.
  - exists m'. split; [exact E|]. intros pl z y x (Hz & Hy & Hx). now apply H.
Qed.

Lemma prefix_sums_z_table (m : mem) :
  have_z a = true ->
  (forall pl z y x, in_box a z y x ->
     m (cell a pl z y x) = sat_xy powf sf16_to_float a pl z y x) ->
  exists m',
    prefix_sums_z a m = Some m' /\
    forall pl z y x, in_box a z y x ->
      m' (cell a pl z y x) = sat_xyz powf sf16_to_float a pl z y x.
Proof.
  intros Ez Hm. pose proof (padsize_bounds a Hok) as Hp.
  pose proof buffer_bounds as (_ & _ & Bz).
  assert (Hzd : zd_start a = 1) by (unfold zd_start; now rewrite Ez).
  destruct (pass_table (fun pl u v i => cell a pl i u v)
              (fun pl u v i => sat_xy powf sf16_to_float a pl i u v)
              1 (padsize_y a) 1 (padsize_x a) (padsize_z a) (zst a))
    with (m := m) as (m' & E & H); try lia.
  - unfold zst. nia.
  - intros. unfold cell. ring.
  - intros pl u v i pl' u' v' i' Hu Hv Hi Hu' Hv' Hi' E.
    apply (cell_inj a) in E; [tauto|unfold in_box; lia..].
  - intros pl u v i Hb. apply sat_xy_border. lia.
  - intros pl u v i Hu Hv Hi. apply Hm. unfold in_box. lia.
  - exists m'. split; [exact E|]. intros pl z y x (Hz & Hy & Hx). now apply H.
Qed.

Lemma sat_2d (pl : bool) (z y x : Z) :
  have_z a = false ->
  sat powf sf16_to_float a pl z y x = sat_xy powf sf16_to_float a pl z y x.
Proof. intros Ez. unfold sat. rewrite Ez. reflexivity. Qed.

Lemma sat_3d (pl : bool) (z y x : Z) :
  have_z a = true ->
  sat powf sf16_to_float a pl z y x = sat_xyz powf sf16_to_float a pl z y x.
Proof. intros Ez. unfold sat. rewrite Ez. reflexivity. Qed.

(** Loading, padding and the prefix sums return and leave the summed-area
    tables in the buffers. *)
Lemma tables_ready (m : mem) :
  exists m3,
    (m1 <- load_buffers powf sf16_to_float a m ;;
     m2 <- pad_zero a m1 ;;
     summed_area_tables a m2) = Some m3 /\
    forall pl z y x, in_box a z y x ->
      m3 (cell a pl z y x) = sat powf sf16_to_float a pl z y x.
Proof.
  destruct (load_pad_table m) as (m2 & E2 & H2).
  destruct (load_buffers powf sf16_to_float a m) as [m1|]; [|discriminate].
  rewrite E2. unfold summed_area_tables.
  destruct (prefix_sums_x_table m2 H2) as (mx & Ex & Hx). rewrite Ex.
  destruct (prefix_sums_y_table mx Hx) as (my & Ey & Hy). rewrite Ey.
  destruct (have_z a) eqn:Ez.
  - destruct (prefix_sums_z_table my Ez Hy) as (mz & Ezz & Hz).
    exists mz. split; [exact Ezz|]. intros. rewrite sat_3d by exact Ez. now apply Hz.
  - exists my. split; [reflexivity|]. intros. rewrite sat_2d by exact Ez. now apply Hy.
Qed.

End Phases.

(** ** Sums over boxes *)

Lemma sum_add (g h : Z -> float4) (lo hi : Z) :
  sum (fun i => g i +^ h i) lo hi = sum g lo hi +^ sum h lo hi.
Proof.
  unfold sum. generalize (Z.to_nat (hi - lo)) as n. intros n. revert lo.
  induction n as [|n IH]; intros lo; simpl; [f4_ring|].
  rewrite IH. f4_ring.
Qed.

Lemma sum_corners (p q r t : Z -> float4) (lo hi : Z) :
  sum (fun i => p i -^ q i -^ r i +^ t i) lo hi
  = sum p lo hi -^ sum q lo hi -^ sum r lo hi +^ sum t lo hi.
Proof.
  unfold sum. generalize (Z.to_nat (hi - lo)) as n. intros n. revert lo.
  induction n as [|n IH]; intros lo; simpl; [f4_ring|].
  rewrite IH. f4_ring.
Qed.

Lemma sum_diff (f : Z -> float4) (lo mid hi : Z) :
  lo <= mid <= hi -> sum f lo hi -^ sum f lo mid = sum f mid hi.
Proof. intros H. rewrite (sum_split f lo mid hi H). f4_ring. Qed.

(** Four corners of a two-dimensional summed-area table give the sum over
    the window between them. *)
Lemma corners_sum2 (f : Z -> Z -> float4) (yl yh xl xh : Z) :
  -1 <= yl <= yh -> -1 <= xl <= xh ->
  sum2 f 0 (yl + 1) 0 (xl + 1) -^ sum2 f 0 (yl + 1) 0 (xh + 1)
  -^ sum2 f 0 (yh + 1) 0 (xl + 1) +^ sum2 f 0 (yh + 1) 0 (xh + 1)
  = sum2 f (yl + 1) (yh + 1) (xl + 1) (xh + 1).
Proof.
  intros Hy Hx. unfold sum2.
  rewrite (sum_split _ 0 (yl + 1) (yh + 1)) by lia.
  rewrite (sum_split (fun y => sum (fun x => f y x) 0 (xh + 1)) 0 (yl + 1) (yh + 1)) by lia.
  rewrite (sum_ext (fun y => sum (fun x => f y x) 0 (xh + 1))
                   (fun y => sum (fun x => f y x) 0 (xl + 1)
                             +^ sum (fun x => f y x) (xl + 1) (xh + 1))
                   (yl + 1) (yh + 1)).
  2: { intros y _. apply sum_split. lia. }
  rewrite sum_add. f4_ring.
Qed.

Lemma sum2_ext (f g : Z -> Z -> float4) (yl yh xl xh : Z) :
  (forall y x, yl <= y < yh -> xl <= x < xh -> f y x = g y x) ->
  sum2 f yl yh xl xh = sum2 g yl yh xl xh.
Proof.
  intros H. unfold sum2. apply sum_ext. intros y Hy. apply sum_ext. intros x Hx.
  now apply H.
Qed.

Lemma sum2_shift (f : Z -> Z -> float4) (yl yh xl xh cy cx : Z) :
  sum2 (fun y x => f (y + cy) (x + cx)) yl yh xl xh
  = sum2 f (yl + cy) (yh + cy) (xl + cx) (xh + cx).
Proof.
  unfold sum2. rewrite <- (sum_shift _ yl yh cy). apply sum_ext. intros y _.
  apply (sum_shift (f (y + cy))).
Qed.

Lemma sum3_ext (f g : Z -> Z -> Z -> float4) (zl zh yl yh xl xh : Z) :
  (forall z y x, zl <= z < zh -> yl <= y < yh -> xl <= x < xh -> f z y x = g z y x) ->
  sum3 f zl zh yl yh xl xh = sum3 g zl zh yl yh xl xh.
Proof.
  intros H. unfold sum3. apply sum_ext. intros z Hz. apply sum2_ext. intros y x Hy Hx.
  now apply H.
Qed.

Lemma sum3_shift (f : Z -> Z -> Z -> float4) (zl zh yl yh xl xh cz cy cx : Z) :
  sum3 (fun z y x => f (z + cz) (y + cy) (x + cx)) zl zh yl yh xl xh
  = sum3 f (zl + cz) (zh + cz) (yl + cy) (yh + cy) (xl + cx) (xh + cx).
Proof.
  unfold sum3. rewrite <- (sum_shift _ zl zh cz). apply sum_ext. intros z _.
  apply (sum2_shift (f (z + cz))).
Qed.

Section Windows.

Variable powf : Qc -> Qc -> Qc.
Variable sf16_to_float : Z -> Qc.
Variable a : pixel_region_variance_args.
Hypothesis Hok : region_ok a.

Local Abbreviation c0 := (cell0 powf sf16_to_float a).
Local Abbreviation smp := (sample powf sf16_to_float a).

Lemma window_eq (kr i dim : Z) :
  window a kr i dim = (i + kr - alpha_kernel_radius a,
                       i + kr + alpha_kernel_radius a + 1).
Proof. reflexivity. Qed.

Lemma corners_a_eq (m : mem) (z yl yh xl xh : Z) :
  corners_a a m z yl yh xl xh = f4a (corners (VARBUF1 a) m z yl yh xl xh).
Proof. reflexivity. Qed.

Section Lookups.

Variable m : mem.
Hypothesis Hm : forall pl z y x, in_box a z y x ->
  m (cell a pl z y x) = sat powf sf16_to_float a pl z y x.

Lemma corners_2d (pl : bool) (z yl yh xl xh : Z) :
  have_z a = false ->
  0 <= z < padsize_z a -> 0 <= yl <= yh -> yh < padsize_y a ->
  0 <= xl <= xh -> xh < padsize_x a ->
  corners (cell a pl) m z yl yh xl xh
  = sum2 (c0 pl z) (yl + 1) (yh + 1) (xl + 1) (xh + 1).
Proof.
  intros Ez Hz Hy Hy' Hx Hx'. unfold corners.
  rewrite !Hm by (unfold in_box; lia). rewrite !(sat_2d _ _ _ _ _ _ _ Ez).
  apply (corners_sum2 (c0 pl z)); lia.
Qed.

Lemma corners_3d (pl : bool) (zl zh yl yh xl xh : Z) :
  have_z a = true ->
  0 <= zl <= zh -> zh < padsize_z a -> 0 <= yl <= yh -> yh < padsize_y a ->
  0 <= xl <= xh -> xh < padsize_x a ->
  corners (cell a pl) m zh yl yh xl xh -^ corners (cell a pl) m zl yl yh xl xh
  = sum3 (c0 pl) (zl + 1) (zh + 1) (yl + 1) (yh + 1) (xl + 1) (xh + 1).
Proof.
  intros Ez Hz Hz' Hy Hy' Hx Hx'.
  assert (Hplane : forall z, 0 <= z < padsize_z a ->
            corners (cell a pl) m z yl yh xl xh
            = sum (fun z' => sum2 (c0 pl z') (yl + 1) (yh + 1) (xl + 1) (xh + 1))
                  0 (z + 1)).
  { intros z Hzz. unfold corners.
    rewrite !Hm by (unfold in_box; lia). rewrite !(sat_3d _ _ _ _ _ _ _ Ez).
    unfold sat_xyz. rewrite <- sum_corners. apply sum_ext. intros z' _.
    apply (corners_sum2 (c0 pl z')); lia. }
  rewrite !Hplane by lia. unfold sum3. apply sum_diff. lia.
Qed.

(** The window of cells about a pixel is its window of samples. *)
Lemma window_cells_2d (pl : bool) (z y x r : Z) :
  have_z a = false -> 0 <= r <= kernel_radius a -> 0 <= y -> 0 <= x ->
  sum2 (c0 pl 0) (y + kernel_radius a - r + 1) (y + kernel_radius a + r + 1 + 1)
                 (x + kernel_radius a - r + 1) (x + kernel_radius a + r + 1 + 1)
  = window_sum powf sf16_to_float a (plane_value pl) r z y x.
Proof.
  intros Ez Hr Hy0 Hx0. unfold window_sum. rewrite Ez.
  replace (y + kernel_radius a - r + 1) with (y - r + (kernel_radius a + 1)) by lia.
  replace (y + kernel_radius a + r + 1 + 1) with (y + r + 1 + (kernel_radius a + 1)) by lia.
  replace (x + kernel_radius a - r + 1) with (x - r + (kernel_radius a + 1)) by lia.
  replace (x + kernel_radius a + r + 1 + 1) with (x + r + 1 + (kernel_radius a + 1)) by lia.
  rewrite <- sum2_shift. apply sum2_ext. intros y' x' Hy' Hx'.
  rewrite cell0_interior; unfold zd_start, kernel_radius_z, kernel_radius_xy;
    rewrite ?Ez; try lia.
  cbv zeta. unfold plane_value. destruct pl; repeat f_equal; lia.
Qed.

Lemma window_cells_3d (pl : bool) (z y x r : Z) :
  have_z a = true -> 0 <= r <= kernel_radius a -> 0 <= z -> 0 <= y -> 0 <= x ->
  sum3 (c0 pl) (z + kernel_radius a - r + 1) (z + kernel_radius a + r + 1 + 1)
               (y + kernel_radius a - r + 1) (y + kernel_radius a + r + 1 + 1)
               (x + kernel_radius a - r + 1) (x + kernel_radius a + r + 1 + 1)
  = window_sum powf sf16_to_float a (plane_value pl) r z y x.
Proof.
  intros Ez Hr Hz0 Hy0 Hx0. unfold window_sum. rewrite Ez.
  replace (z + kernel_radius a - r + 1) with (z - r + (kernel_radius a + 1)) by lia.
  replace (z + kernel_radius a + r + 1 + 1) with (z + r + 1 + (kernel_radius a + 1)) by lia.
  replace (y + kernel_radius a - r + 1) with (y - r + (kernel_radius a + 1)) by lia.
  replace (y + kernel_radius a + r + 1 + 1) with (y + r + 1 + (kernel_radius a + 1)) by lia.
  replace (x + kernel_radius a - r + 1) with (x - r + (kernel_radius a + 1)) by lia.
  replace (x + kernel_radius a + r + 1 + 1) with (x + r + 1 + (kernel_radius a + 1)) by lia.
  rewrite <- sum3_shift. apply sum3_ext. intros z' y' x' Hz' Hy' Hx'.
  rewrite cell0_interior; unfold zd_start, kernel_radius_z, kernel_radius_xy;
    rewrite ?Ez; try lia.
  cbv zeta. unfold plane_value. destruct pl; repeat f_equal; lia.
Qed.

(** What the loop body stores for a pixel of the region *)
Lemma pixel_window (z y x : Z) :
  0 <= z < (if have_z a then size_z a else 1) ->
  0 <= y < size_y a -> 0 <= x < size_x a ->
  pixel a m z y x = window_store powf sf16_to_float a z y x.
Proof.
  intros Hz Hy Hx. pose proof (radius_bounds a Hok) as [Hr _].
  pose proof (padsize_bounds a Hok) as Hp.
  unfold pixel, window_store, out_at.
  destruct (have_z a) eqn:Ez.
  - unfold pixel_3d. rewrite !window_eq, !corners_a_eq.
    unfold kernel_radius_z, kernel_radius_xy. rewrite Ez.
    change (VARBUF1 a) with (cell a false). change (VARBUF2 a) with (cell a true).
    assert (Hpz : padsize_z a = size_z a + kerneldim a)
      by (unfold padsize_z; now rewrite Ez).
    unfold padsize_x, padsize_y, kerneldim in *.
    assert (E1 : forall pl,
      corners (cell a pl) m (z + kernel_radius a + alpha_kernel_radius a + 1)
        (y + kernel_radius a - alpha_kernel_radius a)
        (y + kernel_radius a + alpha_kernel_radius a + 1)
        (x + kernel_radius a - alpha_kernel_radius a)
        (x + kernel_radius a + alpha_kernel_radius a + 1)
      -^ corners (cell a pl) m (z + kernel_radius a - alpha_kernel_radius a)
        (y + kernel_radius a - alpha_kernel_radius a)
        (y + kernel_radius a + alpha_kernel_radius a + 1)
        (x + kernel_radius a - alpha_kernel_radius a)
        (x + kernel_radius a + alpha_kernel_radius a + 1)
      = window_sum powf sf16_to_float a (plane_value pl) (alpha_kernel_radius a) z y x).
    { intros pl. rewrite corners_3d; try assumption; try lia;
        try (unfold padsize_x, padsize_y, kerneldim; lia).
      apply window_cells_3d; try assumption; lia. }
    cbv zeta. rewrite <- (E1 false), <- (E1 true). reflexivity.
  - unfold pixel_2d. rewrite !window_eq, !corners_a_eq.
    unfold kernel_radius_xy.
    change (VARBUF1 a) with (cell a false). change (VARBUF2 a) with (cell a true).
    assert (E1 : forall pl,
      corners (cell a pl) m 0
        (y + kernel_radius a - alpha_kernel_radius a)
        (y + kernel_radius a + alpha_kernel_radius a + 1)
        (x + kernel_radius a - alpha_kernel_radius a)
        (x + kernel_radius a + alpha_kernel_radius a + 1)
      = window_sum powf sf16_to_float a (plane_value pl) (alpha_kernel_radius a) z y x).
    { intros pl. rewrite corners_2d; try assumption; try lia;
        try (unfold padsize_x, padsize_y, kerneldim; lia).
      apply window_cells_2d; try assumption; lia. }
    cbv zeta. rewrite <- (E1 false), <- (E1 true). reflexivity.
Qed.

End Lookups.

End Windows.

(** ** The stores of a region *)

Lemma Zrange_nil (lo hi : Z) : hi <= lo -> Zrange lo hi = [].
Proof.
  intros H. unfold Zrange. replace (Z.to_nat (hi - lo)) with O by lia. reflexivity.
Qed.

Lemma Zrange_cons (lo hi : Z) : lo < hi -> Zrange lo hi = lo :: Zrange (lo + 1) hi.
Proof.
  intros H. unfold Zrange.
  replace (Z.to_nat (hi - lo)) with (S (Z.to_nat (hi - (lo + 1)))) by lia.
  cbn [seq map]. f_equal; [lia|].
  rewrite <- seq_shift, map_map. apply map_ext. intros k. lia.
Qed.

Lemma in_Zrange (lo hi i : Z) : In i (Zrange lo hi) <-> lo <= i < hi.
Proof.
  unfold Zrange. rewrite in_map_iff. split.
  - intros (k & <- & Hk). apply in_seq in Hk. lia.
  - intros H. exists (Z.to_nat (i - lo)). split; [lia|]. apply in_seq. lia.
Qed.

Lemma for_loop_log {A : Type} (g : Z -> list A) (hi : Z)
    (body : Z -> list A -> option (list A)) (lo : Z) :
  (forall i log, lo <= i < hi -> body i log = Some (log ++ g i)) ->
  forall log, for_loop lo hi body log = Some (log ++ flat_map g (Zrange lo hi)).
Proof.
  pattern lo. apply (for_loop_ind hi); clear lo.
  - intros lo Hlo _ log. rewrite for_loop_empty, Zrange_nil by lia.
    cbn. now rewrite app_nil_r.
  - intros lo Hlo IH Hbody log. rewrite for_loop_step, Zrange_cons by lia.
    rewrite Hbody by lia. rewrite IH by (intros; apply Hbody; lia).
    cbn. now rewrite app_assoc.
Qed.

Lemma flat_map_single {A B : Type} (f : A -> B) (l : list A) :
  flat_map (fun x => [f x]) l = map f l.
Proof. induction l as [|x l IH]; cbn; [reflexivity|now rewrite IH]. Qed.

Lemma extract_log (a : pixel_region_variance_args) (m : mem) (log : list store) :
  extract a m log = Some (log ++ region_stores a m).
Proof.
  unfold extract, region_stores, pixel. destruct (have_z a).
  - apply for_loop_log. intros z log1 _.
    apply for_loop_log. intros y log2 _.
    rewrite <- flat_map_single. apply for_loop_log. reflexivity.
  - change (Zrange 0 1) with [0]. cbn [flat_map]. rewrite app_nil_r.
    apply for_loop_log. intros y log2 _.
    rewrite <- flat_map_single. apply for_loop_log. reflexivity.
Qed.

(** A region's call returns; it appends the stores of its pixels to the
    output, and each is the store computed from the window of samples. *)
Lemma region_spec (powf : Qc -> Qc -> Qc) (sf16_to_float : Z -> Qc)
    (a : pixel_region_variance_args) (wm : mem) (log : list store) :
  region_ok a ->
  exists m,
    compute_pixel_region_variance powf sf16_to_float a (wm, log)
    = Some (m, log ++ region_stores a m) /\
    forall z y x,
      0 <= z < (if have_z a then size_z a else 1) ->
      0 <= y < size_y a -> 0 <= x < size_x a ->
      pixel a m z y x = window_store powf sf16_to_float a z y x.
Proof.
  intros Hok. unfold compute_pixel_region_variance. cbn [fst snd].
  destruct (tables_ready powf sf16_to_float a Hok wm) as (m3 & E & Hm).
  destruct (load_buffers powf sf16_to_float a wm) as [m1|]; [|discriminate].
  destruct (pad_zero a m1) as [m2|]; [|discriminate].
  rewrite E, extract_log. exists m3. split; [reflexivity|].
  intros z y x Hz Hy Hx. now apply (pixel_window powf sf16_to_float a Hok m3 Hm).
Qed.

(** * The claims *)

(** C3.  For every count of items, every stride of at least 1 and every
    strided array of accumulators (indexable by an [int], as the shift
    [stride << log2_stride] is an [int]), [brent_kung_prefix_sum] returns and
    leaves in element [i] the sum of the original elements [0..i]; it leaves
    memory as it found it when there are fewer than two items. *)
Theorem C3_brent_kung_prefix_sum (m : mem) (d items stride : Z) :
  0 <= items -> 1 <= stride -> items * stride <= INT_MAX ->
  exists m',
    brent_kung_prefix_sum m d items stride = Some m' /\
    (forall i, 0 <= i < items ->
       m' (d + i * stride) = sum (fun k => m (d + k * stride)) 0 (i + 1)) /\
    (items < 2 -> m' = m).
Proof.
  intros Hit Hst Hr.
  destruct (brent_kung_prefix_sum_spec m d items stride Hit Hst Hr) as (m' & E & Hsum & _).
  exists m'. split; [exact E|]. split; [exact Hsum|].
  intros Hsmall. unfold brent_kung_prefix_sum in E.
  destruct (Z.ltb_spec items 2); [|lia]. congruence.
Qed.

(** C3 at an array of 5 items at stride 3 *)
Lemma C3_witness :
  (0 <= 5 /\ 1 <= 3 /\ 5 * 3 <= INT_MAX) /\
  exists m',
    brent_kung_prefix_sum mem_count 7 5 3 = Some m' /\
    (forall i, 0 <= i < 5 ->
       m' (7 + i * 3) = sum (fun k => mem_count (7 + k * 3)) 0 (i + 1)) /\
    (5 < 2 -> m' = mem_count).
Proof.
  split; [unfold INT_MAX; lia|].
  apply (C3_brent_kung_prefix_sum mem_count 7 5 3); unfold INT_MAX; lia.
Defined.

(** The loop body of a pixel reads the work buffers at its [lookups] only. *)
Lemma pixel_reads (a : pixel_region_variance_args) (m m' : mem) (z y x : Z) :
  (forall cz cy cx, In (cz, cy, cx) (lookups a z y x) ->
     m (VARBUF1 a cz cy cx) = m' (VARBUF1 a cz cy cx) /\
     m (VARBUF2 a cz cy cx) = m' (VARBUF2 a cz cy cx)) ->
  pixel a m z y x = pixel a m' z y x.
Proof.
  unfold pixel, lookups, pixel_3d, pixel_2d. rewrite !window_eq.
  destruct (have_z a); intros H.
  - unfold corners_a, corners.
    repeat match goal with
    | |- context [m (VARBUF1 a ?cz ?cy ?cx)] =>
        rewrite (proj1 (H cz cy cx ltac:(cbn; tauto)))
    | |- context [m (VARBUF2 a ?cz ?cy ?cx)] =>
        rewrite (proj2 (H cz cy cx ltac:(cbn; tauto)))
    end.
    reflexivity.
  - unfold corners_a, corners.
    repeat match goal with
    | |- context [m (VARBUF1 a ?cz ?cy ?cx)] =>
        rewrite (proj1 (H cz cy cx ltac:(cbn; tauto)))
    | |- context [m (VARBUF2 a ?cz ?cy ?cx)] =>
        rewrite (proj2 (H cz cy cx ltac:(cbn; tauto)))
    end.
    reflexivity.
Qed.

(** C9.  For a region with radii that are not negative, every corner at
    which the loop body of one of its pixels reads [VARBUF1] and [VARBUF2]
    lies inside the padded work buffer on each axis, and so inside the
    [sizeprod] cells of each buffer. *)
Theorem C9_lookups_inside (a : pixel_region_variance_args) (z y x cz cy cx : Z) :
  0 <= avg_var_kernel_radius a -> 0 <= alpha_kernel_radius a ->
  0 <= z < size_z a -> 0 <= y < size_y a -> 0 <= x < size_x a ->
  In (cz, cy, cx) (lookups a z y x) ->
  (0 <= cz < padsize_z a /\ 0 <= cy < padsize_y a /\ 0 <= cx < padsize_x a) /\
  0 <= VARBUF1 a cz cy cx < sizeprod a /\
  sizeprod a <= VARBUF2 a cz cy cx < 2 * sizeprod a.
Proof.
  intros Hs Ha Hz Hy Hx Hin.
  assert (Hr : alpha_kernel_radius a <= kernel_radius a)
    by (unfold kernel_radius; rewrite MAX_spec; lia).
  assert (B : in_box a cz cy cx).
  { unfold lookups in Hin. rewrite !window_eq in Hin.
    unfold in_box, padsize_x, padsize_y, padsize_z, kerneldim.
    unfold kernel_radius_z, kernel_radius_xy in Hin.
    destruct (have_z a); cbn [In] in Hin;
      repeat (destruct Hin as [Hin|Hin]; [injection Hin as <- <- <-; lia|]);
      contradiction. }
  split; [exact B|].
  pose proof (cell_range a false cz cy cx B) as R1.
  pose proof (cell_range a true cz cy cx B) as R2.
  cbv beta iota in R1, R2. rewrite VARBUF1_cell, VARBUF2_cell. lia.
Qed.

(** C9 at the last pixel of a 4 x 4 region, for the corner (0, 6, 6) *)
Lemma C9_witness :
  (0 <= avg_var_kernel_radius region_4x4 /\ 0 <= alpha_kernel_radius region_4x4 /\
   0 <= 0 < size_z region_4x4 /\ 0 <= 3 < size_y region_4x4 /\
   0 <= 3 < size_x region_4x4 /\ In (0, 6, 6) (lookups region_4x4 0 3 3)) /\
  (0 <= 0 < padsize_z region_4x4 /\ 0 <= 5 < padsize_y region_4x4 /\
   0 <= 6 < padsize_x region_4x4) /\
  0 <= VARBUF1 region_4x4 0 6 6 < sizeprod region_4x4 /\
  sizeprod region_4x4 <= VARBUF2 region_4x4 0 6 6 < 2 * sizeprod region_4x4.
Proof.
  assert (H : 0 <= avg_var_kernel_radius region_4x4 /\ 0 <= alpha_kernel_radius region_4x4 /\
   0 <= 0 < size_z region_4x4 /\ 0 <= 3 < size_y region_4x4 /\
   0 <= 3 < size_x region_4x4 /\ In (0, 6, 6) (lookups region_4x4 0 3 3)).
  { cbn. repeat split; try lia. do 3 right. left. reflexivity. }
  split; [exact H|].
  destruct H as (H1 & H2 & H3 & H4 & H5 & H6).
  exact (C9_lookups_inside region_4x4 0 3 3 0 6 6 H1 H2 H3 H4 H5 H6).
Defined.

(** ** The power curve *)


Lemma load_raw_some (sf16_to_float : Z -> Qc) (a : pixel_region_variance_args)
    (x y z : Z) :
  region_ok a ->
  exists d, load_raw sf16_to_float a x y (clamp z 0 (dim_z (img a) - 1)) = Some d.
Proof.
  intros Hok. unfold load_raw. destruct (data_type (img a)) eqn:Et.
  - unfold load_u8. destruct (needs_swz (swz a)); eexists; reflexivity.
  - eexists; reflexivity.
  - destruct Hok as (_ & _ & _ & _ & _ & _ & H32). rewrite (H32 Et).
    unfold load_f32. replace (clamp z 0 (1 - 1) =? 0) with true; [eexists; reflexivity|].
    symmetry. apply Z.eqb_eq. pose proof (clamp_range z 0 (1 - 1)). lia.
Qed.

(** What the loading loops leave in an interior cell *)
Lemma load_buffers_cell (powf : Qc -> Qc -> Qc) (sf16_to_float : Z -> Qc)
    (a : pixel_region_variance_args) (m : mem) :
  region_ok a ->
  exists m',
    load_buffers powf sf16_to_float a m = Some m' /\
    forall z y x,
      zd_start a <= z < padsize_z a -> 1 <= y < padsize_y a -> 1 <= x < padsize_x a ->
      exists d,
        load_raw sf16_to_float a
          (clamp ((x - 1) + offset_x a - kernel_radius_xy a) 0 (dim_x (img a) - 1))
          (clamp ((y - 1) + offset_y a - kernel_radius_xy a) 0 (dim_y (img a) - 1))
          (clamp ((z - zd_start a) + offset_z a - kernel_radius_z a) 0 (dim_z (img a) - 1))
        = Some d /\
        m' (VARBUF1 a z y x) = power_curve powf a d /\
        m' (VARBUF2 a z y x) = power_curve powf a d *^ power_curve powf a d.
Proof.
  intros Hok. pose proof (padsize_bounds a Hok) as Hp.
  destruct (load_buffers_writes powf sf16_to_float a Hok m) as (m' & E & HV & _).
  exists m'. split; [exact E|]. intros z y x Hz Hy Hx.
  destruct (load_raw_some sf16_to_float a
              (clamp ((x - 1) + offset_x a - kernel_radius_xy a) 0 (dim_x (img a) - 1))
              (clamp ((y - 1) + offset_y a - kernel_radius_xy a) 0 (dim_y (img a) - 1))
              ((z - zd_start a) + offset_z a - kernel_radius_z a) Hok) as (d & Ed).
  exists d. split; [exact Ed|].
  assert (B : in_box a z y x) by (unfold in_box; lia).
  assert (Hc : forall pl, m' (cell a pl z y x)
                          = plane_value pl (power_curve powf a d)).
  { intros pl. rewrite (HV (cell a pl z y x)) with (pl := pl) (z := z) (y := y) (x := x);
      auto.
    - rewrite cell0_interior by lia. cbv zeta. unfold sample, src, texel, load_texel.
      replace (x - 1 - kernel_radius_xy a + offset_x a)
        with (x - 1 + offset_x a - kernel_radius_xy a) by lia.
      replace (y - 1 - kernel_radius_xy a + offset_y a)
        with (y - 1 + offset_y a - kernel_radius_xy a) by lia.
      replace (z - zd_start a - kernel_radius_z a + offset_z a)
        with (z - zd_start a + offset_z a - kernel_radius_z a) by lia.
      rewrite Ed. reflexivity.
    - exists z. split; [lia|]. exists y. split; [lia|]. exists x. split; [lia|].
      destruct pl; auto. }
  split; [apply (Hc false)|apply (Hc true)].
Qed.



(** ** Radius zero *)

Lemma sum2_one (f : Z -> Z -> float4) (y x : Z) :
  sum2 f y (y + 1) x (x + 1) = f y x.
Proof. unfold sum2. now rewrite !sum_one. Qed.

Lemma sum3_one (f : Z -> Z -> Z -> float4) (z y x : Z) :
  sum3 f z (z + 1) y (y + 1) x (x + 1) = f z y x.
Proof. unfold sum3. now rewrite sum_one, sum2_one. Qed.

Lemma window_sum_0 (powf : Qc -> Qc -> Qc) (sf16_to_float : Z -> Qc)
    (a : pixel_region_variance_args) (f : float4 -> float4) (z y x : Z) :
  window_sum powf sf16_to_float a f 0 z y x
  = f (sample powf sf16_to_float a (if have_z a then z else 0) y x).
Proof.
  unfold window_sum. rewrite !Z.sub_0_r, !Z.add_0_r.
  destruct (have_z a); [apply sum3_one|apply sum2_one].
Qed.

(** With both exponents 1 the stored value is the loaded one. *)
Lemma texel_raw (powf : Qc -> Qc -> Qc) (sf16_to_float : Z -> Qc)
    (a : pixel_region_variance_args) (x y z : Z) :
  region_ok a -> rgb_power a = 1%Qc -> alpha_power a = 1%Qc ->
  load_raw sf16_to_float a x y (clamp z 0 (dim_z (img a) - 1))
  = Some (texel powf sf16_to_float a x y (clamp z 0 (dim_z (img a) - 1))).
Proof.
  intros Hok Hr Ha.
  destruct (load_raw_some sf16_to_float a x y z Hok) as (d & Ed).
  unfold texel, load_texel. rewrite Ed. unfold power_curve, are_powers_1.
  rewrite Hr, Ha. reflexivity.
Qed.

(** With both radii 0 and both exponents 1, a region's call returns, and
    for every pixel of the region the average stored is what the loading
    loops load for the pixel and the variance stored is 0 in every channel. *)
Lemma zero_radius_region (powf : Qc -> Qc -> Qc) (sf16_to_float : Z -> Qc)
    (a : pixel_region_variance_args) (wm : mem) (log : list store) :
  region_ok a ->
  avg_var_kernel_radius a = 0 -> alpha_kernel_radius a = 0 ->
  rgb_power a = 1%Qc -> alpha_power a = 1%Qc ->
  exists m,
    compute_pixel_region_variance powf sf16_to_float a (wm, log)
    = Some (m, log ++ region_stores a m) /\
    forall z y x,
      0 <= z < (if have_z a then size_z a else 1) ->
      0 <= y < size_y a -> 0 <= x < size_x a ->
      let st := pixel a m z y x in
      out_index st = out_at a z y x /\
      load_raw sf16_to_float a (src x (offset_x a) (dim_x (img a)))
                               (src y (offset_y a) (dim_y (img a)))
                               (src z (offset_z a) (dim_z (img a)))
      = Some (average st) /\
      variance st = F4.zero.
Proof.
  intros Hok Hs Ha Hrp Hap.
  destruct (region_spec powf sf16_to_float a wm log Hok) as (m & E & Hpix).
  exists m. split; [exact E|]. intros z y x Hz Hy Hx. cbv zeta.
  rewrite (Hpix z y x Hz Hy Hx). unfold window_store. cbv zeta.
  rewrite Ha, !window_sum_0. unfold emit, plane_value. cbn [out_index average variance].
  assert (Hz' : (if have_z a then z else 0) = z) by (destruct (have_z a); lia).
  rewrite Hz'.
  assert (Hn : avg_var_samples a = 1%Qc).
  { unfold avg_var_samples, avg_var_kdim. rewrite Hs. destruct (have_z a); reflexivity. }
  assert (H1 : avg_var_rsamples a = 1%Qc).
  { unfold avg_var_rsamples. rewrite Hn. apply Qc_is_canon. reflexivity. }
  assert (H2 : mul1 a = 1%Qc).
  { unfold mul1. rewrite Hn. reflexivity. }
  assert (H3 : mul2 a = 1%Qc).
  { unfold mul2. rewrite Hn, H2. apply Qc_is_canon. reflexivity. }
  rewrite H1, H2, H3. split; [reflexivity|]. split.
  - unfold sample, src. rewrite (texel_raw powf) by assumption. f_equal. f4_ring.
  - f4_ring.
Qed.

(** ** The window of the averages *)

(** C1, at the failing input.  For a 2 x 2 image of one colour, with the
    radius 1 for averages and variances and the radius 0 for the alpha
    average, the run stores at pixel 0 the sum over the window of radius 0
    divided by the 9 samples of the window of radius 1: the two windows are
    one, of the alpha radius. *)
Theorem C1_average_window_has_alpha_radius :
  exists st,
    stored (run powf_12 sf16_01 8 image_flat 1%Qc 1%Qc 1 0 swz_rgba mem_count) 0
    = Some st /\
    st = window_store powf_12 sf16_01 region_flat 0 0 0 /\
    average st = mkfloat4 (Zf 1) (Zf 2) (Zf 3) (Zf 4) /\
    average (two_window_store powf_12 sf16_01 region_flat 0 0 0)
    = mkfloat4 (Zf 9) (Zf 18) (Zf 27) (Zf 36) /\
    average st <> average (two_window_store powf_12 sf16_01 region_flat 0 0 0).
Proof.
  eexists. split; [vm_compute; reflexivity|].
  split; [vm_compute; reflexivity|].
  split; [apply f4_eqb_eq; vm_compute; reflexivity|].
  split; [apply f4_eqb_eq; vm_compute; reflexivity|].
  intros E. apply f4_eqb_eq in E. vm_compute in E. discriminate E.
Qed.

(** C7, at the failing input.  The 2 x 2 image has one colour; with the
    radius 1 for averages and variances and the radius 0 for the alpha
    average the run stores at pixel 3 an average that is a ninth of the
    colour and a variance that is not 0. *)
Theorem C7_uniform_image_unequal_radii :
  exists st,
    stored (run powf_12 sf16_01 8 image_flat 1%Qc 1%Qc 1 0 swz_rgba mem_count) 3
    = Some st /\
    (forall i, data32 image_flat i = mkfloat4 (Zf 9) (Zf 18) (Zf 27) (Zf 36)) /\
    average st = mkfloat4 (Zf 1) (Zf 2) (Zf 3) (Zf 4) /\
    variance st = mkfloat4 (Zf 9) (Zf 36) (Zf 81) (Zf 144) /\
    average st <> mkfloat4 (Zf 9) (Zf 18) (Zf 27) (Zf 36) /\
    variance st <> F4.zero.
Proof.
  eexists. split; [vm_compute; reflexivity|].
  split; [reflexivity|].
  split; [apply f4_eqb_eq; vm_compute; reflexivity|].
  split; [apply f4_eqb_eq; vm_compute; reflexivity|].
  split; intros E; apply f4_eqb_eq in E; vm_compute in E; discriminate E.
Qed.

(** ** Corners are not clamped *)

Lemma src_range (i off dim : Z) : 1 <= dim -> 0 <= src i off dim < dim.
Proof. intros H. unfold src. pose proof (clamp_range (i + off) 0 (dim - 1)). lia. Qed.

(** C4 as stated fails at the last column of a 4 x 4 image with radius 1:
    the corners used are 3 and 6, the clamped corners would be 3 and 3. *)
Lemma C4_counterexample :
  window region_4x4 (kernel_radius_xy region_4x4) 3 (dim_x image_4x4)
  <> clamped_window region_4x4 (kernel_radius_xy region_4x4) 3 (dim_x image_4x4).
Proof. vm_compute. discriminate. Qed.

Lemma two_window_store_equal_radii (powf : Qc -> Qc -> Qc) (sf16_to_float : Z -> Qc)
    (a : pixel_region_variance_args) (z y x : Z) :
  avg_var_kernel_radius a = alpha_kernel_radius a ->
  two_window_store powf sf16_to_float a z y x = window_store powf sf16_to_float a z y x.
Proof. intros E. unfold two_window_store, window_store. now rewrite E. Qed.

(** C4, amended.  The corners of a window are not clamped: the results of
    the [astc::clamp] calls on them are not used.  A region's call returns,
    and a pixel at the boundary of the image keeps its full window of
    [2 * R + 1] samples per axis; each sample is the value loaded at a
    coordinate inside the image, the nearest to the position in the window.
    This is so of the window of the alpha average for every pair of radii,
    and of the window of the averages and variances when the two radii are
    equal; the latter window under unequal radii is the matter of C1 and is
    left out here. *)
Theorem C4_windows_keep_full_size (powf : Qc -> Qc -> Qc) (sf16_to_float : Z -> Qc)
    (a : pixel_region_variance_args) (wm : mem) (log : list store) :
  region_ok a ->
  1 <= dim_x (img a) -> 1 <= dim_y (img a) -> 1 <= dim_z (img a) ->
  (avg_var_kernel_radius a = alpha_kernel_radius a ->
   forall kr i dim,
     window a kr i dim = (i + kr - avg_var_kernel_radius a,
                          i + kr + avg_var_kernel_radius a + 1)) /\
  (exists m,
     compute_pixel_region_variance powf sf16_to_float a (wm, log)
     = Some (m, log ++ region_stores a m) /\
     forall z y x,
       0 <= z < (if have_z a then size_z a else 1) ->
       0 <= y < size_y a -> 0 <= x < size_x a ->
       out_index (pixel a m z y x) = out_at a z y x /\
       alpha_average (pixel a m z y x)
       = alpha_average (two_window_store powf sf16_to_float a z y x) /\
       (avg_var_kernel_radius a = alpha_kernel_radius a ->
        pixel a m z y x = two_window_store powf sf16_to_float a z y x)) /\
  (forall z y x,
     exists cx cy cz,
       (0 <= cx < dim_x (img a) /\ 0 <= cy < dim_y (img a) /\ 0 <= cz < dim_z (img a)) /\
       sample powf sf16_to_float a z y x = texel powf sf16_to_float a cx cy cz).
Proof.
  intros Hok Hx Hy Hz. split; [intros E kr i dim; rewrite E; apply window_eq|].
  split.
  - destruct (region_spec powf sf16_to_float a wm log Hok) as (m & E & Hpix).
    exists m. split; [exact E|]. intros z y x Hzr Hyr Hxr.
    rewrite (Hpix z y x Hzr Hyr Hxr). split; [reflexivity|]. split; [reflexivity|].
    intros Hr. symmetry. now apply two_window_store_equal_radii.
  - intros z y x.
    exists (src x (offset_x a) (dim_x (img a))), (src y (offset_y a) (dim_y (img a))),
           (src z (offset_z a) (dim_z (img a))).
    split; [|reflexivity]. auto using src_range.
Qed.

(** C4, amended, at a 4 x 4 region with both radii 1 *)
Lemma C4_witness :
  (region_ok region_4x4 /\ 1 <= dim_x (img region_4x4) /\
   1 <= dim_y (img region_4x4) /\ 1 <= dim_z (img region_4x4)) /\
  (avg_var_kernel_radius region_4x4 = alpha_kernel_radius region_4x4 ->
   forall kr i dim,
     window region_4x4 kr i dim
     = (i + kr - avg_var_kernel_radius region_4x4,
        i + kr + avg_var_kernel_radius region_4x4 + 1)) /\
  (exists m,
     compute_pixel_region_variance powf_12 sf16_01 region_4x4 (mem_count, [])
     = Some (m, [] ++ region_stores region_4x4 m) /\
     forall z y x,
       0 <= z < (if have_z region_4x4 then size_z region_4x4 else 1) ->
       0 <= y < size_y region_4x4 -> 0 <= x < size_x region_4x4 ->
       out_index (pixel region_4x4 m z y x) = out_at region_4x4 z y x /\
       alpha_average (pixel region_4x4 m z y x)
       = alpha_average (two_window_store powf_12 sf16_01 region_4x4 z y x) /\
       (avg_var_kernel_radius region_4x4 = alpha_kernel_radius region_4x4 ->
        pixel region_4x4 m z y x = two_window_store powf_12 sf16_01 region_4x4 z y x)) /\
  (forall z y x,
     exists cx cy cz,
       (0 <= cx < dim_x (img region_4x4) /\ 0 <= cy < dim_y (img region_4x4) /\
        0 <= cz < dim_z (img region_4x4)) /\
       sample powf_12 sf16_01 region_4x4 z y x = texel powf_12 sf16_01 region_4x4 cx cy cz).
Proof.
  assert (H : region_ok region_4x4).
  { unfold region_ok, INT_MAX. cbn. repeat split; try lia; try discriminate. }
  split; [split; [exact H|cbn; lia]|].
  apply (C4_windows_keep_full_size powf_12 sf16_01 region_4x4 mem_count [] H); cbn; lia.
Defined.

(** ** Addressing of the raw buffer *)

Lemma needs_swz_false (sw : astcenc_swizzle) : needs_swz sw = false -> sw = swz_rgba.
Proof.
  destruct sw as [[] [] [] []]; cbn; intros H; try discriminate; reflexivity.
Qed.

Lemma pixel_index_0 (im : astcenc_image) (x y : Z) :
  pixel_index im x y 0 = y * dim_x im + x.
Proof. unfold pixel_index. ring. Qed.

(** The load of the 8-bit branch and of the 32-bit float branch address the
    raw buffer by [x] and [y] alone; the 16-bit branch addresses it by all
    three coordinates. *)
Lemma load_raw_pixel (sf16_to_float : Z -> Qc) (a : pixel_region_variance_args)
    (x y z : Z) :
  match data_type (img a) with
  | ASTCENC_TYPE_U8 =>
      load_raw sf16_to_float a x y z = Some (load_pixel sf16_to_float a x y 0)
  | ASTCENC_TYPE_F16 =>
      load_raw sf16_to_float a x y z = Some (load_pixel sf16_to_float a x y z)
  | ASTCENC_TYPE_F32 =>
      load_raw sf16_to_float a x y z
      = if z =? 0 then Some (load_pixel sf16_to_float a x y 0) else None
  end.
Proof.
  unfold load_raw, load_pixel. destruct (data_type (img a)).
  - unfold load_u8. rewrite pixel_index_0.
    destruct (needs_swz (swz a)) eqn:En; [reflexivity|].
    rewrite (needs_swz_false _ En). reflexivity.
  - reflexivity.
  - unfold load_f32. rewrite pixel_index_0. destruct (z =? 0); [|reflexivity].
    destruct (needs_swz (swz a)) eqn:En; [reflexivity|].
    rewrite (needs_swz_false _ En). cbn. now destruct (data32 _ _).
Qed.

(** C5 as stated fails for a volumetric image of bytes: the cell whose
    clamped source coordinate is (0, 0, 1) does not hold the value of the
    pixel (0, 0, 1). *)
Lemma C5_counterexample :
  clamp ((2 - zd_start region_vol) + offset_z region_vol - kernel_radius_z region_vol)
        0 (dim_z image_vol - 1) = 1 /\
  exists m',
    load_buffers powf_12 sf16_01 region_vol mem_count = Some m' /\
    m' (VARBUF1 region_vol 2 1 1)
    <> power_curve powf_12 region_vol (load_pixel sf16_01 region_vol 0 0 1).
Proof.
  split; [reflexivity|].
  assert (H : region_ok region_vol).
  { unfold region_ok, INT_MAX. cbn. repeat split; try lia; try discriminate. }
  destruct (load_buffers_cell powf_12 sf16_01 region_vol mem_count H) as (m' & E & Hc).
  exists m'. split; [exact E|].
  destruct (Hc 2 1 1) as (d & Ed & H1 & _); try (cbn; lia).
  rewrite H1. vm_compute in Ed. injection Ed as <-.
  intros Eq. apply f4_eqb_eq in Eq. vm_compute in Eq. discriminate Eq.
Qed.

(** C5, amended.  The loading loops return, and fill each cell of the work
    buffers from the source pixel at its clamped coordinate
    [(x_src, y_src, z_src)] when the data are 16-bit floats, or when the
    image has one slice.  For bytes and for 32-bit floats the raw buffer is
    addressed by [y_src * dim_x + x_src]: [z_src] takes no part, and the
    cell is filled from the pixel at [(x_src, y_src, 0)]. *)
Theorem C5_cells_from_source_pixels (powf : Qc -> Qc -> Qc) (sf16_to_float : Z -> Qc)
    (a : pixel_region_variance_args) (m : mem) :
  region_ok a ->
  exists m',
    load_buffers powf sf16_to_float a m = Some m' /\
    forall z y x,
      zd_start a <= z < padsize_z a -> 1 <= y < padsize_y a -> 1 <= x < padsize_x a ->
      let x_src := clamp ((x - 1) + offset_x a - kernel_radius_xy a) 0 (dim_x (img a) - 1) in
      let y_src := clamp ((y - 1) + offset_y a - kernel_radius_xy a) 0 (dim_y (img a) - 1) in
      let z_src := clamp ((z - zd_start a) + offset_z a - kernel_radius_z a)
                         0 (dim_z (img a) - 1) in
      m' (VARBUF2 a z y x) = m' (VARBUF1 a z y x) *^ m' (VARBUF1 a z y x) /\
      (data_type (img a) = ASTCENC_TYPE_F16 \/ dim_z (img a) = 1 ->
       m' (VARBUF1 a z y x)
       = power_curve powf a (load_pixel sf16_to_float a x_src y_src z_src)) /\
      (data_type (img a) <> ASTCENC_TYPE_F16 ->
       m' (VARBUF1 a z y x)
       = power_curve powf a (load_pixel sf16_to_float a x_src y_src 0)).
Proof.
  intros Hok.
  destruct (load_buffers_cell powf sf16_to_float a m Hok) as (m' & E & Hc).
  exists m'. split; [exact E|]. intros z y x Hz Hy Hx. cbv zeta.
  destruct (Hc z y x Hz Hy Hx) as (d & Ed & H1 & H2).
  rewrite H2, H1. split; [reflexivity|].
  pose proof (load_raw_pixel sf16_to_float a
    (clamp ((x - 1) + offset_x a - kernel_radius_xy a) 0 (dim_x (img a) - 1))
    (clamp ((y - 1) + offset_y a - kernel_radius_xy a) 0 (dim_y (img a) - 1))
    (clamp ((z - zd_start a) + offset_z a - kernel_radius_z a) 0 (dim_z (img a) - 1)))
    as Hl.
  rewrite Ed in Hl.
  assert (Hz1 : dim_z (img a) = 1 ->
                clamp ((z - zd_start a) + offset_z a - kernel_radius_z a)
                      0 (dim_z (img a) - 1) = 0).
  { intros ->. pose proof (clamp_range (z - zd_start a + offset_z a - kernel_radius_z a)
                             0 (1 - 1)). lia. }
  destruct (data_type (img a)) eqn:Et.
  - injection Hl as ->. split; [|reflexivity].
    intros [?|H1z]; [discriminate|]. now rewrite (Hz1 H1z).
  - injection Hl as ->. split; [reflexivity|]. intros N. now contradiction N.
  - destruct (_ =? 0) eqn:Ez in Hl; [|discriminate]. injection Hl as ->.
    split; [|reflexivity].
    intros [?|H1z]; [discriminate|]. now rewrite (Hz1 H1z).
Qed.

(** C5, amended, at a 4 x 4 region of bytes *)
Lemma C5_witness :
  region_ok region_4x4 /\
  exists m',
    load_buffers powf_12 sf16_01 region_4x4 mem_count = Some m' /\
    forall z y x,
      zd_start region_4x4 <= z < padsize_z region_4x4 ->
      1 <= y < padsize_y region_4x4 -> 1 <= x < padsize_x region_4x4 ->
      let x_src := clamp ((x - 1) + offset_x region_4x4 - kernel_radius_xy region_4x4)
                         0 (dim_x (img region_4x4) - 1) in
      let y_src := clamp ((y - 1) + offset_y region_4x4 - kernel_radius_xy region_4x4)
                         0 (dim_y (img region_4x4) - 1) in
      let z_src := clamp ((z - zd_start region_4x4) + offset_z region_4x4
                          - kernel_radius_z region_4x4) 0 (dim_z (img region_4x4) - 1) in
      m' (VARBUF2 region_4x4 z y x)
      = m' (VARBUF1 region_4x4 z y x) *^ m' (VARBUF1 region_4x4 z y x) /\
      (data_type (img region_4x4) = ASTCENC_TYPE_F16 \/ dim_z (img region_4x4) = 1 ->
       m' (VARBUF1 region_4x4 z y x)
       = power_curve powf_12 region_4x4 (load_pixel sf16_01 region_4x4 x_src y_src z_src)) /\
      (data_type (img region_4x4) <> ASTCENC_TYPE_F16 ->
       m' (VARBUF1 region_4x4 z y x)
       = power_curve powf_12 region_4x4 (load_pixel sf16_01 region_4x4 x_src y_src 0)).
Proof.
  assert (H : region_ok region_4x4).
  { unfold region_ok, INT_MAX. cbn. repeat split; try lia; try discriminate. }
  split; [exact H|].
  exact (C5_cells_from_source_pixels powf_12 sf16_01 region_4x4 mem_count H).
Defined.

(** ** Radius zero, pixel by pixel *)

Lemma Some_eq {A : Type} (u v : A) : Some u = Some v -> u = v.
Proof. intros E. now injection E. Qed.

(** C6 as stated fails for a volumetric image of bytes: with both radii 0
    and both exponents 1, the average written at the index of the pixel
    (0, 0, 1) is the value of the pixel (0, 0, 0), not that of the pixel
    (0, 0, 1). *)
Lemma C6_counterexample :
  (avg_var_kernel_radius region_vol = 0 /\ alpha_kernel_radius region_vol = 0 /\
   rgb_power region_vol = 1%Qc /\ alpha_power region_vol = 1%Qc) /\
  exists m,
    compute_pixel_region_variance powf_12 sf16_01 region_vol (mem_count, [])
    = Some (m, [] ++ region_stores region_vol m) /\
    out_index (pixel region_vol m 1 0 0) = image_index image_vol 0 0 1 /\
    average (pixel region_vol m 1 0 0) = load_pixel sf16_01 region_vol 0 0 0 /\
    average (pixel region_vol m 1 0 0) <> load_pixel sf16_01 region_vol 0 0 1.
Proof.
  split; [repeat split|].
  assert (H : region_ok region_vol).
  { unfold region_ok, INT_MAX. cbn. repeat split; try lia; try discriminate. }
  destruct (zero_radius_region powf_12 sf16_01 region_vol mem_count [] H
              eq_refl eq_refl eq_refl eq_refl) as (m & E & Hp).
  exists m. split; [exact E|].
  destruct (Hp 1 0 0) as (Ho & Hl & _); try (cbn; lia). cbv zeta in Ho, Hl.
  split; [rewrite Ho; reflexivity|].
  assert (Hr : load_raw sf16_01 region_vol
                  (src 0 (offset_x region_vol) (dim_x (img region_vol)))
                  (src 0 (offset_y region_vol) (dim_y (img region_vol)))
                  (src 1 (offset_z region_vol) (dim_z (img region_vol)))
                = Some (load_pixel sf16_01 region_vol
                          (src 0 (offset_x region_vol) (dim_x (img region_vol)))
                          (src 0 (offset_y region_vol) (dim_y (img region_vol))) 0))
    by exact (load_raw_pixel sf16_01 region_vol _ _ _).
  rewrite Hl in Hr.
  apply Some_eq in Hr. rewrite Hr.
  change (src 0 (offset_x region_vol) (dim_x (img region_vol))) with 0.
  change (src 0 (offset_y region_vol) (dim_y (img region_vol))) with 0.
  split; [reflexivity|].
  intros Eq. apply f4_eqb_eq in Eq. vm_compute in Eq. discriminate Eq.
Qed.

(** C6, amended.  With both radii 0 and both exponents 1, a region that lies
    inside the image stores, for each of its pixels and at the index of the
    pixel, the variance 0 in every channel (in exact arithmetic), and an
    average that is the value of that pixel of the image (its channels
    fetched, remapped by the swizzle and converted) when the data are
    16-bit floats or the image has one slice.  For bytes the raw buffer is
    addressed without the slice: the average written for the pixel
    [(x, y, z)] of a volume is the value of the pixel [(x, y, 0)]. *)
Theorem C6_zero_radius (powf : Qc -> Qc -> Qc) (sf16_to_float : Z -> Qc)
    (a : pixel_region_variance_args) (wm : mem) (log : list store) :
  region_ok a ->
  avg_var_kernel_radius a = 0 -> alpha_kernel_radius a = 0 ->
  rgb_power a = 1%Qc -> alpha_power a = 1%Qc ->
  0 <= offset_x a -> offset_x a + size_x a <= dim_x (img a) ->
  0 <= offset_y a -> offset_y a + size_y a <= dim_y (img a) ->
  1 <= dim_z (img a) ->
  (have_z a = true -> 0 <= offset_z a /\ offset_z a + size_z a <= dim_z (img a)) ->
  (have_z a = false -> offset_z a = 0) ->
  exists m,
    compute_pixel_region_variance powf sf16_to_float a (wm, log)
    = Some (m, log ++ region_stores a m) /\
    forall z y x,
      0 <= z < (if have_z a then size_z a else 1) ->
      0 <= y < size_y a -> 0 <= x < size_x a ->
      let st := pixel a m z y x in
      let px := x + offset_x a in
      let py := y + offset_y a in
      let pz := z + offset_z a in
      out_index st = image_index (img a) px py pz /\
      variance st = F4.zero /\
      (data_type (img a) = ASTCENC_TYPE_F16 \/ dim_z (img a) = 1 ->
       average st = load_pixel sf16_to_float a px py pz) /\
      (data_type (img a) <> ASTCENC_TYPE_F16 ->
       average st = load_pixel sf16_to_float a px py 0).
Proof.
  intros Hok Hs Ha Hrp Hap Hox Hsx Hoy Hsy Hdz Hz3 Hz2.
  destruct (zero_radius_region powf sf16_to_float a wm log Hok Hs Ha Hrp Hap)
    as (m & E & Hp).
  exists m. split; [exact E|]. intros z y x Hz Hy Hx. cbv zeta.
  destruct (Hp z y x Hz Hy Hx) as (Ho & Hl & Hv). cbv zeta in Ho, Hl, Hv.
  assert (Hpz : 0 <= z + offset_z a < dim_z (img a)).
  { destruct (have_z a); [specialize (Hz3 eq_refl)|specialize (Hz2 eq_refl)]; lia. }
  assert (Ex : src x (offset_x a) (dim_x (img a)) = x + offset_x a)
    by (unfold src; apply clamp_id; lia).
  assert (Ey : src y (offset_y a) (dim_y (img a)) = y + offset_y a)
    by (unfold src; apply clamp_id; lia).
  assert (Ez : src z (offset_z a) (dim_z (img a)) = z + offset_z a)
    by (unfold src; apply clamp_id; lia).
  rewrite Ex, Ey, Ez in Hl.
  split.
  { rewrite Ho. unfold out_at, image_index, zdt, ydt.
    destruct (have_z a); [ring|]. rewrite (Hz2 eq_refl). assert (z = 0) as -> by lia. ring. }
  split; [exact Hv|].
  pose proof (load_raw_pixel sf16_to_float a (x + offset_x a) (y + offset_y a)
                (z + offset_z a)) as Hr.
  rewrite Hl in Hr.
  assert (Hz1 : dim_z (img a) = 1 -> z + offset_z a = 0) by lia.
  destruct (data_type (img a)) eqn:Et.
  - apply Some_eq in Hr. split; [|intros _; exact Hr].
    intros [?|H1z]; [discriminate|]. now rewrite (Hz1 H1z).
  - apply Some_eq in Hr. split; [intros _; exact Hr|]. intros N. now contradiction N.
  - destruct (_ =? 0) eqn:E0 in Hr; [|discriminate]. apply Some_eq in Hr.
    split; [|intros _; exact Hr].
    intros [?|H1z]; [discriminate|]. now rewrite (Hz1 H1z).
Qed.

(** C6, amended, at a 4 x 4 region of bytes *)
Lemma C6_witness :
  (region_ok region_4x4_r0 /\
   avg_var_kernel_radius region_4x4_r0 = 0 /\ alpha_kernel_radius region_4x4_r0 = 0 /\
   rgb_power region_4x4_r0 = 1%Qc /\ alpha_power region_4x4_r0 = 1%Qc /\
   0 <= offset_x region_4x4_r0 /\
   offset_x region_4x4_r0 + size_x region_4x4_r0 <= dim_x (img region_4x4_r0) /\
   0 <= offset_y region_4x4_r0 /\
   offset_y region_4x4_r0 + size_y region_4x4_r0 <= dim_y (img region_4x4_r0) /\
   1 <= dim_z (img region_4x4_r0) /\
   (have_z region_4x4_r0 = true ->
    0 <= offset_z region_4x4_r0 /\
    offset_z region_4x4_r0 + size_z region_4x4_r0 <= dim_z (img region_4x4_r0)) /\
   (have_z region_4x4_r0 = false -> offset_z region_4x4_r0 = 0)) /\
  exists m,
    compute_pixel_region_variance powf_12 sf16_01 region_4x4_r0 (mem_count, [])
    = Some (m, [] ++ region_stores region_4x4_r0 m) /\
    forall z y x,
      0 <= z < (if have_z region_4x4_r0 then size_z region_4x4_r0 else 1) ->
      0 <= y < size_y region_4x4_r0 -> 0 <= x < size_x region_4x4_r0 ->
      let st := pixel region_4x4_r0 m z y x in
      let px := x + offset_x region_4x4_r0 in
      let py := y + offset_y region_4x4_r0 in
      let pz := z + offset_z region_4x4_r0 in
      out_index st = image_index (img region_4x4_r0) px py pz /\
      variance st = F4.zero /\
      (data_type (img region_4x4_r0) = ASTCENC_TYPE_F16 \/ dim_z (img region_4x4_r0) = 1 ->
       average st = load_pixel sf16_01 region_4x4_r0 px py pz) /\
      (data_type (img region_4x4_r0) <> ASTCENC_TYPE_F16 ->
       average st = load_pixel sf16_01 region_4x4_r0 px py 0).
Proof.
  assert (H : region_ok region_4x4_r0).
  { unfold region_ok, INT_MAX. cbn. repeat split; try lia; try discriminate. }
  split.
  - split; [exact H|]. cbn. repeat split; try lia; discriminate.
  - apply (C6_zero_radius powf_12 sf16_01 region_4x4_r0 mem_count [] H);
      cbn; try reflexivity; try lia; discriminate.
Defined.

(** ** Exchanging two channels of the swizzle *)

Section Swap.

Variables c1 c2 : channel.

Lemma swap_zero : swap_f4 c1 c2 F4.zero = F4.zero.
Proof. destruct c1, c2; reflexivity. Qed.

Lemma swap_add (u v : float4) :
  swap_f4 c1 c2 (u +^ v) = swap_f4 c1 c2 u +^ swap_f4 c1 c2 v.
Proof. destruct c1, c2; reflexivity. Qed.

Lemma swap_sub (u v : float4) :
  swap_f4 c1 c2 (u -^ v) = swap_f4 c1 c2 u -^ swap_f4 c1 c2 v.
Proof. destruct c1, c2; reflexivity. Qed.

Lemma swap_mul (u v : float4) :
  swap_f4 c1 c2 (u *^ v) = swap_f4 c1 c2 u *^ swap_f4 c1 c2 v.
Proof. destruct c1, c2; reflexivity. Qed.

Lemma swap_scale (u : float4) (k : Qc) :
  swap_f4 c1 c2 (F4.scale u k) = F4.scale (swap_f4 c1 c2 u) k.
Proof. destruct c1, c2; reflexivity. Qed.

Lemma swap_plane_value (pl : bool) (d : float4) :
  plane_value pl (swap_f4 c1 c2 d) = swap_f4 c1 c2 (plane_value pl d).
Proof. unfold plane_value. destruct pl; [now rewrite swap_mul|reflexivity]. Qed.

Lemma sum_swap (g : Z -> float4) (lo hi : Z) :
  sum (fun i => swap_f4 c1 c2 (g i)) lo hi = swap_f4 c1 c2 (sum g lo hi).
Proof.
  unfold sum. generalize (Z.to_nat (hi - lo)) as n. intros n. revert lo.
  induction n as [|n IH]; intros lo; simpl.
  - now rewrite swap_zero.
  - now rewrite IH, swap_add.
Qed.

Lemma sum2_swap (g : Z -> Z -> float4) (yl yh xl xh : Z) :
  sum2 (fun y x => swap_f4 c1 c2 (g y x)) yl yh xl xh
  = swap_f4 c1 c2 (sum2 g yl yh xl xh).
Proof.
  unfold sum2. rewrite <- sum_swap. apply sum_ext. intros y _. apply sum_swap.
Qed.

Lemma sum3_swap (g : Z -> Z -> Z -> float4) (zl zh yl yh xl xh : Z) :
  sum3 (fun z y x => swap_f4 c1 c2 (g z y x)) zl zh yl yh xl xh
  = swap_f4 c1 c2 (sum3 g zl zh yl yh xl xh).
Proof.
  unfold sum3. rewrite <- sum_swap. apply sum_ext. intros z _. apply sum2_swap.
Qed.

Variable powf : Qc -> Qc -> Qc.
Variable sf16_to_float : Z -> Qc.
Variable a : pixel_region_variance_args.

Hypothesis Hpow : (c1 <> CH_A /\ c2 <> CH_A) \/ rgb_power a = alpha_power a.

Local Abbreviation a' := (set_swz a (swap_swz c1 c2 (swz a))).

Lemma load_pixel_swap (x y z : Z) :
  load_pixel sf16_to_float a' x y z = swap_f4 c1 c2 (load_pixel sf16_to_float a x y z).
Proof.
  unfold load_pixel. cbn [img set_swz swz].
  destruct (data_type (img a)); destruct c1, c2; reflexivity.
Qed.

Lemma power_curve_swap (d : float4) :
  power_curve powf a' (swap_f4 c1 c2 d) = swap_f4 c1 c2 (power_curve powf a d).
Proof.
  unfold power_curve, are_powers_1. cbn [set_swz rgb_power alpha_power].
  destruct (negb _); [|reflexivity].
  destruct Hpow as [[N1 N2]|E].
  - destruct c1, c2; try reflexivity; contradiction.
  - rewrite E. destruct c1, c2; reflexivity.
Qed.

Lemma texel_swap (x y z : Z) :
  texel powf sf16_to_float a' x y z = swap_f4 c1 c2 (texel powf sf16_to_float a x y z).
Proof.
  unfold texel, load_texel.
  pose proof (load_raw_pixel sf16_to_float a x y z) as H.
  pose proof (load_raw_pixel sf16_to_float a' x y z) as H'.
  cbn [img set_swz] in H'.
  destruct (data_type (img a)).
  - rewrite H, H', load_pixel_swap. apply power_curve_swap.
  - rewrite H, H', load_pixel_swap. apply power_curve_swap.
  - rewrite H, H'. destruct (z =? 0).
    + rewrite load_pixel_swap. apply power_curve_swap.
    + now rewrite swap_zero.
Qed.

Lemma sample_swap (z y x : Z) :
  sample powf sf16_to_float a' z y x = swap_f4 c1 c2 (sample powf sf16_to_float a z y x).
Proof. unfold sample. apply texel_swap. Qed.

Lemma window_sum_swap (pl : bool) (r z y x : Z) :
  window_sum powf sf16_to_float a' (plane_value pl) r z y x
  = swap_f4 c1 c2 (window_sum powf sf16_to_float a (plane_value pl) r z y x).
Proof.
  unfold window_sum. cbn [have_z set_swz]. destruct (have_z a).
  - rewrite <- sum3_swap. apply sum3_ext. intros.
    now rewrite sample_swap, swap_plane_value.
  - rewrite <- sum2_swap. apply sum2_ext. intros.
    now rewrite sample_swap, swap_plane_value.
Qed.

Lemma window_store_swap (z y x : Z) :
  swapped_store c1 c2 (window_store powf sf16_to_float a z y x)
                      (window_store powf sf16_to_float a' z y x).
Proof.
  unfold swapped_store, window_store. cbv zeta.
  change (alpha_kernel_radius a') with (alpha_kernel_radius a).
  rewrite !window_sum_swap. unfold emit. cbn [out_index average variance].
  change (avg_var_rsamples a') with (avg_var_rsamples a).
  change (mul1 a') with (mul1 a). change (mul2 a') with (mul2 a).
  split; [reflexivity|]. split.
  - now rewrite swap_scale.
  - now rewrite swap_sub, !swap_scale, swap_mul.
Qed.

End Swap.

Lemma Forall2_map_same {A B C : Type} (R : B -> C -> Prop) (f : A -> B) (g : A -> C)
    (l : list A) :
  (forall x, In x l -> R (f x) (g x)) -> Forall2 R (map f l) (map g l).
Proof.
  induction l as [|x l IH]; intros H; cbn; constructor.
  - apply H. now left.
  - apply IH. intros y Hy. apply H. now right.
Qed.

Lemma Forall2_flat_map_same {A B C : Type} (R : B -> C -> Prop)
    (f : A -> list B) (g : A -> list C) (l : list A) :
  (forall x, In x l -> Forall2 R (f x) (g x)) ->
  Forall2 R (flat_map f l) (flat_map g l).
Proof.
  induction l as [|x l IH]; intros H; cbn; [constructor|].
  apply Forall2_app.
  - apply H. now left.
  - apply IH. intros y Hy. apply H. now right.
Qed.

(** C8 as stated fails when red and alpha are exchanged under
    [rgb_power = 2] and [alpha_power = 1]: the red average of the second run
    is the square of the alpha average of the first. *)
Lemma C8_counterexample :
  exists st st',
    stored (run powf_12 sf16_01 8 image_flat (Zf 2) 1%Qc 0 0 swz_rgba mem_count) 0
    = Some st /\
    stored (run powf_12 sf16_01 8 image_flat (Zf 2) 1%Qc 0 0
              (swap_swz CH_R CH_A swz_rgba) mem_count) 0
    = Some st' /\
    average st' <> swap_f4 CH_R CH_A (average st).
Proof.
  eexists. eexists. split; [vm_compute; reflexivity|].
  split; [vm_compute; reflexivity|].
  intros E. apply f4_eqb_eq in E. vm_compute in E. discriminate E.
Qed.

(** C8, amended.  For every region and every pair of channels that are both
    colour channels, or any pair of channels when [rgb_power] equals
    [alpha_power]: the call with the selectors of the two channels exchanged
    in the swizzle returns as the original call does, and stores, pixel by
    pixel and at the same output index, the averages and variances of the
    original call with the two channels exchanged and the others as they
    were. *)
Theorem C8_swizzle_symmetry (powf : Qc -> Qc -> Qc) (sf16_to_float : Z -> Qc)
    (a : pixel_region_variance_args) (c1 c2 : channel)
    (wm wm' : mem) (log log' : list store) :
  region_ok a ->
  (c1 <> CH_A /\ c2 <> CH_A) \/ rgb_power a = alpha_power a ->
  exists m m',
    compute_pixel_region_variance powf sf16_to_float a (wm, log)
    = Some (m, log ++ region_stores a m) /\
    compute_pixel_region_variance powf sf16_to_float
      (set_swz a (swap_swz c1 c2 (swz a))) (wm', log')
    = Some (m', log' ++ region_stores (set_swz a (swap_swz c1 c2 (swz a))) m') /\
    Forall2 (swapped_store c1 c2)
      (region_stores a m)
      (region_stores (set_swz a (swap_swz c1 c2 (swz a))) m').
Proof.
  intros Hok Hpow.
  assert (Hok' : region_ok (set_swz a (swap_swz c1 c2 (swz a)))) by exact Hok.
  destruct (region_spec powf sf16_to_float a wm log Hok) as (m & E & Hpix).
  destruct (region_spec powf sf16_to_float _ wm' log' Hok') as (m' & E' & Hpix').
  exists m, m'. split; [exact E|]. split; [exact E'|].
  unfold region_stores. cbn [have_z size_x size_y size_z set_swz size].
  apply Forall2_flat_map_same. intros z Hz. apply in_Zrange in Hz.
  apply Forall2_flat_map_same. intros y Hy. apply in_Zrange in Hy.
  apply Forall2_map_same. intros x Hx. apply in_Zrange in Hx.
  rewrite (Hpix z y x), (Hpix' z y x); try assumption.
  now apply window_store_swap.
Qed.

(** C8, amended, at a 4 x 4 region, for red and blue *)
Lemma C8_witness :
  (region_ok region_4x4 /\
   ((CH_R <> CH_A /\ CH_B <> CH_A) \/ rgb_power region_4x4 = alpha_power region_4x4)) /\
  exists m m',
    compute_pixel_region_variance powf_12 sf16_01 region_4x4 (mem_count, [])
    = Some (m, [] ++ region_stores region_4x4 m) /\
    compute_pixel_region_variance powf_12 sf16_01
      (set_swz region_4x4 (swap_swz CH_R CH_B (swz region_4x4))) (mem_count, [])
    = Some (m', [] ++ region_stores
                        (set_swz region_4x4 (swap_swz CH_R CH_B (swz region_4x4))) m') /\
    Forall2 (swapped_store CH_R CH_B)
      (region_stores region_4x4 m)
      (region_stores (set_swz region_4x4 (swap_swz CH_R CH_B (swz region_4x4))) m').
Proof.
  assert (H : region_ok region_4x4).
  { unfold region_ok, INT_MAX. cbn. repeat split; try lia; try discriminate. }
  assert (H' : (CH_R <> CH_A /\ CH_B <> CH_A)
               \/ rgb_power region_4x4 = alpha_power region_4x4).
  { left. split; discriminate. }
  split; [split; assumption|].
  exact (C8_swizzle_symmetry powf_12 sf16_01 region_4x4 CH_R CH_B
           mem_count mem_count [] [] H H').
Defined.

(** ** The units of work *)

(** C2, at the failing input.  A volumetric image 17 slices deep has two
    units of work.  The run claims both and returns; the second unit is
    decoded to the row offset -240, so that nothing is stored at the output
    index 16 of the last slice and 16 stores go to the indices -224 .. -209,
    before the start of the output arrays. *)
Theorem C2_deep_volume_is_not_covered :
  snd (init_compute_averages_and_variances image_deep 1%Qc 1%Qc 0 0 swz_rgba) = 2 /\
  (exists log,
     run powf_12 sf16_01 8 image_deep 1%Qc 1%Qc 0 0 swz_rgba mem_count
     = Some (mkmanager 2 2, log) /\
     map out_index log = Zrange 0 16 ++ Zrange (-224) (-208)) /\
  dim_x image_deep * dim_y image_deep * dim_z image_deep = 17 /\
  store_count (run powf_12 sf16_01 8 image_deep 1%Qc 1%Qc 0 0 swz_rgba mem_count) 16
  = O /\
  store_count (run powf_12 sf16_01 8 image_deep 1%Qc 1%Qc 0 0 swz_rgba mem_count) (-224)
  = 1%nat.
Proof.
  split; [reflexivity|].
  split; [eexists; split; [vm_compute; reflexivity|vm_compute; reflexivity]|].
  split; [reflexivity|]. split; vm_compute; reflexivity.
Qed.

(** ** Images of one colour, equal radii *)

Lemma Zf_add (x y : Z) : Zf (x + y) = (Zf x + Zf y)%Qc.
Proof.
  unfold Zf. apply Qc_is_canon. cbn [this Qcplus Q2Qc].
  rewrite !Qred_correct, inject_Z_plus. reflexivity.
Qed.

Lemma Zf_mul (x y : Z) : Zf (x * y) = (Zf x * Zf y)%Qc.
Proof.
  unfold Zf. apply Qc_is_canon. cbn [this Qcmult Q2Qc].
  rewrite !Qred_correct, inject_Z_mult. reflexivity.
Qed.

Lemma Zf_nonzero (x : Z) : x <> 0 -> Zf x <> 0%Qc.
Proof.
  intros Hx E. unfold Zf in E. apply Q2Qc_eq_iff in E.
  unfold Qeq in E. cbn in E. lia.
Qed.

Lemma sum_const (v : float4) (lo hi : Z) :
  lo <= hi -> sum (fun _ => v) lo hi = F4.scale v (Zf (hi - lo)).
Proof.
  intros H. unfold sum. rewrite <- (Z2Nat.id (hi - lo)) at 2 by lia.
  generalize (Z.to_nat (hi - lo)) as n. intros n. generalize lo as l.
  induction n as [|n IH]; intros l.
  - cbn [sum_steps]. change (Zf (Z.of_nat 0)) with 0%Qc. f4_ring.
  - cbn [sum_steps]. rewrite IH, Nat2Z.inj_succ. unfold Z.succ. rewrite Zf_add.
    change (Zf 1) with 1%Qc. f4_ring.
Qed.

Lemma sum2_const (v : float4) (yl yh xl xh : Z) :
  yl <= yh -> xl <= xh ->
  sum2 (fun _ _ => v) yl yh xl xh = F4.scale v (Zf (yh - yl) * Zf (xh - xl))%Qc.
Proof.
  intros Hy Hx. unfold sum2.
  rewrite (sum_ext _ (fun _ => F4.scale v (Zf (xh - xl))) yl yh)
    by (intros; now apply sum_const).
  rewrite sum_const by exact Hy. f4_ring.
Qed.

Lemma sum3_const (v : float4) (zl zh yl yh xl xh : Z) :
  zl <= zh -> yl <= yh -> xl <= xh ->
  sum3 (fun _ _ _ => v) zl zh yl yh xl xh
  = F4.scale v (Zf (zh - zl) * Zf (yh - yl) * Zf (xh - xl))%Qc.
Proof.
  intros Hz Hy Hx. unfold sum3.
  rewrite (sum_ext _ (fun _ => F4.scale v (Zf (yh - yl) * Zf (xh - xl))%Qc) zl zh)
    by (intros; now apply sum2_const).
  rewrite sum_const by exact Hz. f4_ring.
Qed.

(** When the two radii are equal and every load gives the colour [c], a
    region's call returns and stores, for each of its pixels, the average
    [c] and the variance 0. *)
Lemma uniform_region_equal_radii (powf : Qc -> Qc -> Qc) (sf16_to_float : Z -> Qc)
    (a : pixel_region_variance_args) (wm : mem) (log : list store) (c : float4) :
  region_ok a ->
  avg_var_kernel_radius a = alpha_kernel_radius a ->
  (forall x y z, texel powf sf16_to_float a x y z = c) ->
  exists m,
    compute_pixel_region_variance powf sf16_to_float a (wm, log)
    = Some (m, log ++ region_stores a m) /\
    forall z y x,
      0 <= z < (if have_z a then size_z a else 1) ->
      0 <= y < size_y a -> 0 <= x < size_x a ->
      average (pixel a m z y x) = c /\ variance (pixel a m z y x) = F4.zero.
Proof.
  intros Hok Heq Hc.
  destruct (region_spec powf sf16_to_float a wm log Hok) as (m & E & Hpix).
  exists m. split; [exact E|]. intros z y x Hz Hy Hx.
  rewrite (Hpix z y x Hz Hy Hx). unfold window_store. cbv zeta.
  pose proof Hok as (_ & Hr & _).
  set (r := alpha_kernel_radius a) in *.
  assert (HK : Zf (2 * r + 1) <> 0%Qc) by (apply Zf_nonzero; lia).
  assert (Hw : forall pl,
            window_sum powf sf16_to_float a (plane_value pl) r z y x
            = F4.scale (plane_value pl c) (avg_var_samples a)).
  { intros pl. unfold window_sum, avg_var_samples, avg_var_kdim. rewrite Heq. fold r.
    destruct (have_z a).
    - rewrite (sum3_ext _ (fun _ _ _ => plane_value pl c))
        by (intros; unfold sample; now rewrite Hc).
      rewrite sum3_const by lia. rewrite !Zf_mul.
      replace (z + r + 1 - (z - r)) with (2 * r + 1) by lia.
      replace (y + r + 1 - (y - r)) with (2 * r + 1) by lia.
      replace (x + r + 1 - (x - r)) with (2 * r + 1) by lia. reflexivity.
    - rewrite (sum2_ext _ (fun _ _ => plane_value pl c))
        by (intros; unfold sample; now rewrite Hc).
      rewrite sum2_const by lia. rewrite !Zf_mul.
      replace (y + r + 1 - (y - r)) with (2 * r + 1) by lia.
      replace (x + r + 1 - (x - r)) with (2 * r + 1) by lia. reflexivity. }
  rewrite !Hw. unfold emit, plane_value. cbn [average variance].
  assert (HS : avg_var_samples a <> 0%Qc).
  { unfold avg_var_samples, avg_var_kdim. rewrite Heq. fold r.
    destruct (have_z a); rewrite !Zf_mul; repeat apply Qcmult_integral_l || auto;
      intros E0; repeat (apply Qcmult_integral in E0; destruct E0 as [E0|E0]); auto. }
  unfold avg_var_rsamples, mul2. split.
  - apply f4_ext; f4_simpl; field; exact HS.
  - apply f4_ext; f4_simpl; ring.
Qed.

(** ** Coverage of an image of one slab *)

Lemma pixel_out_index (a : pixel_region_variance_args) (m : mem) (z y x : Z) :
  out_index (pixel a m z y x) = out_at a z y x.
Proof.
  unfold pixel, out_at, pixel_3d, pixel_2d. rewrite !window_eq.
  destruct (have_z a); reflexivity.
Qed.

Lemma map_flat_map {A B C : Type} (g : B -> C) (f : A -> list B) (l : list A) :
  map g (flat_map f l) = flat_map (fun x => map g (f x)) l.
Proof.
  induction l as [|x l IH]; cbn; [reflexivity|]. now rewrite map_app, IH.
Qed.

Lemma region_stores_indices (a : pixel_region_variance_args) (m : mem) :
  map out_index (region_stores a m) = region_indices a.
Proof.
  unfold region_stores, region_indices. rewrite map_flat_map.
  apply flat_map_ext. intros z. rewrite map_flat_map.
  apply flat_map_ext. intros y. rewrite map_map.
  apply map_ext. intros x. apply pixel_out_index.
Qed.

Lemma blocks_lt (k step hi : Z) :
  1 <= step -> (k * step < hi <-> k < (hi + step - 1) / step).
Proof.
  intros Hs.
  pose proof (Z.mul_div_le (hi + step - 1) step ltac:(lia)).
  pose proof (Z.mul_succ_div_gt (hi + step - 1) step ltac:(lia)).
  split; intros H1; nia.
Qed.

(** A strided loop whose body appends to a projection of the state *)
Lemma for_stride_log {St : Type} (Pre : St -> Prop) (proj : St -> list Z)
    (g : Z -> list Z) (step hi : Z) (body : Z -> St -> option St) :
  1 <= step ->
  (forall k s, 0 <= k -> k * step < hi -> Pre s ->
     exists s', body (k * step) s = Some s' /\ Pre s' /\ proj s' = proj s ++ g k) ->
  forall (fuel : nat) (k : Z) (s : St),
    0 <= k <= (hi + step - 1) / step -> Pre s ->
    (hi + step - 1) / step - k < Z.of_nat fuel ->
    exists s',
      for_stride fuel (k * step) hi step body s = Some s' /\ Pre s' /\
      proj s' = proj s ++ flat_map g (Zrange k ((hi + step - 1) / step)).
Proof.
  intros Hs Hbody. induction fuel as [|fuel IH]; intros k s Hk Hpre Hfuel.
  - lia.
  - cbn [for_stride]. destruct (Z.ltb_spec (k * step) hi) as [Hlt|Hge].
    + destruct (Hbody k s ltac:(lia) Hlt Hpre) as (s1 & E1 & Hpre1 & Hp1).
      rewrite E1. replace (k * step + step) with ((k + 1) * step) by ring.
      pose proof (proj1 (blocks_lt k step hi Hs) Hlt) as Hk'.
      destruct (IH (k + 1) s1 ltac:(lia) Hpre1 ltac:(lia)) as (s' & E & Hpre' & Hp').
      exists s'. split; [exact E|]. split; [exact Hpre'|].
      rewrite Hp', Hp1, (Zrange_cons k) by lia. cbn [flat_map].
      now rewrite app_assoc.
    + exists s. split; [reflexivity|]. split; [exact Hpre|].
      rewrite Zrange_nil; [cbn; now rewrite app_nil_r|].
      assert (~ k < (hi + step - 1) / step) by (rewrite <- blocks_lt by lia; lia).
      lia.
Qed.

Lemma uint32_small (z : Z) : 0 <= z < 2 ^ 32 -> uint32 z = z.
Proof. apply Z.mod_small. Qed.

Lemma int32_small (z : Z) : 0 <= z < 2 ^ 31 -> int32 z = z.
Proof.
  intros H. unfold int32. rewrite Z.mod_small by lia.
  destruct (Z.ltb_spec z (2 ^ 31)); lia.
Qed.

Section Coverage.

Variables (powf : Qc -> Qc -> Qc) (sf16_to_float : Z -> Qc).
Variables (im : astcenc_image) (rp ap : Qc) (avr akr : Z) (sw : astcenc_swizzle).
Hypothesis Hslab : one_slab im rp ap avr akr sw.

Local Abbreviation B := (blk_xy im).
Local Abbreviation ag := (fst (init_compute_averages_and_variances im rp ap avr akr sw)).

Lemma blk_xy_bounds : 16 <= B <= 32.
Proof. unfold blk_xy. destruct (dim_z im >? 1); lia. Qed.

Lemma dims_int :
  1 <= dim_x im <= INT_MAX /\ 1 <= dim_y im <= INT_MAX /\ 1 <= dim_z im <= 16.
Proof.
  destruct Hslab as (Hx & Hy & Hz & Hn & _).
  assert (1 <= dim_x im * dim_y im) by nia.
  assert (dim_x im * dim_y im <= dim_x im * dim_y im * dim_z im) by nia.
  assert (dim_x im <= dim_x im * dim_y im) by nia.
  assert (dim_y im <= dim_x im * dim_y im) by nia.
  lia.
Qed.

Lemma init_blk_size : blk_size ag = mkint3 B B (dim_z im).
Proof.
  pose proof dims_int as (_ & _ & Hz).
  unfold init_compute_averages_and_variances, blk_xy. cbn [fst blk_size].
  f_equal. rewrite MIN_spec. destruct (Z.gtb_spec (dim_z im) 1); lia.
Qed.

Lemma init_img_size : img_size ag = mkint3 (dim_x im) (dim_y im) (dim_z im).
Proof. reflexivity. Qed.

Lemma init_total :
  snd (init_compute_averages_and_variances im rp ap avr akr sw) = y_blocks im.
Proof.
  pose proof dims_int as (_ & Hy & Hz). pose proof blk_xy_bounds as HB.
  unfold init_compute_averages_and_variances. cbn [snd].
  assert (E : MIN (dim_z im) (if dim_z im >? 1 then 16 else 1) = dim_z im).
  { rewrite MIN_spec. destruct (Z.gtb_spec (dim_z im) 1); lia. }
  rewrite E.
  assert (E1 : Z.quot (dim_z im + dim_z im - 1) (dim_z im) = 1).
  { rewrite Z.quot_div_nonneg by lia. symmetry.
    apply (Z.div_unique _ _ 1 (dim_z im - 1)); lia. }
  rewrite E1, Z.mul_1_l. fold B. rewrite Z.quot_div_nonneg by lia.
  fold (y_blocks im). apply uint32_small. unfold y_blocks.
  pose proof (Z.div_pos (dim_y im + B - 1) B ltac:(lia) ltac:(lia)).
  assert ((dim_y im + B - 1) / B <= dim_y im + B - 1)
    by (apply Z.div_le_upper_bound; nia).
  unfold INT_MAX in Hy. lia.
Qed.

Lemma region_ok_block (j k : Z) :
  0 <= j < y_blocks im -> 0 <= k < x_blocks im -> region_ok (block_args im rp ap avr akr sw j k).
Proof.
  intros Hj Hk. pose proof dims_int as (Hx & Hy & Hz). pose proof blk_xy_bounds as HB.
  destruct Hslab as (_ & _ & _ & _ & Hr1 & Hr2 & Hwm & H32).
  assert (Hj' : j * B < dim_y im)
    by (apply (blocks_lt j B (dim_y im)); [lia|apply Hj]).
  assert (Hk' : k * B < dim_x im)
    by (apply (blocks_lt k B (dim_x im)); [lia|apply Hk]).
  unfold region_ok. cbn [avg_var_kernel_radius alpha_kernel_radius block_args img].
  repeat split; try assumption;
    try (unfold size_x, size_y, size_z; cbn [size block_args i3r i3g i3b];
         rewrite ?MIN_spec; lia).
  unfold init_compute_averages_and_variances in Hwm. cbn [fst work_memory_size] in Hwm.
  fold B in Hwm.
  assert (E : MIN (dim_z im) (if dim_z im >? 1 then 16 else 1) = dim_z im).
  { rewrite MIN_spec. destruct (Z.gtb_spec (dim_z im) 1); lia. }
  rewrite E in Hwm.
  unfold sizeprod, padsize_x, padsize_y, padsize_z, size_x, size_y, size_z, kerneldim,
    kernel_radius.
  cbn [size block_args i3r i3g i3b have_z avg_var_kernel_radius alpha_kernel_radius].
  set (K := 2 * MAX avr akr + 1) in *.
  assert (1 <= K) by (unfold K; rewrite MAX_spec; lia).
  set (PZ := dim_z im + (if dim_z im >? 1 then K else 0)) in *.
  assert (1 <= PZ) by (unfold PZ; destruct (dim_z im >? 1); lia).
  assert (1 <= MIN B (dim_x im - k * B) <= B) by (rewrite MIN_spec; lia).
  assert (1 <= MIN B (dim_y im - j * B) <= B) by (rewrite MIN_spec; lia).
  set (SX := MIN B (dim_x im - k * B)) in *. set (SY := MIN B (dim_y im - j * B)) in *.
  assert ((SX + K) * (SY + K) <= (B + K) * (B + K)) by nia.
  assert ((SX + K) * (SY + K) * PZ <= (B + K) * (B + K) * PZ) by nia.
  lia.
Qed.

Local Abbreviation a0 := (arg ag).

Lemma set_r_block (a : pixel_region_variance_args) (j k : Z) :
  same_params a a0 ->
  i3g (size a) = MIN B (dim_y im - j * B) -> i3b (size a) = dim_z im ->
  i3g (offset a) = j * B -> i3b (offset a) = 0 ->
  set_size_offset_r a (MIN B (dim_x im - k * B)) (k * B)
  = block_args im rp ap avr akr sw j k.
Proof.
  intros (H1 & H2 & H3 & H4 & H5 & H6 & H7) Hg Hb Hog Hob.
  destruct a as [i r al s h v ar [sr sg sb] [or og ob]].
  cbn in H1, H2, H3, H4, H5, H6, H7, Hg, Hb, Hog, Hob. subst.
  reflexivity.
Qed.

Lemma process_unit_spec (fuel : nat) (j : Z) (ws : worker_state) :
  0 <= j < y_blocks im -> same_params (fst ws) a0 ->
  x_blocks im < Z.of_nat fuel ->
  exists ws',
    process_unit powf sf16_to_float fuel ag (y_blocks im) j ws = Some ws' /\
    same_params (fst ws') a0 /\
    indices_of ws' = indices_of ws ++ unit_indices im rp ap avr akr sw j.
Proof.
  intros Hj Hpar Hfuel.
  pose proof dims_int as (Hx & Hy & Hz). pose proof blk_xy_bounds as HB.
  assert (Hj' : j * B < dim_y im)
    by (apply (blocks_lt j B (dim_y im)); [lia|apply Hj]).
  unfold INT_MAX in Hx, Hy.
  unfold process_unit. rewrite init_blk_size, init_img_size. cbn [i3r i3g i3b].
  assert (Ez : int32 (uint32 (j / uint32 (y_blocks im) * uint32 (dim_z im))) = 0).
  { assert (y_blocks im <= dim_y im + B - 1).
    { unfold y_blocks. apply Z.div_le_upper_bound; nia. }
    rewrite (uint32_small (y_blocks im)) by lia.
    rewrite Z.div_small by lia. reflexivity. }
  rewrite Ez.
  assert (Ey : int32 (uint32 (uint32 (j - uint32 (0 * y_blocks im)) * uint32 B)) = j * B).
  { rewrite Z.mul_0_l. change (uint32 0) with 0. rewrite Z.sub_0_r.
    rewrite (uint32_small j), (uint32_small B) by lia.
    rewrite uint32_small, int32_small; lia. }
  rewrite Ey, Z.sub_0_r.
  assert (Emin : MIN (dim_z im) (dim_z im) = dim_z im) by (rewrite MIN_spec; lia).
  rewrite Emin.
  set (Pre := fun s : worker_state =>
    same_params (fst s) a0 /\
    i3g (size (fst s)) = MIN B (dim_y im - j * B) /\ i3b (size (fst s)) = dim_z im /\
    i3g (offset (fst s)) = j * B /\ i3b (offset (fst s)) = 0).
  destruct (for_stride_log Pre indices_of
              (fun k => region_indices (block_args im rp ap avr akr sw j k))
              B (dim_x im)
              (fun x ws0 =>
                 let a := set_size_offset_r (fst ws0) (MIN B (dim_x im - x)) x in
                 st <- compute_pixel_region_variance powf sf16_to_float a (snd ws0) ;;
                 Some (a, st))
              ltac:(lia)) with (fuel := fuel) (k := 0)
      (s := (set_size_offset_g (set_size_offset_b (fst ws) (dim_z im) 0)
                               (MIN B (dim_y im - j * B)) (j * B), snd ws))
    as (ws' & E & Hpre' & Hidx).
  - intros k s Hk Hlt (Hp & Hg & Hb & Hog & Hob). cbv zeta.
    rewrite (set_r_block (fst s) j k Hp Hg Hb Hog Hob).
    assert (Hkb : 0 <= k < x_blocks im).
    { split; [lia|]. apply (blocks_lt k B (dim_x im)); lia. }
    destruct (snd s) as [wm log] eqn:Es.
    destruct (region_spec powf sf16_to_float _ wm log (region_ok_block j k Hj Hkb))
      as (m & Er & _).
    rewrite Er. eexists. split; [reflexivity|]. split.
    + unfold Pre. cbn. repeat split; apply Hp.
    + unfold indices_of. cbn [snd]. rewrite Es. cbn [snd].
      now rewrite map_app, region_stores_indices.
  - unfold x_blocks in Hfuel.
    pose proof (Z.div_pos (dim_x im + B - 1) B ltac:(lia) ltac:(lia)). lia.
  - unfold Pre. cbn. repeat split; apply Hpar.
  - unfold x_blocks in Hfuel. lia.
  - exists ws'. rewrite Z.mul_0_l in E. split; [exact E|]. split; [apply Hpre'|].
    exact Hidx.
Qed.

Lemma processing_loop_spec (fuel : nat) (b : Z) (ws : worker_state) :
  0 <= b <= y_blocks im -> same_params (fst ws) a0 ->
  x_blocks im + (y_blocks im - b) < Z.of_nat fuel ->
  exists ws',
    processing_loop powf sf16_to_float fuel ag (y_blocks im)
      (mkmanager b (y_blocks im)) ws
    = Some (mkmanager (y_blocks im) (y_blocks im), ws') /\
    indices_of ws'
    = indices_of ws ++ flat_map (unit_indices im rp ap avr akr sw) (Zrange b (y_blocks im)).
Proof.
  revert b ws. induction fuel as [|fuel IH]; intros b ws Hb Hpar Hfuel.
  - assert (0 <= x_blocks im).
    { unfold x_blocks. pose proof dims_int. pose proof blk_xy_bounds.
      apply Z.div_pos; lia. }
    lia.
  - assert (Hxb : 0 <= x_blocks im).
    { unfold x_blocks. pose proof dims_int. pose proof blk_xy_bounds.
      apply Z.div_pos; lia. }
    cbn [processing_loop get_task_assignment start_count task_count].
    rewrite MAX_spec, MIN_spec.
    destruct (Z.eq_dec b (y_blocks im)) as [->|Hne].
    + replace (Z.max 0 (Z.min 1 (y_blocks im - y_blocks im))) with 0 by lia.
      cbn [Z.eqb]. rewrite Z.add_0_r. exists ws. split; [reflexivity|].
      rewrite Zrange_nil by lia. cbn. now rewrite app_nil_r.
    + replace (Z.max 0 (Z.min 1 (y_blocks im - b))) with 1 by lia.
      cbn [Z.eqb].
      destruct (process_unit_spec fuel b ws ltac:(lia) Hpar ltac:(lia))
        as (ws1 & E1 & Hpar1 & Hidx1).
      rewrite E1.
      destruct (IH (b + 1) ws1 ltac:(lia) Hpar1 ltac:(lia)) as (ws' & E & Hidx).
      exists ws'. split; [exact E|].
      rewrite Hidx, Hidx1, (Zrange_cons b) by lia. cbn [flat_map].
      now rewrite app_assoc.
Qed.

(** A run over an image of one slab returns with all units claimed, and its
    stores go to [run_indices]. *)
Lemma run_one_slab (fuel : nat) (wm : mem) :
  x_blocks im + y_blocks im < Z.of_nat fuel ->
  exists log,
    run powf sf16_to_float fuel im rp ap avr akr sw wm
    = Some (mkmanager (y_blocks im) (y_blocks im), log) /\
    map out_index log = run_indices im rp ap avr akr sw.
Proof.
  intros Hfuel. pose proof dims_int as (Hx & Hy & Hz). pose proof blk_xy_bounds as HB.
  unfold run.
  rewrite (surjective_pairing (init_compute_averages_and_variances im rp ap avr akr sw)).
  rewrite init_total. unfold compute_averages_and_variances.
  rewrite init_blk_size, init_img_size. cbn [i3g].
  rewrite Z.quot_div_nonneg by lia. fold (y_blocks im).
  assert (Hyb : 0 <= y_blocks im).
  { unfold y_blocks. apply Z.div_pos; lia. }
  destruct (processing_loop_spec fuel 0 (a0, (wm, [])) ltac:(lia)) as (ws' & E & Hidx).
  - cbn [fst]. repeat split.
  - lia.
  - rewrite E. cbn [fst snd]. eexists. split; [reflexivity|].
    unfold indices_of in Hidx. cbn in Hidx. exact Hidx.
Qed.

End Coverage.

(** ** Lists without repetition *)

Lemma NoDup_map_inj {A B : Type} (f : A -> B) (l : list A) :
  NoDup l -> (forall a b, In a l -> In b l -> f a = f b -> a = b) -> NoDup (map f l).
Proof.
  induction 1 as [|a l Hnin Hnd IH]; intros Hinj; cbn; constructor.
  - intros Hin. apply in_map_iff in Hin. destruct Hin as (b & E & Hb).
    apply Hnin. rewrite <- (Hinj b a); cbn; auto.
  - apply IH. intros; apply Hinj; cbn; auto.
Qed.

Lemma NoDup_flat_map {A B : Type} (f : A -> list B) (l : list A) :
  NoDup l -> (forall a, In a l -> NoDup (f a)) ->
  (forall a b i, In a l -> In b l -> In i (f a) -> In i (f b) -> a = b) ->
  NoDup (flat_map f l).
Proof.
  induction 1 as [|a l Hnin Hnd IH]; intros Hf Hdis; cbn; [constructor|].
  apply NoDup_app; [apply Hf; cbn; auto| |].
  - apply IH; [intros; apply Hf; cbn; auto|].
    intros b c i Hb Hc. apply Hdis; cbn; auto.
  - intros i Hi Hi'. apply in_flat_map in Hi'. destruct Hi' as (b & Hb & Hib).
    apply Hnin. rewrite (Hdis a b i); cbn; auto.
Qed.

Lemma NoDup_Zrange (lo hi : Z) : NoDup (Zrange lo hi).
Proof.
  unfold Zrange. apply NoDup_map_inj; [apply seq_NoDup|]. intros; lia.
Qed.

Lemma count_NoDup (l : list Z) (i : Z) :
  NoDup l ->
  (In i l -> length (filter (fun v => v =? i) l) = 1%nat) /\
  (~ In i l -> length (filter (fun v => v =? i) l) = 0%nat).
Proof.
  induction 1 as [|a l Hnin Hnd IH]; cbn.
  - split; [contradiction|reflexivity].
  - destruct IH as [IH1 IH0]. destruct (Z.eqb_spec a i) as [->|Hne]; cbn.
    + split; [intros _; now rewrite IH0|]. intros H. exfalso. auto.
    + split; [intros [?|Hi]; [contradiction|auto]|]. intros H. apply IH0. auto.
Qed.

Lemma filter_out_index (log : list store) (i : Z) :
  length (filter (fun st => out_index st =? i) log)
  = length (filter (fun v => v =? i) (map out_index log)).
Proof.
  induction log as [|st log IH]; cbn; [reflexivity|].
  destruct (out_index st =? i); cbn; now rewrite IH.
Qed.

(** *** Enumerations of a box *)

Section Box.

Variable f : Z -> Z -> Z -> Z.
Variables nz ny nx : Z.

Lemma in_box_list (i : Z) :
  In i (flat_map (fun z => flat_map (fun y => map (fun x => f z y x) (Zrange 0 nx))
                                    (Zrange 0 ny)) (Zrange 0 nz))
  <-> exists z y x, 0 <= z < nz /\ 0 <= y < ny /\ 0 <= x < nx /\ i = f z y x.
Proof.
  rewrite in_flat_map. split.
  - intros (z & Hz & H). apply in_flat_map in H. destruct H as (y & Hy & H).
    apply in_map_iff in H. destruct H as (x & E & Hx).
    apply in_Zrange in Hz, Hy, Hx. exists z, y, x. auto.
  - intros (z & y & x & Hz & Hy & Hx & ->). exists z. split; [now apply in_Zrange|].
    apply in_flat_map. exists y. split; [now apply in_Zrange|].
    apply in_map_iff. exists x. split; [reflexivity|now apply in_Zrange].
Qed.

Lemma NoDup_box_list :
  (forall z y x z' y' x',
     0 <= z < nz -> 0 <= y < ny -> 0 <= x < nx ->
     0 <= z' < nz -> 0 <= y' < ny -> 0 <= x' < nx ->
     f z y x = f z' y' x' -> z = z' /\ y = y' /\ x = x') ->
  NoDup (flat_map (fun z => flat_map (fun y => map (fun x => f z y x) (Zrange 0 nx))
                                     (Zrange 0 ny)) (Zrange 0 nz)).
Proof.
  intros Hinj. apply NoDup_flat_map; [apply NoDup_Zrange| |].
  - intros z Hz. apply in_Zrange in Hz.
    apply NoDup_flat_map; [apply NoDup_Zrange| |].
    + intros y Hy. apply in_Zrange in Hy.
      apply NoDup_map_inj; [apply NoDup_Zrange|].
      intros x x' Hx Hx' E. apply in_Zrange in Hx, Hx'.
      now apply (Hinj z y x z y x').
    + intros y y' i Hy Hy' Hi Hi'. apply in_Zrange in Hy, Hy'.
      apply in_map_iff in Hi, Hi'.
      destruct Hi as (x & <- & Hx), Hi' as (x' & E & Hx').
      apply in_Zrange in Hx, Hx'. symmetry in E.
      now apply (Hinj z y x z y' x').
  - intros z z' i Hz Hz' Hi Hi'. apply in_Zrange in Hz, Hz'.
    apply in_flat_map in Hi, Hi'.
    destruct Hi as (y & Hy & Hi), Hi' as (y' & Hy' & Hi').
    apply in_Zrange in Hy, Hy'. apply in_map_iff in Hi, Hi'.
    destruct Hi as (x & <- & Hx), Hi' as (x' & E & Hx').
    apply in_Zrange in Hx, Hx'. symmetry in E.
    now apply (Hinj z y x z' y' x').
Qed.

End Box.

(** *** The indices of a run *)

Section Cover.

Variables (im : astcenc_image) (rp ap : Qc) (avr akr : Z) (sw : astcenc_swizzle).
Hypothesis Hslab : one_slab im rp ap avr akr sw.

Local Abbreviation B := (blk_xy im).
Local Abbreviation blk := (block_args im rp ap avr akr sw).

Lemma slices : (if dim_z im >? 1 then dim_z im else 1) = dim_z im.
Proof.
  pose proof (dims_int im rp ap avr akr sw Hslab) as (_ & _ & Hz).
  destruct (Z.gtb_spec (dim_z im) 1); lia.
Qed.

Lemma out_at_block (j k z y x : Z) :
  0 <= z < dim_z im ->
  out_at (blk j k) z y x = image_index im (x + k * B) (y + j * B) z.
Proof.
  intros Hz. unfold out_at, image_index, zdt, ydt, offset_x, offset_y, offset_z.
  cbn [have_z block_args offset img i3r i3g i3b].
  destruct (Z.gtb_spec (dim_z im) 1); [ring|].
  assert (z = 0) as -> by lia. ring.
Qed.

Lemma in_block (j k i : Z) :
  In i (region_indices (blk j k)) <-> exists z y x, block_pixel im j k z y x i.
Proof.
  unfold region_indices. rewrite in_box_list.
  unfold size_x, size_y, size_z. cbn [have_z block_args size i3r i3g i3b].
  rewrite slices. unfold block_pixel.
  split; intros (z & y & x & Hz & Hy & Hx & ->); exists z, y, x;
    repeat split; try lia; [|symmetry]; now apply out_at_block.
Qed.

Lemma block_pixel_unique (j k z y x j' k' z' y' x' i : Z) :
  0 <= j -> 0 <= k -> 0 <= j' -> 0 <= k' ->
  block_pixel im j k z y x i -> block_pixel im j' k' z' y' x' i ->
  j = j' /\ k = k' /\ z = z' /\ y = y' /\ x = x'.
Proof.
  intros Hj Hk Hj' Hk' (Hz & Hy & Hx & E) (Hz' & Hy' & Hx' & E').
  pose proof (blk_xy_bounds im) as HB.
  rewrite MIN_spec in Hy, Hx, Hy', Hx'.
  rewrite E in E'. unfold image_index in E'.
  apply idx_inj in E'; [|lia..]. destruct E' as (Ez & Ey & Ex).
  destruct (radix_inj B j y j' y') as [? ?]; [lia..|].
  destruct (radix_inj B k x k' x') as [? ?]; [lia..|].
  auto.
Qed.

Lemma NoDup_block (j k : Z) :
  0 <= j -> 0 <= k -> NoDup (region_indices (blk j k)).
Proof.
  intros Hj Hk. unfold region_indices. apply NoDup_box_list.
  unfold size_x, size_y, size_z. cbn [have_z block_args size i3r i3g i3b].
  rewrite slices. intros z y x z' y' x' Hz Hy Hx Hz' Hy' Hx' E.
  rewrite !out_at_block in E by assumption.
  destruct (block_pixel_unique j k z y x j k z' y' x'
              (image_index im (x + k * B) (y + j * B) z)) as (_ & _ & ? & ? & ?);
    auto; unfold block_pixel; auto.
Qed.

Lemma in_unit (j i : Z) :
  In i (unit_indices im rp ap avr akr sw j)
  <-> exists k z y x, 0 <= k < x_blocks im /\ block_pixel im j k z y x i.
Proof.
  unfold unit_indices. rewrite in_flat_map. split.
  - intros (k & Hk & H). apply in_Zrange in Hk. apply in_block in H.
    destruct H as (z & y & x & H). exists k, z, y, x. auto.
  - intros (k & z & y & x & Hk & H). exists k. split; [now apply in_Zrange|].
    apply in_block. eauto.
Qed.

Lemma NoDup_unit (j : Z) : 0 <= j -> NoDup (unit_indices im rp ap avr akr sw j).
Proof.
  intros Hj. unfold unit_indices. apply NoDup_flat_map; [apply NoDup_Zrange| |].
  - intros k Hk. apply in_Zrange in Hk. apply NoDup_block; lia.
  - intros k k' i Hk Hk' Hi Hi'. apply in_Zrange in Hk, Hk'.
    apply in_block in Hi, Hi'.
    destruct Hi as (z & y & x & H), Hi' as (z' & y' & x' & H').
    destruct (block_pixel_unique j k z y x j k' z' y' x' i) as (_ & ? & _);
      auto; lia.
Qed.

Lemma in_run (i : Z) :
  In i (run_indices im rp ap avr akr sw)
  <-> exists j k z y x,
        0 <= j < y_blocks im /\ 0 <= k < x_blocks im /\ block_pixel im j k z y x i.
Proof.
  unfold run_indices. rewrite in_flat_map. split.
  - intros (j & Hj & H). apply in_Zrange in Hj. apply in_unit in H.
    destruct H as (k & z & y & x & Hk & H). exists j, k, z, y, x.
    split; [exact Hj|]. split; [exact Hk|exact H].
  - intros (j & k & z & y & x & Hj & Hk & H). exists j. split; [now apply in_Zrange|].
    apply in_unit. exists k, z, y, x. split; assumption.
Qed.

Lemma NoDup_run : NoDup (run_indices im rp ap avr akr sw).
Proof.
  unfold run_indices. apply NoDup_flat_map; [apply NoDup_Zrange| |].
  - intros j Hj. apply in_Zrange in Hj. apply NoDup_unit; lia.
  - intros j j' i Hj Hj' Hi Hi'. apply in_Zrange in Hj, Hj'.
    apply in_unit in Hi, Hi'.
    destruct Hi as (k & z & y & x & Hk & H), Hi' as (k' & z' & y' & x' & Hk' & H').
    destruct (block_pixel_unique j k z y x j' k' z' y' x' i) as (? & _);
      auto; lia.
Qed.

(** The indices of a run are the indices of the output arrays. *)
Lemma in_run_iff (i : Z) :
  In i (run_indices im rp ap avr akr sw)
  <-> 0 <= i < dim_x im * dim_y im * dim_z im.
Proof.
  pose proof (dims_int im rp ap avr akr sw Hslab) as (Hx & Hy & Hz).
  pose proof (blk_xy_bounds im) as HB. rewrite in_run. split.
  - intros (j & k & z & y & x & Hj & Hk & Hzr & Hyr & Hxr & ->).
    rewrite MIN_spec in Hyr, Hxr. unfold image_index.
    apply idx_range; lia.
  - intros Hi.
    set (P := dim_x im * dim_y im) in *.
    assert (HP : 1 <= P) by (unfold P; nia).
    pose proof (Z.div_mod i P ltac:(lia)) as E1.
    pose proof (Z.mod_pos_bound i P ltac:(lia)) as R1.
    pose proof (Z.div_mod (i mod P) (dim_x im) ltac:(lia)) as E2.
    pose proof (Z.mod_pos_bound (i mod P) (dim_x im) ltac:(lia)) as R2.
    set (zz := i / P) in *. set (r := i mod P) in *.
    set (yy := r / dim_x im) in *. set (xx := r mod dim_x im) in *.
    assert (Hzz : 0 <= zz < dim_z im).
    { split; [apply Z.div_pos; lia|]. apply Z.div_lt_upper_bound; lia. }
    assert (Hyy : 0 <= yy < dim_y im).
    { split; [apply Z.div_pos; lia|]. apply Z.div_lt_upper_bound; unfold P in R1; lia. }
    pose proof (Z.div_mod yy B ltac:(lia)) as E3.
    pose proof (Z.mod_pos_bound yy B ltac:(lia)) as R3.
    pose proof (Z.div_mod xx B ltac:(lia)) as E4.
    pose proof (Z.mod_pos_bound xx B ltac:(lia)) as R4.
    assert (0 <= yy / B) by (apply Z.div_pos; lia).
    assert (0 <= xx / B) by (apply Z.div_pos; lia).
    exists (yy / B), (xx / B), zz, (yy mod B), (xx mod B).
    split; [split; [lia|apply (blocks_lt (yy / B) B (dim_y im)); lia]|].
    split; [split; [lia|apply (blocks_lt (xx / B) B (dim_x im)); lia]|].
    unfold block_pixel, image_index. rewrite !MIN_spec. fold P.
    repeat split; lia.
Qed.

End Cover.

(** For an image of one slab (all 2D images, and volumes of at most 16
    slices) a run returns with every unit claimed and stores exactly once
    to every index of the output arrays, and nowhere else. *)
Lemma one_slab_coverage (powf : Qc -> Qc -> Qc) (sf16_to_float : Z -> Qc)
    (im : astcenc_image) (rp ap : Qc) (avr akr : Z) (sw : astcenc_swizzle)
    (fuel : nat) (wm : mem) :
  one_slab im rp ap avr akr sw ->
  x_blocks im + y_blocks im < Z.of_nat fuel ->
  exists log,
    run powf sf16_to_float fuel im rp ap avr akr sw wm
    = Some (mkmanager (y_blocks im) (y_blocks im), log) /\
    forall i,
      store_count (run powf sf16_to_float fuel im rp ap avr akr sw wm) i
      = if (0 <=? i) && (i <? dim_x im * dim_y im * dim_z im) then 1%nat else 0%nat.
Proof.
  intros Hslab Hfuel.
  destruct (run_one_slab powf sf16_to_float im rp ap avr akr sw Hslab fuel wm Hfuel)
    as (log & E & Hidx).
  exists log. split; [exact E|]. intros i. rewrite E. unfold store_count.
  rewrite filter_out_index, Hidx.
  destruct (count_NoDup (run_indices im rp ap avr akr sw) i
              (NoDup_run im rp ap avr akr sw Hslab)) as [H1 H0].
  pose proof (in_run_iff im rp ap avr akr sw Hslab i) as Hin.
  destruct (Z.leb_spec 0 i); destruct (Z.ltb_spec i (dim_x im * dim_y im * dim_z im));
    cbn [andb]; try (apply H1, Hin; lia); apply H0; rewrite Hin; lia.
Qed.

(** * Further properties *)

(** ** The prefix sum *)

(** X1.  [brent_kung_prefix_sum] writes the strided elements only: it
    returns, and every address that is not [d + i * stride] for an
    [i < items] holds what it held before, the elements between two strided
    positions and those past the last item included. *)
Theorem prefix_sum_writes_strided_only (m : mem) (d items stride : Z) :
  0 <= items -> 1 <= stride -> items * stride <= INT_MAX ->
  exists m',
    brent_kung_prefix_sum m d items stride = Some m' /\
    forall p, (forall i, 0 <= i < items -> p <> d + i * stride) -> m' p = m p.
Proof.
  intros Hit Hst Hr.
  destruct (brent_kung_prefix_sum_spec m d items stride Hit Hst Hr) as (m' & E & _ & Hfr).
  exists m'. split; [exact E|exact Hfr].
Qed.

(** X1 at an array of 5 items at stride 3 *)
Lemma prefix_sum_writes_strided_only_witness :
  (0 <= 5 /\ 1 <= 3 /\ 5 * 3 <= INT_MAX) /\
  exists m',
    brent_kung_prefix_sum mem_count 7 5 3 = Some m' /\
    forall p, (forall i, 0 <= i < 5 -> p <> 7 + i * 3) -> m' p = mem_count p.
Proof.
  split; [unfold INT_MAX; lia|].
  apply (prefix_sum_writes_strided_only mem_count 7 5 3); unfold INT_MAX; lia.
Defined.

(** X2.  In exact arithmetic (the floats taken as rationals, no rounding)
    the prefix sum can be undone: after the call the first element is as it
    was, and the difference of two consecutive elements is the original
    value of the second. *)
Theorem prefix_sum_differences (m : mem) (d items stride : Z) :
  0 <= items -> 1 <= stride -> items * stride <= INT_MAX ->
  exists m',
    brent_kung_prefix_sum m d items stride = Some m' /\
    (0 < items -> m' d = m d) /\
    forall i, 1 <= i < items ->
      m' (d + i * stride) -^ m' (d + (i - 1) * stride) = m (d + i * stride).
Proof.
  intros Hit Hst Hr.
  destruct (brent_kung_prefix_sum_spec m d items stride Hit Hst Hr) as (m' & E & Hs & _).
  exists m'. split; [exact E|]. split.
  - intros Hpos. pose proof (Hs 0 ltac:(lia)) as H0.
    rewrite Z.mul_0_l, Z.add_0_r in H0. rewrite H0.
    rewrite (sum_one _ 0). now rewrite Z.mul_0_l, Z.add_0_r.
  - intros i Hi. rewrite (Hs i ltac:(lia)), (Hs (i - 1) ltac:(lia)).
    replace (i - 1 + 1) with i by lia.
    rewrite (sum_last _ 0 (i + 1)) by lia.
    replace (i + 1 - 1) with i by lia. f4_ring.
Qed.

(** X2 at an array of 5 items at stride 3 *)
Lemma prefix_sum_differences_witness :
  (0 <= 5 /\ 1 <= 3 /\ 5 * 3 <= INT_MAX) /\
  exists m',
    brent_kung_prefix_sum mem_count 7 5 3 = Some m' /\
    (0 < 5 -> m' 7 = mem_count 7) /\
    forall i, 1 <= i < 5 ->
      m' (7 + i * 3) -^ m' (7 + (i - 1) * 3) = mem_count (7 + i * 3).
Proof.
  split; [unfold INT_MAX; lia|].
  apply (prefix_sum_differences mem_count 7 5 3); unfold INT_MAX; lia.
Defined.

(** X3.  The reduction tree alone: for two items or more the first loop
    returns with [lc_stride] the least power of two above [items], and it
    has left, in the last element of every block of [2^j] elements that
    starts at an even multiple of [2^j] (and of the one block of the top
    level), the sum of the block, the sum taken in exact arithmetic (the
    floats as rationals, no rounding); nothing outside the array is
    written. *)
Theorem reduction_tree_block_sums (m : mem) (d items stride : Z) :
  2 <= items -> 1 <= stride -> items * stride <= INT_MAX ->
  exists K m1,
    reduction_tree tree_fuel d items stride 2 1 m = Some (2 ^ (K + 1), K + 1, m1) /\
    2 ^ K <= items < 2 ^ (K + 1) /\
    (forall j q, 0 <= j <= K -> 1 <= q -> q * 2 ^ j <= items ->
       Z.odd q = true \/ j = K ->
       m1 (d + (q * 2 ^ j - 1) * stride)
       = sum (fun k => m (d + k * stride)) ((q - 1) * 2 ^ j) (q * 2 ^ j)) /\
    (forall p, (forall i, 0 <= i < items -> p <> d + i * stride) -> m1 p = m p).
Proof.
  intros Hit Hst Hr.
  assert (Hfuel : 30 < Z.of_nat tree_fuel + 1) by (unfold tree_fuel; lia).
  destruct (reduction_tree_spec d items stride m Hst Hr tree_fuel 1 m
              ltac:(lia) ltac:(lia) Hfuel (reduced_0 d items stride m))
    as (K & m1 & E1 & HK & Hb & Hfr & Hred).
  exists K, m1. change (2 ^ 1) with 2 in E1.
  split; [exact E1|]. split; [exact Hb|]. split; [exact Hred|exact Hfr].
Qed.

(** X3 at an array of 5 items at stride 3 *)
Lemma reduction_tree_block_sums_witness :
  (2 <= 5 /\ 1 <= 3 /\ 5 * 3 <= INT_MAX) /\
  exists K m1,
    reduction_tree tree_fuel 7 5 3 2 1 mem_count = Some (2 ^ (K + 1), K + 1, m1) /\
    2 ^ K <= 5 < 2 ^ (K + 1) /\
    (forall j q, 0 <= j <= K -> 1 <= q -> q * 2 ^ j <= 5 ->
       Z.odd q = true \/ j = K ->
       m1 (7 + (q * 2 ^ j - 1) * 3)
       = sum (fun k => mem_count (7 + k * 3)) ((q - 1) * 2 ^ j) (q * 2 ^ j)) /\
    (forall p, (forall i, 0 <= i < 5 -> p <> 7 + i * 3) -> m1 p = mem_count p).
Proof.
  split; [unfold INT_MAX; lia|].
  apply (reduction_tree_block_sums mem_count 7 5 3); unfold INT_MAX; lia.
Defined.

(** ** What a region writes *)

Lemma confined_weaken (P Q : Z -> Prop) (c : mem -> option mem) :
  (forall p, P p -> Q p) -> confined P c -> confined Q c.
Proof. intros HPQ Hc m m' E p Hp. apply (Hc m m' E). intros H. apply Hp, HPQ, H. Qed.

Lemma confined_ret (P : Z -> Prop) : confined P Some.
Proof. intros m m' E p _. congruence. Qed.

Lemma confined_bind (P : Z -> Prop) (c1 c2 : mem -> option mem) :
  confined P c1 -> confined P c2 -> confined P (fun m => m1 <- c1 m ;; c2 m1).
Proof.
  intros H1 H2 m m' E p Hp. cbv beta in E.
  destruct (c1 m) as [m1|] eqn:E1; [|discriminate].
  rewrite (H2 m1 m' E p Hp). apply (H1 m m1 E1 p Hp).
Qed.

Lemma confined_for (P : Z -> Prop) (hi : Z) (body : Z -> mem -> option mem) (lo : Z) :
  (forall i, lo <= i < hi -> confined P (body i)) ->
  confined P (for_loop lo hi body).
Proof.
  pattern lo. apply (for_loop_ind hi); clear lo.
  - intros lo Hlo _ m m' E. rewrite for_loop_empty in E by lia.
    now apply (confined_ret P m m').
  - intros lo Hlo IH Hbody m m' E. rewrite for_loop_step in E by lia.
    apply (confined_bind P (body lo) (for_loop (lo + 1) hi body)); [..|exact E].
    + apply Hbody. lia.
    + apply IH. intros i Hi. apply Hbody. lia.
Qed.

Lemma confined_store2 (P : Z -> Prop) (p1 p2 : Z) (v1 v2 : float4) :
  P p1 -> P p2 -> confined P (fun m => Some (upd (upd m p1 v1) p2 v2)).
Proof.
  intros H1 H2 m m' E p Hp. injection E as <-.
  rewrite !upd_other; [reflexivity|..]; intros ->; now apply Hp.
Qed.

Lemma confined_prefix_sum (P : Z -> Prop) (d items stride : Z) :
  0 <= items -> 1 <= stride -> items * stride <= INT_MAX ->
  (forall i, 0 <= i < items -> P (d + i * stride)) ->
  confined P (fun m => brent_kung_prefix_sum m d items stride).
Proof.
  intros Hit Hst Hr HP m m' E p Hp.
  destruct (brent_kung_prefix_sum_spec m d items stride Hit Hst Hr) as (m1 & E1 & _ & Hfr).
  rewrite E in E1. injection E1 as <-. apply Hfr.
  intros i Hi ->. apply Hp, HP, Hi.
Qed.

Section Confinement.

Variable powf : Qc -> Qc -> Qc.
Variable sf16_to_float : Z -> Qc.
Variable a : pixel_region_variance_args.
Hypothesis Hok : region_ok a.

(** The two work buffers: the indices [0 .. 2 * sizeprod - 1] *)
Local Abbreviation buffers := (fun p => 0 <= p < 2 * sizeprod a).

Lemma cell_in_buffers (pl : bool) (z y x : Z) :
  in_box a z y x -> buffers (cell a pl z y x).
Proof.
  intros B. pose proof (cell_range a pl z y x B) as R. cbv beta.
  destruct pl; lia.
Qed.

Lemma load_buffers_confined : confined buffers (load_buffers powf sf16_to_float a).
Proof.
  pose proof (padsize_bounds a Hok) as Hp. unfold load_buffers.
  apply confined_for; intros z Hz. apply confined_for; intros y Hy.
  apply confined_for; intros x Hx. cbv zeta.
  intros m m' E. destruct (load_texel _ _ _ _ _ _) as [d|]; [|discriminate].
  revert E. apply (confined_store2 buffers _ _ d (d *^ d)).
  - rewrite VARBUF1_cell. apply cell_in_buffers. unfold in_box. lia.
  - rewrite VARBUF2_cell. apply cell_in_buffers. unfold in_box. lia.
Qed.

Lemma pad_zero_confined : confined buffers (pad_zero a).
Proof.
  pose proof (padsize_bounds a Hok) as Hp. unfold pad_zero. cbv zeta.
  assert (Hst : forall z y x, in_box a z y x ->
            confined buffers (fun m =>
              Some (upd (upd m (VARBUF1 a z y x) (F4.splat 0%Qc))
                        (VARBUF2 a z y x) (F4.splat 0%Qc)))).
  { intros z y x B. apply confined_store2.
    - rewrite VARBUF1_cell. now apply cell_in_buffers.
    - rewrite VARBUF2_cell. now apply cell_in_buffers. }
  apply (confined_bind buffers).
  - apply confined_for; intros z Hz. apply (confined_bind buffers).
    + apply confined_for; intros y Hy. apply Hst. unfold in_box. lia.
    + apply confined_for; intros x Hx. apply Hst. unfold in_box. lia.
  - destruct (have_z a) eqn:Ez; [|apply confined_ret].
    apply confined_for; intros y Hy. apply confined_for; intros x Hx.
    apply Hst. unfold in_box, zd_start in *. rewrite Ez in Hp. lia.
Qed.

Lemma summed_area_tables_confined : confined buffers (summed_area_tables a).
Proof.
  pose proof (padsize_bounds a Hok) as Hp.
  pose proof (buffer_bounds a Hok) as (Bx & By & Bz).
  assert (Sx : size_t (padsize_x a - 1) = padsize_x a - 1)
    by (apply size_t_small; unfold INT_MAX in Bx; lia).
  assert (Sy : size_t (padsize_y a - 1) = padsize_y a - 1).
  { apply size_t_small. unfold INT_MAX, yst in By. nia. }
  assert (Sz : have_z a = true -> size_t (padsize_z a - 1) = padsize_z a - 1).
  { intros Ez. apply size_t_small. unfold INT_MAX, zst in Bz.
    assert (1 <= padsize_x a * padsize_y a) by nia. nia. }
  unfold summed_area_tables.
  apply (confined_bind buffers); [|apply (confined_bind buffers)].
  - unfold prefix_sums_x. rewrite Sx.
    apply confined_for; intros z Hz. apply confined_for; intros y Hy.
    apply (confined_bind buffers); apply confined_prefix_sum; try lia; intros i Hi.
    + replace (VARBUF1 a z y 1 + i * 1) with (cell a false z y (1 + i))
        by (unfold VARBUF1, cell; lia).
      apply cell_in_buffers. unfold in_box. lia.
    + replace (VARBUF2 a z y 1 + i * 1) with (cell a true z y (1 + i))
        by (unfold VARBUF2, cell; lia).
      apply cell_in_buffers. unfold in_box. lia.
  - unfold prefix_sums_y. rewrite Sy.
    apply confined_for; intros z Hz. apply confined_for; intros x Hx.
    apply (confined_bind buffers); apply confined_prefix_sum;
      try lia; try (unfold yst; lia); intros i Hi.
    + replace (VARBUF1 a z 1 x + i * yst a) with (cell a false z (1 + i) x)
        by (unfold VARBUF1, cell; lia).
      apply cell_in_buffers. unfold in_box. lia.
    + replace (VARBUF2 a z 1 x + i * yst a) with (cell a true z (1 + i) x)
        by (unfold VARBUF2, cell; lia).
      apply cell_in_buffers. unfold in_box. lia.
  - destruct (have_z a) eqn:Ez; [|apply confined_ret].
    unfold prefix_sums_z. rewrite (Sz eq_refl).
    assert (Hzd : zd_start a = 1) by (unfold zd_start; now rewrite Ez).
    apply confined_for; intros y Hy. apply confined_for; intros x Hx.
    apply (confined_bind buffers); apply confined_prefix_sum;
      try lia; try (unfold zst; nia); intros i Hi.
    + replace (VARBUF1 a 1 y x + i * zst a) with (cell a false (1 + i) y x)
        by (unfold VARBUF1, cell; lia).
      apply cell_in_buffers. unfold in_box. lia.
    + replace (VARBUF2 a 1 y x + i * zst a) with (cell a true (1 + i) y x)
        by (unfold VARBUF2, cell; lia).
      apply cell_in_buffers. unfold in_box. lia.
Qed.

Lemma region_confined (wm m : mem) (log log' : list store) :
  compute_pixel_region_variance powf sf16_to_float a (wm, log) = Some (m, log') ->
  forall p, ~ buffers p -> m p = wm p.
Proof.
  unfold compute_pixel_region_variance. cbn [fst snd]. intros E p Hp.
  destruct (load_buffers powf sf16_to_float a wm) as [m1|] eqn:E1; [|discriminate].
  destruct (pad_zero a m1) as [m2|] eqn:E2; [|discriminate].
  destruct (summed_area_tables a m2) as [m3|] eqn:E3; [|discriminate].
  destruct (extract a m3 log) as [l|]; [|discriminate].
  injection E as <- _.
  rewrite (summed_area_tables_confined m2 m3 E3 p Hp).
  rewrite (pad_zero_confined m1 m2 E2 p Hp).
  apply (load_buffers_confined wm m1 E1 p Hp).
Qed.

End Confinement.

(** ** The stores of a region do not depend on the work memory *)

Lemma flat_map_ext_in {A B : Type} (f g : A -> list B) (l : list A) :
  (forall x, In x l -> f x = g x) -> flat_map f l = flat_map g l.
Proof.
  induction l as [|x l IH]; intros H; [reflexivity|]. cbn [flat_map].
  rewrite (H x (or_introl eq_refl)), IH; [reflexivity|].
  intros y Hy. apply H. now right.
Qed.

Lemma region_stores_results (powf : Qc -> Qc -> Qc) (sf16_to_float : Z -> Qc)
    (a : pixel_region_variance_args) (m : mem) :
  (forall z y x,
     0 <= z < (if have_z a then size_z a else 1) ->
     0 <= y < size_y a -> 0 <= x < size_x a ->
     pixel a m z y x = window_store powf sf16_to_float a z y x) ->
  region_stores a m = region_results powf sf16_to_float a.
Proof.
  intros H. unfold region_stores, region_results.
  apply flat_map_ext_in. intros z Hz. apply in_Zrange in Hz.
  apply flat_map_ext_in. intros y Hy. apply in_Zrange in Hy.
  apply map_ext_in. intros x Hx. apply in_Zrange in Hx. now apply H.
Qed.

(** A region's call returns with the stores of [region_results] appended. *)
Lemma region_call (powf : Qc -> Qc -> Qc) (sf16_to_float : Z -> Qc)
    (a : pixel_region_variance_args) (wm : mem) (log : list store) :
  region_ok a ->
  exists m,
    compute_pixel_region_variance powf sf16_to_float a (wm, log)
    = Some (m, log ++ region_results powf sf16_to_float a).
Proof.
  intros Hok.
  destruct (region_spec powf sf16_to_float a wm log Hok) as (m & E & Hpix).
  exists m. rewrite E. now rewrite (region_stores_results powf sf16_to_float a m Hpix).
Qed.

(** ** Regions that share a pixel *)

Lemma texel_same_params (powf : Qc -> Qc -> Qc) (sf16_to_float : Z -> Qc)
    (a b : pixel_region_variance_args) (x y z : Z) :
  same_params a b ->
  texel powf sf16_to_float a x y z = texel powf sf16_to_float b x y z.
Proof.
  destruct a as [ia ra pa sa ha va ka [sxa sya sza] [oxa oya oza]].
  destruct b as [ib rb pb sb hb vb kb [sxb syb szb] [oxb oyb ozb]].
  unfold same_params. cbn. intros (-> & -> & -> & -> & -> & -> & ->). reflexivity.
Qed.

Lemma emit_same_params (a b : pixel_region_variance_args) (out : Z) (va : Qc)
    (v1 v2 : float4) :
  same_params a b -> emit a out va v1 v2 = emit b out va v1 v2.
Proof.
  destruct a as [ia ra pa sa ha va' ka [sxa sya sza] [oxa oya oza]].
  destruct b as [ib rb pb sb hb vb kb [sxb syb szb] [oxb oyb ozb]].
  unfold same_params. cbn. intros (-> & -> & -> & -> & -> & -> & ->). reflexivity.
Qed.

(** The stores of a pixel depend on the region through the position of the
    pixel in the image only. *)
Lemma window_store_same_pixel (powf : Qc -> Qc -> Qc) (sf16_to_float : Z -> Qc)
    (a b : pixel_region_variance_args) (za ya xa zb yb xb : Z) :
  same_params a b ->
  za + offset_z a = zb + offset_z b ->
  ya + offset_y a = yb + offset_y b ->
  xa + offset_x a = xb + offset_x b ->
  (have_z a = false -> za = zb) ->
  window_store powf sf16_to_float a za ya xa = window_store powf sf16_to_float b zb yb xb.
Proof.
  intros Hp Hz Hy Hx H2d.
  assert (Hs : forall z y x,
            sample powf sf16_to_float a z y x
            = sample powf sf16_to_float b (z + (zb - za)) (y + (yb - ya)) (x + (xb - xa))).
  { intros z y x. unfold sample, src.
    rewrite (texel_same_params powf sf16_to_float a b) by exact Hp.
    destruct Hp as (-> & _).
    replace (x + offset_x a) with (x + (xb - xa) + offset_x b) by lia.
    replace (y + offset_y a) with (y + (yb - ya) + offset_y b) by lia.
    replace (z + offset_z a) with (z + (zb - za) + offset_z b) by lia.
    reflexivity. }
  assert (Hw : forall f r,
            window_sum powf sf16_to_float a f r za ya xa
            = window_sum powf sf16_to_float b f r zb yb xb).
  { intros f r. unfold window_sum.
    destruct Hp as (_ & _ & _ & _ & Hh & _). rewrite <- Hh.
    destruct (have_z a).
    - rewrite (sum3_ext _ (fun z y x => f (sample powf sf16_to_float b
                 (z + (zb - za)) (y + (yb - ya)) (x + (xb - xa)))))
        by (intros; now rewrite Hs).
      rewrite (sum3_shift (fun z y x => f (sample powf sf16_to_float b z y x))).
      f_equal; lia.
    - rewrite (sum2_ext _ (fun y x => f (sample powf sf16_to_float b
                 (0 + (zb - za)) (y + (yb - ya)) (x + (xb - xa)))))
        by (intros; now rewrite Hs).
      rewrite (H2d eq_refl). replace (0 + (zb - zb)) with 0 by lia.
      rewrite (sum2_shift (fun y x => f (sample powf sf16_to_float b 0 y x))).
      f_equal; lia. }
  unfold window_store. cbv zeta. rewrite !Hw.
  rewrite (emit_same_params a b) by exact Hp.
  assert (Hr : alpha_kernel_radius a = alpha_kernel_radius b) by apply Hp.
  rewrite Hr. f_equal.
  unfold out_at, zdt, ydt. destruct Hp as (-> & _ & _ & _ & -> & _).
  destruct (have_z b); [rewrite Hz, Hy, Hx|rewrite Hy, Hx]; reflexivity.
Qed.

(** ** Sums, channel by channel *)

Lemma get_channel_add (c : channel) (u v : float4) :
  get_channel c (u +^ v) = (get_channel c u + get_channel c v)%Qc.
Proof. destruct c; reflexivity. Qed.

Lemma get_channel_sub (c : channel) (u v : float4) :
  get_channel c (u -^ v) = (get_channel c u - get_channel c v)%Qc.
Proof. destruct c; reflexivity. Qed.

Lemma get_channel_mul (c : channel) (u v : float4) :
  get_channel c (u *^ v) = (get_channel c u * get_channel c v)%Qc.
Proof. destruct c; reflexivity. Qed.

Lemma get_channel_scale (c : channel) (u : float4) (s : Qc) :
  get_channel c (F4.scale u s) = (get_channel c u * s)%Qc.
Proof. destruct c; reflexivity. Qed.

Lemma get_channel_zero (c : channel) : get_channel c F4.zero = 0%Qc.
Proof. destruct c; reflexivity. Qed.

Lemma f4_channels (u v : float4) : (forall c, get_channel c u = get_channel c v) -> u = v.
Proof.
  intros H. apply f4_ext; [apply (H CH_R)|apply (H CH_G)|apply (H CH_B)|apply (H CH_A)].
Qed.

Lemma sum_channel_le (c : channel) (f g : Z -> float4) (hi lo : Z) :
  (forall i, lo <= i < hi -> (get_channel c (f i) <= get_channel c (g i))%Qc) ->
  (get_channel c (sum f lo hi) <= get_channel c (sum g lo hi))%Qc.
Proof.
  pattern lo. apply (for_loop_ind hi); clear lo.
  - intros lo Hlo _. rewrite !sum_nil by lia. apply Qcle_refl.
  - intros lo Hlo IH H. rewrite !(sum_first _ lo hi) by lia.
    rewrite !get_channel_add. apply Qcplus_le_compat.
    + apply H. lia.
    + apply IH. intros i Hi. apply H. lia.
Qed.

Lemma sum_channel_eq (c : channel) (f g : Z -> float4) (hi lo : Z) :
  (forall i, lo <= i < hi -> get_channel c (f i) = get_channel c (g i)) ->
  get_channel c (sum f lo hi) = get_channel c (sum g lo hi).
Proof.
  pattern lo. apply (for_loop_ind hi); clear lo.
  - intros lo Hlo _. now rewrite !sum_nil by lia.
  - intros lo Hlo IH H. rewrite !(sum_first _ lo hi) by lia.
    rewrite !get_channel_add. f_equal.
    + apply H. lia.
    + apply IH. intros i Hi. apply H. lia.
Qed.

Lemma sum2_channel_le (c : channel) (f g : Z -> Z -> float4) (yl yh xl xh : Z) :
  (forall y x, (get_channel c (f y x) <= get_channel c (g y x))%Qc) ->
  (get_channel c (sum2 f yl yh xl xh) <= get_channel c (sum2 g yl yh xl xh))%Qc.
Proof.
  intros H. unfold sum2. apply sum_channel_le. intros y _.
  apply sum_channel_le. intros x _. apply H.
Qed.

Lemma sum3_channel_le (c : channel) (f g : Z -> Z -> Z -> float4) (zl zh yl yh xl xh : Z) :
  (forall z y x, (get_channel c (f z y x) <= get_channel c (g z y x))%Qc) ->
  (get_channel c (sum3 f zl zh yl yh xl xh) <= get_channel c (sum3 g zl zh yl yh xl xh))%Qc.
Proof.
  intros H. unfold sum3. apply sum_channel_le. intros z _.
  apply sum2_channel_le. intros y x. apply H.
Qed.

Lemma sum2_channel_eq (c : channel) (f g : Z -> Z -> float4) (yl yh xl xh : Z) :
  (forall y x, get_channel c (f y x) = get_channel c (g y x)) ->
  get_channel c (sum2 f yl yh xl xh) = get_channel c (sum2 g yl yh xl xh).
Proof.
  intros H. unfold sum2. apply sum_channel_eq. intros y _.
  apply sum_channel_eq. intros x _. apply H.
Qed.

Lemma sum3_channel_eq (c : channel) (f g : Z -> Z -> Z -> float4) (zl zh yl yh xl xh : Z) :
  (forall z y x, get_channel c (f z y x) = get_channel c (g z y x)) ->
  get_channel c (sum3 f zl zh yl yh xl xh) = get_channel c (sum3 g zl zh yl yh xl xh).
Proof.
  intros H. unfold sum3. apply sum_channel_eq. intros z _.
  apply sum2_channel_eq. intros y x. apply H.
Qed.

(** Sums are linear. *)
Lemma sum_linear (p q : Z -> float4) (c k : float4) (lo hi : Z) :
  sum (fun i => p i -^ c *^ q i +^ k) lo hi
  = sum p lo hi -^ c *^ sum q lo hi +^ sum (fun _ => k) lo hi.
Proof.
  unfold sum. generalize (Z.to_nat (hi - lo)) as n. intros n. revert lo.
  induction n as [|n IH]; intros lo; simpl; [f4_ring|].
  rewrite IH. f4_ring.
Qed.

Lemma sum2_linear (p q : Z -> Z -> float4) (c k : float4) (yl yh xl xh : Z) :
  sum2 (fun y x => p y x -^ c *^ q y x +^ k) yl yh xl xh
  = sum2 p yl yh xl xh -^ c *^ sum2 q yl yh xl xh +^ sum2 (fun _ _ => k) yl yh xl xh.
Proof.
  unfold sum2.
  rewrite (sum_ext _ (fun y => sum (fun x => p y x) xl xh
                               -^ c *^ sum (fun x => q y x) xl xh
                               +^ sum (fun _ => k) xl xh) yl yh)
    by (intros; apply sum_linear).
  rewrite (sum_linear (fun y => sum (fun x => p y x) xl xh)
                      (fun y => sum (fun x => q y x) xl xh)).
  reflexivity.
Qed.

Lemma sum3_linear (p q : Z -> Z -> Z -> float4) (c k : float4) (zl zh yl yh xl xh : Z) :
  sum3 (fun z y x => p z y x -^ c *^ q z y x +^ k) zl zh yl yh xl xh
  = sum3 p zl zh yl yh xl xh -^ c *^ sum3 q zl zh yl yh xl xh
    +^ sum3 (fun _ _ _ => k) zl zh yl yh xl xh.
Proof.
  unfold sum3.
  rewrite (sum_ext _ (fun z => sum2 (p z) yl yh xl xh
                               -^ c *^ sum2 (q z) yl yh xl xh
                               +^ sum2 (fun _ _ => k) yl yh xl xh) zl zh)
    by (intros; apply sum2_linear).
  rewrite (sum_linear (fun z => sum2 (p z) yl yh xl xh)
                      (fun z => sum2 (q z) yl yh xl xh)).
  reflexivity.
Qed.

(** ** Rational arithmetic *)

Lemma Qc_square_nonneg (x : Qc) : (0 <= x * x)%Qc.
Proof.
  unfold Qcle. cbn [this Qcmult Q2Qc]. rewrite !Qred_correct. nra.
Qed.

Lemma Qc_mult_nonneg (x y : Qc) : (0 <= x -> 0 <= y -> 0 <= x * y)%Qc.
Proof.
  unfold Qcle. cbn [this Qcmult Q2Qc]. rewrite !Qred_correct.
  apply Qmult_le_0_compat.
Qed.

Lemma Qc_inv_nonneg (x : Qc) : (0 <= x -> 0 <= 1 / x)%Qc.
Proof.
  unfold Qcle, Qcdiv. cbn [this Qcmult Qcinv Q2Qc]. rewrite !Qred_correct.
  intros H. pose proof (Qinv_le_0_compat _ H). change (this 1) with 1%Q. lra.
Qed.

Lemma Zf_nonneg (k : Z) : 0 <= k -> (0 <= Zf k)%Qc.
Proof.
  intros H. unfold Qcle, Zf. cbn [this Q2Qc]. rewrite !Qred_correct.
  change 0%Q with (inject_Z 0). now rewrite <- Zle_Qle.
Qed.

Lemma Zf_sub1 (k : Z) : (Zf k - 1)%Qc = Zf (k - 1).
Proof.
  replace k with (k - 1 + 1) at 1 by lia. rewrite Zf_add.
  change (Zf 1) with 1%Qc. ring.
Qed.

(** ** Statistics of a window *)

Section Statistics.

Variable powf : Qc -> Qc -> Qc.
Variable sf16_to_float : Z -> Qc.
Variable a : pixel_region_variance_args.

Local Abbreviation smp := (sample powf sf16_to_float a).
Local Abbreviation wsum := (window_sum powf sf16_to_float a).

Lemma window_sum_channel_le (c : channel) (F G : float4 -> float4) (r z y x : Z) :
  (forall z' y' x',
     (get_channel c (F (smp z' y' x')) <= get_channel c (G (smp z' y' x')))%Qc) ->
  (get_channel c (wsum F r z y x) <= get_channel c (wsum G r z y x))%Qc.
Proof.
  intros H. unfold window_sum. destruct (have_z a).
  - apply sum3_channel_le. intros. apply H.
  - apply sum2_channel_le. intros. apply H.
Qed.

Lemma window_sum_channel_eq (c : channel) (F G : float4 -> float4) (r z y x : Z) :
  (forall z' y' x',
     get_channel c (F (smp z' y' x')) = get_channel c (G (smp z' y' x'))) ->
  get_channel c (wsum F r z y x) = get_channel c (wsum G r z y x).
Proof.
  intros H. unfold window_sum. destruct (have_z a).
  - apply sum3_channel_eq. intros. apply H.
  - apply sum2_channel_eq. intros. apply H.
Qed.

Lemma window_sum_const (v : float4) (r z y x : Z) :
  0 <= r -> wsum (fun _ => v) r z y x = F4.scale v (Zf (window_count a r)).
Proof.
  intros Hr. unfold window_sum, window_count. destruct (have_z a).
  - rewrite sum3_const by lia. rewrite !Zf_mul.
    replace (z + r + 1 - (z - r)) with (2 * r + 1) by lia.
    replace (y + r + 1 - (y - r)) with (2 * r + 1) by lia.
    replace (x + r + 1 - (x - r)) with (2 * r + 1) by lia. reflexivity.
  - rewrite sum2_const by lia. rewrite !Zf_mul.
    replace (y + r + 1 - (y - r)) with (2 * r + 1) by lia.
    replace (x + r + 1 - (x - r)) with (2 * r + 1) by lia. reflexivity.
Qed.

Lemma window_sum_deviations (X : float4) (r z y x : Z) :
  wsum (fun s => (s -^ X) *^ (s -^ X)) r z y x
  = wsum (plane_value true) r z y x -^ (X +^ X) *^ wsum (plane_value false) r z y x
    +^ wsum (fun _ => X *^ X) r z y x.
Proof.
  unfold window_sum, plane_value. destruct (have_z a).
  - rewrite <- (sum3_linear (fun z' y' x' => smp z' y' x' *^ smp z' y' x')
                            (fun z' y' x' => smp z' y' x')).
    apply sum3_ext. intros. f4_ring.
  - rewrite <- (sum2_linear (fun y' x' => smp 0 y' x' *^ smp 0 y' x')
                            (fun y' x' => smp 0 y' x')).
    apply sum2_ext. intros. f4_ring.
Qed.

Lemma window_count_pos (r : Z) : 0 <= r -> 1 <= window_count a r.
Proof. intros Hr. unfold window_count. destruct (have_z a); nia. Qed.

Lemma avg_var_samples_count :
  avg_var_samples a = Zf (window_count a (avg_var_kernel_radius a)).
Proof. unfold avg_var_samples, window_count, avg_var_kdim. now destruct (have_z a). Qed.

Lemma alpha_rsamples_count :
  alpha_rsamples a = (1 / Zf (window_count a (alpha_kernel_radius a)))%Qc.
Proof. unfold alpha_rsamples, window_count, alpha_kdim. now destruct (have_z a). Qed.

(** The sum of the squares of a window is at least the square of its sum
    over its count. *)
Lemma window_cauchy_schwarz (c : channel) (r z y x : Z) :
  0 <= r ->
  (0 <= get_channel c (wsum (plane_value true) r z y x) * Zf (window_count a r)
        - get_channel c (wsum (plane_value false) r z y x)
          * get_channel c (wsum (plane_value false) r z y x))%Qc.
Proof.
  intros Hr.
  set (N := Zf (window_count a r)).
  set (S := get_channel c (wsum (plane_value false) r z y x)).
  set (Q := get_channel c (wsum (plane_value true) r z y x)).
  assert (HN0 : N <> 0%Qc).
  { apply Zf_nonzero. pose proof (window_count_pos r Hr). lia. }
  assert (HN : (0 <= N)%Qc).
  { apply Zf_nonneg. pose proof (window_count_pos r Hr). lia. }
  set (X := F4.splat (S / N)%Qc).
  assert (Hdev : (0 <= get_channel c (wsum (fun s => (s -^ X) *^ (s -^ X)) r z y x))%Qc).
  { rewrite <- (get_channel_zero c).
    rewrite <- (f4_add_0_l F4.zero) at 1.
    replace (get_channel c (F4.zero +^ F4.zero))
      with (get_channel c (wsum (fun _ => F4.zero) r z y x)).
    - apply window_sum_channel_le. intros. rewrite get_channel_zero, get_channel_mul.
      apply Qc_square_nonneg.
    - rewrite window_sum_const by exact Hr. destruct c; f4_simpl; cbn; ring. }
  rewrite window_sum_deviations, window_sum_const in Hdev by exact Hr.
  rewrite get_channel_add, get_channel_sub, get_channel_mul, get_channel_scale,
    get_channel_mul, get_channel_add in Hdev.
  fold N S Q in Hdev.
  assert (HX : get_channel c X = (S / N)%Qc) by (destruct c; reflexivity).
  rewrite HX in Hdev.
  replace (Q * N - S * S)%Qc
    with ((Q - (S / N + S / N) * S + S / N * (S / N) * N) * N)%Qc
    by (field; exact HN0).
  now apply Qc_mult_nonneg.
Qed.

Lemma mul1_nonneg : 0 <= avg_var_kernel_radius a -> (0 <= mul1 a)%Qc.
Proof.
  intros Hr. unfold mul1. destruct (Qc_eqb (avg_var_samples a) 1%Qc).
  - unfold Qcle, Qle. cbn. lia.
  - apply Qc_inv_nonneg. rewrite avg_var_samples_count, Zf_sub1, <- Zf_mul.
    apply Zf_nonneg. pose proof (window_count_pos _ Hr). nia.
Qed.

(** The stores of a pixel, channel by channel *)
Lemma window_store_average (c : channel) (z y x : Z) :
  get_channel c (average (window_store powf sf16_to_float a z y x))
  = (get_channel c (wsum (plane_value false) (alpha_kernel_radius a) z y x)
     * avg_var_rsamples a)%Qc.
Proof. unfold window_store, emit. cbn [average]. apply get_channel_scale. Qed.

Lemma window_store_variance (c : channel) (z y x : Z) :
  get_channel c (variance (window_store powf sf16_to_float a z y x))
  = (mul1 a * (get_channel c (wsum (plane_value true) (alpha_kernel_radius a) z y x)
               * avg_var_samples a
               - get_channel c (wsum (plane_value false) (alpha_kernel_radius a) z y x)
                 * get_channel c (wsum (plane_value false) (alpha_kernel_radius a) z y x)))%Qc.
Proof.
  unfold window_store, emit. cbn [variance].
  rewrite get_channel_sub, !get_channel_scale, get_channel_mul. unfold mul2. ring.
Qed.

Lemma window_store_alpha_average (z y x : Z) :
  alpha_average (window_store powf sf16_to_float a z y x)
  = (get_channel CH_A (wsum (plane_value false) (alpha_kernel_radius a) z y x)
     * alpha_rsamples a)%Qc.
Proof. reflexivity. Qed.

End Statistics.

(** ** Properties of a region's stores *)

Lemma region_ok_4x4 : region_ok region_4x4.
Proof. unfold region_ok, INT_MAX. cbn. repeat split; try lia; try discriminate. Qed.

Lemma region_ok_4x4_tile : region_ok region_4x4_tile.
Proof. unfold region_ok, INT_MAX. cbn. repeat split; try lia; try discriminate. Qed.

Lemma region_ok_4x4_swz01 : region_ok region_4x4_swz01.
Proof. unfold region_ok, INT_MAX. cbn. repeat split; try lia; try discriminate. Qed.

Lemma region_ok_flat_eq : region_ok region_flat_eq.
Proof. unfold region_ok, INT_MAX. cbn. repeat split; try lia; try reflexivity. Qed.

(** X4.  A region's call writes the work memory inside its two buffers
    only: it returns, and every index below 0 or from [2 * sizeprod] on
    holds what it held before the call. *)
Theorem region_writes_inside_buffers (powf : Qc -> Qc -> Qc) (sf16_to_float : Z -> Qc)
    (a : pixel_region_variance_args) (wm : mem) (log : list store) :
  region_ok a ->
  exists m log',
    compute_pixel_region_variance powf sf16_to_float a (wm, log) = Some (m, log') /\
    forall p, p < 0 \/ 2 * sizeprod a <= p -> m p = wm p.
Proof.
  intros Hok.
  destruct (region_spec powf sf16_to_float a wm log Hok) as (m & E & _).
  exists m, (log ++ region_stores a m). split; [exact E|].
  intros p Hp. apply (region_confined powf sf16_to_float a Hok wm m log _ E). lia.
Qed.

(** X4 at the 4 x 4 region *)
Lemma region_writes_inside_buffers_witness :
  region_ok region_4x4 /\
  exists m log',
    compute_pixel_region_variance powf_12 sf16_01 region_4x4 (mem_count, []) = Some (m, log') /\
    forall p, p < 0 \/ 2 * sizeprod region_4x4 <= p -> m p = mem_count p.
Proof.
  split; [exact region_ok_4x4|].
  exact (region_writes_inside_buffers powf_12 sf16_01 region_4x4 mem_count []
           region_ok_4x4).
Defined.

(** X5.  The stores of a region do not depend on what the work memory held:
    two calls that differ in the work memory they are handed return, and
    append the same stores. *)
Theorem region_ignores_work_memory (powf : Qc -> Qc -> Qc) (sf16_to_float : Z -> Qc)
    (a : pixel_region_variance_args) (wm wm' : mem) (log : list store) :
  region_ok a ->
  exists m m' log',
    compute_pixel_region_variance powf sf16_to_float a (wm, log) = Some (m, log') /\
    compute_pixel_region_variance powf sf16_to_float a (wm', log) = Some (m', log').
Proof.
  intros Hok.
  destruct (region_call powf sf16_to_float a wm log Hok) as (m & E).
  destruct (region_call powf sf16_to_float a wm' log Hok) as (m' & E').
  exists m, m', (log ++ region_results powf sf16_to_float a). split; assumption.
Qed.

(** X5 at the 4 x 4 region, from two work memories *)
Lemma region_ignores_work_memory_witness :
  region_ok region_4x4 /\
  exists m m' log',
    compute_pixel_region_variance powf_12 sf16_01 region_4x4 (mem_count, [])
    = Some (m, log') /\
    compute_pixel_region_variance powf_12 sf16_01 region_4x4 (fun _ => F4.zero, [])
    = Some (m', log').
Proof.
  split; [exact region_ok_4x4|].
  exact (region_ignores_work_memory powf_12 sf16_01 region_4x4 mem_count
           (fun _ => F4.zero) [] region_ok_4x4).
Defined.

(** X6.  In exact arithmetic (the floats taken as rationals, no rounding)
    two regions of one image, with the same parameters, store the same
    values for a pixel that lies in both: the stores of a pixel depend on
    its position in the image, not on the region it is processed in. *)
Theorem regions_agree_on_shared_pixel (powf : Qc -> Qc -> Qc) (sf16_to_float : Z -> Qc)
    (a b : pixel_region_variance_args) (wma wmb : mem) (la lb : list store)
    (za ya xa zb yb xb : Z) :
  region_ok a -> region_ok b -> same_params a b ->
  0 <= za < (if have_z a then size_z a else 1) -> 0 <= ya < size_y a -> 0 <= xa < size_x a ->
  0 <= zb < (if have_z b then size_z b else 1) -> 0 <= yb < size_y b -> 0 <= xb < size_x b ->
  za + offset_z a = zb + offset_z b ->
  ya + offset_y a = yb + offset_y b ->
  xa + offset_x a = xb + offset_x b ->
  exists ma mb,
    compute_pixel_region_variance powf sf16_to_float a (wma, la)
    = Some (ma, la ++ region_stores a ma) /\
    compute_pixel_region_variance powf sf16_to_float b (wmb, lb)
    = Some (mb, lb ++ region_stores b mb) /\
    pixel a ma za ya xa = pixel b mb zb yb xb.
Proof.
  intros Hoka Hokb Hp Hza Hya Hxa Hzb Hyb Hxb Ez Ey Ex.
  destruct (region_spec powf sf16_to_float a wma la Hoka) as (ma & Ea & Hpa).
  destruct (region_spec powf sf16_to_float b wmb lb Hokb) as (mb & Eb & Hpb).
  exists ma, mb. split; [exact Ea|]. split; [exact Eb|].
  rewrite (Hpa za ya xa Hza Hya Hxa), (Hpb zb yb xb Hzb Hyb Hxb).
  apply window_store_same_pixel; try assumption.
  intros E2. assert (Hh : have_z b = false) by (destruct Hp as (_ & _ & _ & _ & <- & _); exact E2).
  rewrite E2 in Hza. rewrite Hh in Hzb. lia.
Qed.

(** X6 at the pixel (2, 3) of the 4 x 4 image, in the whole image and in its
    lower right quarter *)
Lemma regions_agree_on_shared_pixel_witness :
  (region_ok region_4x4 /\ region_ok region_4x4_tile /\
   same_params region_4x4 region_4x4_tile /\
   0 <= 0 < (if have_z region_4x4 then size_z region_4x4 else 1) /\
   0 <= 3 < size_y region_4x4 /\ 0 <= 2 < size_x region_4x4 /\
   0 <= 0 < (if have_z region_4x4_tile then size_z region_4x4_tile else 1) /\
   0 <= 1 < size_y region_4x4_tile /\ 0 <= 0 < size_x region_4x4_tile /\
   0 + offset_z region_4x4 = 0 + offset_z region_4x4_tile /\
   3 + offset_y region_4x4 = 1 + offset_y region_4x4_tile /\
   2 + offset_x region_4x4 = 0 + offset_x region_4x4_tile) /\
  exists ma mb,
    compute_pixel_region_variance powf_12 sf16_01 region_4x4 (mem_count, [])
    = Some (ma, [] ++ region_stores region_4x4 ma) /\
    compute_pixel_region_variance powf_12 sf16_01 region_4x4_tile (mem_count, [])
    = Some (mb, [] ++ region_stores region_4x4_tile mb) /\
    pixel region_4x4 ma 0 3 2 = pixel region_4x4_tile mb 0 1 0.
Proof.
  assert (Hp : same_params region_4x4 region_4x4_tile) by (repeat split).
  split.
  - split; [exact region_ok_4x4|]. split; [exact region_ok_4x4_tile|].
    split; [exact Hp|]. cbn. lia.
  - apply (regions_agree_on_shared_pixel powf_12 sf16_01 region_4x4 region_4x4_tile
             mem_count mem_count [] [] 0 3 2 0 1 0 region_ok_4x4 region_ok_4x4_tile Hp);
      cbn; lia.
Defined.

(** ** Variances and averages *)

(** X7.  With equal radii no variance is negative: a region's call
    returns, and every channel of every variance it stores is at least 0. *)
Theorem variance_not_negative (powf : Qc -> Qc -> Qc) (sf16_to_float : Z -> Qc)
    (a : pixel_region_variance_args) (wm : mem) (log : list store) :
  region_ok a ->
  avg_var_kernel_radius a = alpha_kernel_radius a ->
  exists m,
    compute_pixel_region_variance powf sf16_to_float a (wm, log)
    = Some (m, log ++ region_stores a m) /\
    forall z y x,
      0 <= z < (if have_z a then size_z a else 1) ->
      0 <= y < size_y a -> 0 <= x < size_x a ->
      forall c, (0 <= get_channel c (variance (pixel a m z y x)))%Qc.
Proof.
  intros Hok Heq.
  destruct (region_spec powf sf16_to_float a wm log Hok) as (m & E & Hpix).
  exists m. split; [exact E|]. intros z y x Hz Hy Hx c.
  rewrite (Hpix z y x Hz Hy Hx), window_store_variance.
  pose proof Hok as (Hr1 & Hr2 & _).
  apply Qc_mult_nonneg; [now apply mul1_nonneg|].
  rewrite avg_var_samples_count, Heq. now apply window_cauchy_schwarz.
Qed.

(** X7 at the 4 x 4 region *)
Lemma variance_not_negative_witness :
  (region_ok region_4x4 /\
   avg_var_kernel_radius region_4x4 = alpha_kernel_radius region_4x4) /\
  exists m,
    compute_pixel_region_variance powf_12 sf16_01 region_4x4 (mem_count, [])
    = Some (m, [] ++ region_stores region_4x4 m) /\
    forall z y x,
      0 <= z < (if have_z region_4x4 then size_z region_4x4 else 1) ->
      0 <= y < size_y region_4x4 -> 0 <= x < size_x region_4x4 ->
      forall c, (0 <= get_channel c (variance (pixel region_4x4 m z y x)))%Qc.
Proof.
  split; [split; [exact region_ok_4x4|reflexivity]|].
  exact (variance_not_negative powf_12 sf16_01 region_4x4 mem_count []
           region_ok_4x4 eq_refl).
Defined.

Section Bounds.

Variable powf : Qc -> Qc -> Qc.
Variable sf16_to_float : Z -> Qc.
Variable a : pixel_region_variance_args.
Hypothesis Hok : region_ok a.
Hypothesis Hdx : 1 <= dim_x (img a).
Hypothesis Hdy : 1 <= dim_y (img a).
Hypothesis Hdz : 1 <= dim_z (img a).

Variable c : channel.

(** A property of the channel [c] of every texel of the image holds of
    every sample. *)
Lemma sample_in_image (P : Qc -> Prop) :
  (forall x y z,
     0 <= x < dim_x (img a) -> 0 <= y < dim_y (img a) -> 0 <= z < dim_z (img a) ->
     P (get_channel c (texel powf sf16_to_float a x y z))) ->
  forall z y x, P (get_channel c (sample powf sf16_to_float a z y x)).
Proof. intros H z y x. unfold sample. apply H; now apply src_range. Qed.

Lemma window_mean_bounds (lo hi : Qc) (r z y x : Z) :
  0 <= r ->
  (forall x y z,
     0 <= x < dim_x (img a) -> 0 <= y < dim_y (img a) -> 0 <= z < dim_z (img a) ->
     (lo <= get_channel c (texel powf sf16_to_float a x y z) <= hi)%Qc) ->
  (lo <= get_channel c (window_sum powf sf16_to_float a (plane_value false) r z y x)
         * (1 / Zf (window_count a r)) <= hi)%Qc.
Proof.
  intros Hr H.
  pose proof (sample_in_image (fun v => (lo <= v <= hi)%Qc) H) as Hs. cbv beta in Hs.
  set (N := Zf (window_count a r)).
  assert (HN0 : N <> 0%Qc).
  { apply Zf_nonzero. pose proof (window_count_pos a r Hr). lia. }
  assert (HN : (0 <= 1 / N)%Qc).
  { apply Qc_inv_nonneg, Zf_nonneg. pose proof (window_count_pos a r Hr). lia. }
  assert (Hc : forall v, get_channel c (F4.splat v) = v) by (intros; now destruct c).
  split.
  - replace lo with (get_channel c (window_sum powf sf16_to_float a
                       (fun _ => F4.splat lo) r z y x) * (1 / N))%Qc.
    + apply Qcmult_le_compat_r; [|exact HN].
      apply window_sum_channel_le. intros. rewrite Hc. apply Hs.
    + rewrite window_sum_const, get_channel_scale, Hc by exact Hr. fold N.
      field. exact HN0.
  - replace hi with (get_channel c (window_sum powf sf16_to_float a
                       (fun _ => F4.splat hi) r z y x) * (1 / N))%Qc.
    + apply Qcmult_le_compat_r; [|exact HN].
      apply window_sum_channel_le. intros. rewrite Hc. apply Hs.
    + rewrite window_sum_const, get_channel_scale, Hc by exact Hr. fold N.
      field. exact HN0.
Qed.

Lemma window_constant (v : Qc) (r z y x : Z) (pl : bool) :
  0 <= r ->
  (forall x y z,
     0 <= x < dim_x (img a) -> 0 <= y < dim_y (img a) -> 0 <= z < dim_z (img a) ->
     get_channel c (texel powf sf16_to_float a x y z) = v) ->
  get_channel c (window_sum powf sf16_to_float a (plane_value pl) r z y x)
  = ((if pl then v * v else v) * Zf (window_count a r))%Qc.
Proof.
  intros Hr H.
  pose proof (sample_in_image (fun w => w = v) H) as Hs. cbv beta in Hs.
  assert (Hc : forall w, get_channel c (F4.splat w) = w) by (intros; now destruct c).
  rewrite (window_sum_channel_eq powf sf16_to_float a c (plane_value pl)
             (fun _ => F4.splat (if pl then v * v else v)%Qc)).
  - now rewrite window_sum_const, get_channel_scale, Hc by exact Hr.
  - intros. rewrite Hc. unfold plane_value. destruct pl.
    + now rewrite get_channel_mul, Hs.
    + apply Hs.
Qed.

End Bounds.

(** X8.  In exact arithmetic (the floats taken as rationals, no rounding)
    averages stay between the bounds of the samples: if a channel of every
    texel of the image lies between [lo] and [hi], so does that
    channel of every average stored when the two radii are equal, and so
    does every alpha average stored, whatever the radii, when the channel is
    alpha. *)
Theorem averages_within_bounds (powf : Qc -> Qc -> Qc) (sf16_to_float : Z -> Qc)
    (a : pixel_region_variance_args) (wm : mem) (log : list store)
    (c : channel) (lo hi : Qc) :
  region_ok a ->
  1 <= dim_x (img a) -> 1 <= dim_y (img a) -> 1 <= dim_z (img a) ->
  (forall x y z,
     0 <= x < dim_x (img a) -> 0 <= y < dim_y (img a) -> 0 <= z < dim_z (img a) ->
     (lo <= get_channel c (texel powf sf16_to_float a x y z) <= hi)%Qc) ->
  exists m,
    compute_pixel_region_variance powf sf16_to_float a (wm, log)
    = Some (m, log ++ region_stores a m) /\
    forall z y x,
      0 <= z < (if have_z a then size_z a else 1) ->
      0 <= y < size_y a -> 0 <= x < size_x a ->
      (avg_var_kernel_radius a = alpha_kernel_radius a ->
       (lo <= get_channel c (average (pixel a m z y x)) <= hi)%Qc) /\
      (c = CH_A -> (lo <= alpha_average (pixel a m z y x) <= hi)%Qc).
Proof.
  intros Hok Hdx Hdy Hdz Hb.
  destruct (region_spec powf sf16_to_float a wm log Hok) as (m & E & Hpix).
  exists m. split; [exact E|]. intros z y x Hz Hy Hx.
  rewrite (Hpix z y x Hz Hy Hx). pose proof Hok as (Hr1 & Hr2 & _).
  pose proof (window_mean_bounds powf sf16_to_float a Hdx Hdy Hdz c lo hi
                (alpha_kernel_radius a) z y x Hr2 Hb) as Hm.
  split.
  - intros Heq. rewrite window_store_average. unfold avg_var_rsamples.
    rewrite avg_var_samples_count, Heq. exact Hm.
  - intros ->. rewrite window_store_alpha_average, alpha_rsamples_count. exact Hm.
Qed.

(** X9.  In exact arithmetic (the floats taken as rationals, no rounding)
    a channel that is the same in every texel of the image comes out
    unchanged: with equal radii, that channel of every average stored is
    the constant, and that channel of every variance stored is 0, at the
    pixels next to the boundary of the image as elsewhere. *)
Theorem constant_channel (powf : Qc -> Qc -> Qc) (sf16_to_float : Z -> Qc)
    (a : pixel_region_variance_args) (wm : mem) (log : list store)
    (c : channel) (v : Qc) :
  region_ok a ->
  1 <= dim_x (img a) -> 1 <= dim_y (img a) -> 1 <= dim_z (img a) ->
  avg_var_kernel_radius a = alpha_kernel_radius a ->
  (forall x y z,
     0 <= x < dim_x (img a) -> 0 <= y < dim_y (img a) -> 0 <= z < dim_z (img a) ->
     get_channel c (texel powf sf16_to_float a x y z) = v) ->
  exists m,
    compute_pixel_region_variance powf sf16_to_float a (wm, log)
    = Some (m, log ++ region_stores a m) /\
    forall z y x,
      0 <= z < (if have_z a then size_z a else 1) ->
      0 <= y < size_y a -> 0 <= x < size_x a ->
      get_channel c (average (pixel a m z y x)) = v /\
      get_channel c (variance (pixel a m z y x)) = 0%Qc.
Proof.
  intros Hok Hdx Hdy Hdz Heq Hv.
  destruct (region_spec powf sf16_to_float a wm log Hok) as (m & E & Hpix).
  exists m. split; [exact E|]. intros z y x Hz Hy Hx.
  rewrite (Hpix z y x Hz Hy Hx). pose proof Hok as (Hr1 & Hr2 & _).
  rewrite window_store_average, window_store_variance.
  rewrite !(window_constant powf sf16_to_float a Hdx Hdy Hdz c v) by assumption.
  unfold avg_var_rsamples. rewrite avg_var_samples_count, Heq.
  set (N := Zf (window_count a (alpha_kernel_radius a))).
  assert (HN0 : N <> 0%Qc).
  { apply Zf_nonzero. pose proof (window_count_pos a _ Hr2). lia. }
  split; [field; exact HN0|ring].
Qed.

Lemma Zf_le (x y : Z) : x <= y -> (Zf x <= Zf y)%Qc.
Proof.
  intros H. unfold Qcle, Zf. cbn [this Q2Qc]. rewrite !Qred_correct.
  now rewrite <- Zle_Qle.
Qed.

(** The channels of a texel of bytes lie between 0 and 1 when no power
    curve is applied. *)
Lemma u8_texel_range (powf : Qc -> Qc -> Qc) (sf16_to_float : Z -> Qc)
    (a : pixel_region_variance_args) (c : channel) (x y z : Z) :
  data_type (img a) = ASTCENC_TYPE_U8 ->
  rgb_power a = 1%Qc -> alpha_power a = 1%Qc ->
  (forall i, 0 <= data8 (img a) i <= 255) ->
  (0 <= get_channel c (texel powf sf16_to_float a x y z) <= 1)%Qc.
Proof.
  intros Et Hr Ha Hb.
  assert (Hrange : forall b, 0 <= b <= 255 -> (0 <= Zf b * (1 / Zf 255) <= 1)%Qc).
  { intros b Hb'. split.
    - apply Qc_mult_nonneg; [apply Zf_nonneg; lia|].
      apply Qc_inv_nonneg, Zf_nonneg. lia.
    - replace 1%Qc with (Zf 255 * (1 / Zf 255))%Qc at 2
        by (field; apply Zf_nonzero; lia).
      apply Qcmult_le_compat_r; [apply Zf_le; lia|].
      apply Qc_inv_nonneg, Zf_nonneg. lia. }
  assert (Hsel : forall s r g b al, 0 <= r <= 255 -> 0 <= g <= 255 -> 0 <= b <= 255 ->
            0 <= al <= 255 -> 0 <= swz_select r g b al 0 255 s <= 255).
  { intros s r g b al ? ? ? ?. destruct s; cbn; lia. }
  unfold texel, load_texel, load_raw, power_curve, are_powers_1.
  rewrite Et, Hr, Ha. cbn [Qc_eqb negb andb]. change (Qc_eqb 1 1) with true.
  cbn [negb andb]. unfold load_u8.
  destruct (needs_swz (swz a)); destruct c; cbn [get_channel F4.scale F4.mul F4.splat
    f4r f4g f4b f4a]; apply Hrange; auto.
Qed.

Lemma region_4x4_bytes (i : Z) : 0 <= data8 (img region_4x4) i <= 255.
Proof. cbn. pose proof (Z.mod_pos_bound (i * 37) 256). lia. Qed.

(** X8 at the alpha channel of the 4 x 4 region of bytes, between 0 and 1 *)
Lemma averages_within_bounds_witness :
  (region_ok region_4x4 /\
   1 <= dim_x (img region_4x4) /\ 1 <= dim_y (img region_4x4) /\
   1 <= dim_z (img region_4x4) /\
   (forall x y z,
      0 <= x < dim_x (img region_4x4) -> 0 <= y < dim_y (img region_4x4) ->
      0 <= z < dim_z (img region_4x4) ->
      (0 <= get_channel CH_A (texel powf_12 sf16_01 region_4x4 x y z) <= 1)%Qc)) /\
  exists m,
    compute_pixel_region_variance powf_12 sf16_01 region_4x4 (mem_count, [])
    = Some (m, [] ++ region_stores region_4x4 m) /\
    forall z y x,
      0 <= z < (if have_z region_4x4 then size_z region_4x4 else 1) ->
      0 <= y < size_y region_4x4 -> 0 <= x < size_x region_4x4 ->
      (avg_var_kernel_radius region_4x4 = alpha_kernel_radius region_4x4 ->
       (0 <= get_channel CH_A (average (pixel region_4x4 m z y x)) <= 1)%Qc) /\
      (CH_A = CH_A -> (0 <= alpha_average (pixel region_4x4 m z y x) <= 1)%Qc).
Proof.
  assert (Hb : forall x y z,
            0 <= x < dim_x (img region_4x4) -> 0 <= y < dim_y (img region_4x4) ->
            0 <= z < dim_z (img region_4x4) ->
            (0 <= get_channel CH_A (texel powf_12 sf16_01 region_4x4 x y z) <= 1)%Qc).
  { intros x y z _ _ _.
    apply u8_texel_range; try reflexivity. exact region_4x4_bytes. }
  split.
  - split; [exact region_ok_4x4|]. cbn [dim_x dim_y dim_z img region_4x4 image_4x4].
    repeat split; try lia; apply Hb; assumption.
  - apply (averages_within_bounds powf_12 sf16_01 region_4x4 mem_count [] CH_A 0%Qc 1%Qc
             region_ok_4x4); cbn [dim_x dim_y dim_z img region_4x4 image_4x4];
      try lia; exact Hb.
Defined.

(** X9 at the green channel of the 2 x 2 image of one colour *)
Lemma constant_channel_witness :
  (region_ok region_flat_eq /\
   1 <= dim_x (img region_flat_eq) /\ 1 <= dim_y (img region_flat_eq) /\
   1 <= dim_z (img region_flat_eq) /\
   avg_var_kernel_radius region_flat_eq = alpha_kernel_radius region_flat_eq /\
   (forall x y z,
      0 <= x < dim_x (img region_flat_eq) -> 0 <= y < dim_y (img region_flat_eq) ->
      0 <= z < dim_z (img region_flat_eq) ->
      get_channel CH_G (texel powf_12 sf16_01 region_flat_eq x y z) = Zf 18)) /\
  exists m,
    compute_pixel_region_variance powf_12 sf16_01 region_flat_eq (mem_count, [])
    = Some (m, [] ++ region_stores region_flat_eq m) /\
    forall z y x,
      0 <= z < (if have_z region_flat_eq then size_z region_flat_eq else 1) ->
      0 <= y < size_y region_flat_eq -> 0 <= x < size_x region_flat_eq ->
      get_channel CH_G (average (pixel region_flat_eq m z y x)) = Zf 18 /\
      get_channel CH_G (variance (pixel region_flat_eq m z y x)) = 0%Qc.
Proof.
  assert (Hv : forall x y z,
            0 <= x < dim_x (img region_flat_eq) -> 0 <= y < dim_y (img region_flat_eq) ->
            0 <= z < dim_z (img region_flat_eq) ->
            get_channel CH_G (texel powf_12 sf16_01 region_flat_eq x y z) = Zf 18).
  { intros x y z _ _ Hz. cbn [dim_z img region_flat_eq image_flat] in Hz.
    assert (z = 0) as -> by lia. reflexivity. }
  split.
  - split; [exact region_ok_flat_eq|].
    cbn [dim_x dim_y dim_z img region_flat_eq image_flat].
    repeat split; try lia; apply Hv; assumption.
  - apply (constant_channel powf_12 sf16_01 region_flat_eq mem_count [] CH_G (Zf 18)
             region_ok_flat_eq); cbn [dim_x dim_y dim_z img region_flat_eq image_flat];
      try lia; [reflexivity|exact Hv].
Defined.

(** ** Constants of the swizzle *)

Lemma needs_swz_constant (sw : astcenc_swizzle) (c : channel) :
  get_selector c sw = ASTCENC_SWZ_0 \/ get_selector c sw = ASTCENC_SWZ_1 ->
  needs_swz sw = true.
Proof.
  unfold needs_swz. destruct c; cbn [get_selector]; intros [-> | ->]; cbn;
    rewrite ?orb_true_r; reflexivity.
Qed.

Lemma texel_selector_constant (powf : Qc -> Qc -> Qc) (sf16_to_float : Z -> Qc)
    (a : pixel_region_variance_args) (c : channel) (x y z : Z) :
  region_ok a -> 0 <= z < dim_z (img a) ->
  rgb_power a = 1%Qc -> alpha_power a = 1%Qc ->
  sf16_to_float 0 = 0%Qc -> sf16_to_float 15360 = 1%Qc ->
  (get_selector c (swz a) = ASTCENC_SWZ_0 ->
   get_channel c (texel powf sf16_to_float a x y z) = 0%Qc) /\
  (get_selector c (swz a) = ASTCENC_SWZ_1 ->
   get_channel c (texel powf sf16_to_float a x y z) = 1%Qc).
Proof.
  intros Hok Hz Hr Ha H0 H1.
  assert (E255 : (Zf 255 * (1 / Zf 255) = 1)%Qc) by (field; apply Zf_nonzero; lia).
  assert (E0 : (Zf 0 * (1 / Zf 255) = 0)%Qc) by (change (Zf 0) with 0%Qc; ring).
  unfold texel, load_texel, load_raw, power_curve, are_powers_1.
  rewrite Hr, Ha. change (Qc_eqb 1 1) with true. cbn [negb andb].
  destruct (data_type (img a)) eqn:Et.
  - unfold load_u8. split; intros Hs;
      rewrite (needs_swz_constant (swz a) c) by auto;
      destruct c; cbn [get_selector] in Hs;
      cbn [get_channel F4.scale F4.mul F4.splat f4r f4g f4b f4a];
      rewrite Hs; cbn [swz_select]; assumption.
  - unfold load_f16. split; intros Hs;
      destruct c; cbn [get_selector] in Hs; cbn [get_channel f4r f4g f4b f4a];
      rewrite Hs; cbn [swz_select]; assumption.
  - destruct Hok as (_ & _ & _ & _ & _ & _ & H32). rewrite (H32 Et) in Hz.
    assert (z = 0) as -> by lia. unfold load_f32. cbn [Z.eqb].
    split; intros Hs;
      rewrite (needs_swz_constant (swz a) c) by auto;
      destruct c; cbn [get_selector] in Hs; cbn [get_channel f4r f4g f4b f4a];
      rewrite Hs; reflexivity.
Qed.

(** X10.  In exact arithmetic (the floats taken as rationals, no rounding)
    the constants of the swizzle come out as constants.  No power curve
    applied: a channel that the swizzle sets to 0 has the average 0
    and the variance 0 at every pixel, whatever the radii; a channel that
    the swizzle sets to 1 has the average 1 and the variance 0 at every
    pixel when the two radii are equal. *)
Theorem swizzle_constant_channels (powf : Qc -> Qc -> Qc) (sf16_to_float : Z -> Qc)
    (a : pixel_region_variance_args) (wm : mem) (log : list store) (c : channel) :
  region_ok a ->
  1 <= dim_x (img a) -> 1 <= dim_y (img a) -> 1 <= dim_z (img a) ->
  rgb_power a = 1%Qc -> alpha_power a = 1%Qc ->
  sf16_to_float 0 = 0%Qc -> sf16_to_float 15360 = 1%Qc ->
  exists m,
    compute_pixel_region_variance powf sf16_to_float a (wm, log)
    = Some (m, log ++ region_stores a m) /\
    forall z y x,
      0 <= z < (if have_z a then size_z a else 1) ->
      0 <= y < size_y a -> 0 <= x < size_x a ->
      (get_selector c (swz a) = ASTCENC_SWZ_0 ->
       get_channel c (average (pixel a m z y x)) = 0%Qc /\
       get_channel c (variance (pixel a m z y x)) = 0%Qc) /\
      (get_selector c (swz a) = ASTCENC_SWZ_1 ->
       avg_var_kernel_radius a = alpha_kernel_radius a ->
       get_channel c (average (pixel a m z y x)) = 1%Qc /\
       get_channel c (variance (pixel a m z y x)) = 0%Qc).
Proof.
  intros Hok Hdx Hdy Hdz Hr Ha H0 H1.
  destruct (region_spec powf sf16_to_float a wm log Hok) as (m & E & Hpix).
  exists m. split; [exact E|]. intros z y x Hz Hy Hx.
  pose proof Hok as (Hr1 & Hr2 & _). split.
  - intros Hs. rewrite (Hpix z y x Hz Hy Hx).
    rewrite window_store_average, window_store_variance.
    rewrite !(window_constant powf sf16_to_float a Hdx Hdy Hdz c 0%Qc); try assumption.
    + split; ring.
    + intros x' y' z' _ _ Hz'.
      now apply (texel_selector_constant powf sf16_to_float a c x' y' z' Hok Hz' Hr Ha H0 H1).
    + intros x' y' z' _ _ Hz'.
      now apply (texel_selector_constant powf sf16_to_float a c x' y' z' Hok Hz' Hr Ha H0 H1).
  - intros Hs Heq. rewrite (Hpix z y x Hz Hy Hx).
    rewrite window_store_average, window_store_variance.
    rewrite !(window_constant powf sf16_to_float a Hdx Hdy Hdz c 1%Qc); try assumption.
    + unfold avg_var_rsamples. rewrite avg_var_samples_count, Heq.
      assert (HN0 : Zf (window_count a (alpha_kernel_radius a)) <> 0%Qc).
      { apply Zf_nonzero. pose proof (window_count_pos a _ Hr2). lia. }
      split; [field; exact HN0|ring].
    + intros x' y' z' _ _ Hz'.
      now apply (texel_selector_constant powf sf16_to_float a c x' y' z' Hok Hz' Hr Ha H0 H1).
    + intros x' y' z' _ _ Hz'.
      now apply (texel_selector_constant powf sf16_to_float a c x' y' z' Hok Hz' Hr Ha H0 H1).
Qed.

(** X10 at the blue channel of the 4 x 4 region, set to 1 by the swizzle *)
Lemma swizzle_constant_channels_witness :
  (region_ok region_4x4_swz01 /\
   1 <= dim_x (img region_4x4_swz01) /\ 1 <= dim_y (img region_4x4_swz01) /\
   1 <= dim_z (img region_4x4_swz01) /\
   rgb_power region_4x4_swz01 = 1%Qc /\ alpha_power region_4x4_swz01 = 1%Qc /\
   sf16_01 0 = 0%Qc /\ sf16_01 15360 = 1%Qc) /\
  exists m,
    compute_pixel_region_variance powf_12 sf16_01 region_4x4_swz01 (mem_count, [])
    = Some (m, [] ++ region_stores region_4x4_swz01 m) /\
    forall z y x,
      0 <= z < (if have_z region_4x4_swz01 then size_z region_4x4_swz01 else 1) ->
      0 <= y < size_y region_4x4_swz01 -> 0 <= x < size_x region_4x4_swz01 ->
      (get_selector CH_B (swz region_4x4_swz01) = ASTCENC_SWZ_0 ->
       get_channel CH_B (average (pixel region_4x4_swz01 m z y x)) = 0%Qc /\
       get_channel CH_B (variance (pixel region_4x4_swz01 m z y x)) = 0%Qc) /\
      (get_selector CH_B (swz region_4x4_swz01) = ASTCENC_SWZ_1 ->
       avg_var_kernel_radius region_4x4_swz01 = alpha_kernel_radius region_4x4_swz01 ->
       get_channel CH_B (average (pixel region_4x4_swz01 m z y x)) = 1%Qc /\
       get_channel CH_B (variance (pixel region_4x4_swz01 m z y x)) = 0%Qc).
Proof.
  split.
  - split; [exact region_ok_4x4_swz01|].
    cbn [dim_x dim_y dim_z img region_4x4_swz01 image_4x4].
    repeat split; try lia; reflexivity.
  - apply (swizzle_constant_channels powf_12 sf16_01 region_4x4_swz01 mem_count [] CH_B
             region_ok_4x4_swz01);
      cbn [dim_x dim_y dim_z img region_4x4_swz01 image_4x4]; try lia; reflexivity.
Defined.

(** ** The work buffers *)

(** X11.  Padding writes the zero layer and nothing else: [pad_zero]
    returns, leaves 0 in both buffers at every cell of the planes [x = 0]
    and [y = 0] (and [z = 0] for a volume), and leaves every other address
    as it found it, the cells the loading loops filled included. *)
Theorem pad_zero_layer (a : pixel_region_variance_args) (m : mem) :
  region_ok a ->
  exists m',
    pad_zero a m = Some m' /\
    (forall z y x, in_box a z y x ->
       (x = 0 \/ y = 0 \/ z < zd_start a ->
        m' (VARBUF1 a z y x) = F4.zero /\ m' (VARBUF2 a z y x) = F4.zero) /\
       (1 <= x -> 1 <= y -> zd_start a <= z ->
        m' (VARBUF1 a z y x) = m (VARBUF1 a z y x) /\
        m' (VARBUF2 a z y x) = m (VARBUF2 a z y x))) /\
    (forall p, p < 0 \/ 2 * sizeprod a <= p -> m' p = m p).
Proof.
  intros Hok.
  destruct (pad_zero_writes (fun x _ => x) (fun _ => 0%Qc) a Hok m) as (m' & E & HV & Hfr).
  pose proof (padsize_bounds a Hok) as Hp.
  exists m'. split; [exact E|]. split.
  - intros z y x B. split.
    + intros Hb.
      assert (Hcell : forall pl, m' (cell a pl z y x) = F4.zero).
      { intros pl.
        rewrite <- (cell0_border (fun x _ => x) (fun _ => 0%Qc) a pl z y x) by lia.
        apply (HV (cell a pl z y x)); [|exact B|reflexivity].
        destruct B as (Hz & Hy & Hx).
        destruct (Z.eq_dec x 0) as [->|Nx].
        { left. exists z. split; [lia|]. left. exists y. split; [lia|].
          destruct pl; auto. }
        destruct (Z.eq_dec y 0) as [->|Ny].
        { left. exists z. split; [lia|]. right. exists x. split; [lia|].
          destruct pl; auto. }
        right. unfold zd_start in Hb. destruct (have_z a); [|lia].
        split; [reflexivity|]. assert (z = 0) as -> by lia.
        exists y. split; [lia|]. exists x. split; [lia|]. destruct pl; auto. }
      split; [apply (Hcell false)|apply (Hcell true)].
    + intros Hx Hy Hz.
      assert (Hcell : forall pl, m' (cell a pl z y x) = m (cell a pl z y x)).
      { intros pl. destruct (Hfr (cell a pl z y x)) as [Ek|[Hb _]]; [exact Ek|].
        exfalso.
        assert (Hin : forall pl' z' y' x', in_box a z' y' x' ->
                  cell a pl z y x = cell a pl' z' y' x' -> z = z' /\ y = y' /\ x = x').
        { intros pl' z' y' x' B' Ec. apply (cell_inj a) in Ec; [tauto|exact B|exact B']. }
        destruct Hb as [(z' & Hz' & [(y' & Hy' & Hc)|(x' & Hx' & Hc)])
                       |(Ez & y' & Hy' & x' & Hx' & Hc)].
        - destruct Hc as [Hc|Hc]; apply Hin in Hc; unfold in_box; lia.
        - destruct Hc as [Hc|Hc]; apply Hin in Hc; unfold in_box; lia.
        - unfold zd_start in *. rewrite Ez in *.
          destruct Hc as [Hc|Hc]; apply Hin in Hc; unfold in_box; lia. }
      split; [apply (Hcell false)|apply (Hcell true)].
  - intros p Hp'. apply (pad_zero_confined a Hok m m' E). lia.
Qed.

(** X11 at the 4 x 4 region *)
Lemma pad_zero_layer_witness :
  region_ok region_4x4 /\
  exists m',
    pad_zero region_4x4 mem_count = Some m' /\
    (forall z y x, in_box region_4x4 z y x ->
       (x = 0 \/ y = 0 \/ z < zd_start region_4x4 ->
        m' (VARBUF1 region_4x4 z y x) = F4.zero /\
        m' (VARBUF2 region_4x4 z y x) = F4.zero) /\
       (1 <= x -> 1 <= y -> zd_start region_4x4 <= z ->
        m' (VARBUF1 region_4x4 z y x) = mem_count (VARBUF1 region_4x4 z y x) /\
        m' (VARBUF2 region_4x4 z y x) = mem_count (VARBUF2 region_4x4 z y x))) /\
    (forall p, p < 0 \/ 2 * sizeprod region_4x4 <= p -> m' p = mem_count p).
Proof.
  split; [exact region_ok_4x4|].
  exact (pad_zero_layer region_4x4 mem_count region_ok_4x4).
Defined.

(** X12.  In exact arithmetic (the floats taken as rationals, no rounding)
    loading, padding and the three passes of prefix sums leave the
    summed-area tables in the work buffers: every cell [(z, y, x)] of
    [VARBUF1] holds the sum of the loaded values over the cells
    [(z', y', x')] with [z' <= z], [y' <= y] and [x' <= x] (for a 2D
    region, over the cells of its own plane), and the cell of [VARBUF2]
    holds the sum of their squares. *)
Theorem summed_area_tables_ready (powf : Qc -> Qc -> Qc) (sf16_to_float : Z -> Qc)
    (a : pixel_region_variance_args) (wm : mem) :
  region_ok a ->
  exists m3,
    (m1 <- load_buffers powf sf16_to_float a wm ;;
     m2 <- pad_zero a m1 ;;
     summed_area_tables a m2) = Some m3 /\
    forall z y x, in_box a z y x ->
      m3 (VARBUF1 a z y x) = sat powf sf16_to_float a false z y x /\
      m3 (VARBUF2 a z y x) = sat powf sf16_to_float a true z y x.
Proof.
  intros Hok.
  destruct (tables_ready powf sf16_to_float a Hok wm) as (m3 & E & H).
  exists m3. split; [exact E|]. intros z y x B.
  split; [apply (H false z y x B)|apply (H true z y x B)].
Qed.

(** X12 at the 4 x 4 region *)
Lemma summed_area_tables_ready_witness :
  region_ok region_4x4 /\
  exists m3,
    (m1 <- load_buffers powf_12 sf16_01 region_4x4 mem_count ;;
     m2 <- pad_zero region_4x4 m1 ;;
     summed_area_tables region_4x4 m2) = Some m3 /\
    forall z y x, in_box region_4x4 z y x ->
      m3 (VARBUF1 region_4x4 z y x) = sat powf_12 sf16_01 region_4x4 false z y x /\
      m3 (VARBUF2 region_4x4 z y x) = sat powf_12 sf16_01 region_4x4 true z y x.
Proof.
  split; [exact region_ok_4x4|].
  exact (summed_area_tables_ready powf_12 sf16_01 region_4x4 mem_count region_ok_4x4).
Defined.

(** ** The assertion of the 32-bit float path *)

Lemma for_loop_fails {St : Type} (hi : Z) (body : Z -> St -> option St) (i lo : Z) :
  (forall s, body i s = None) -> lo <= i < hi ->
  forall s, for_loop lo hi body s = None.
Proof.
  intros Hf. pattern lo. apply (for_loop_ind hi); clear lo.
  - intros lo Hlo Hi. lia.
  - intros lo Hlo IH Hi s. rewrite for_loop_step by lia.
    destruct (Z.eq_dec lo i) as [->|Hne]; [now rewrite Hf|].
    destruct (body lo s); [|reflexivity]. apply IH. lia.
Qed.

(** X13.  32-bit float data are read as one slice.  A region of 32-bit
    floats whose padded buffer reaches a slice of the image other than
    slice 0 does not get through [assert(z_src == 0)]: the call stops at the
    assertion and stores nothing. *)
Theorem f32_region_beyond_slice_0_asserts (powf : Qc -> Qc -> Qc)
    (sf16_to_float : Z -> Qc) (a : pixel_region_variance_args)
    (st : mem * list store) :
  data_type (img a) = ASTCENC_TYPE_F32 ->
  0 <= avg_var_kernel_radius a -> 0 <= alpha_kernel_radius a ->
  1 <= size_x a -> 1 <= size_y a -> 1 <= size_z a ->
  2 <= dim_z (img a) ->
  1 <= size_z a - 1 + offset_z a + kernel_radius_z a ->
  compute_pixel_region_variance powf sf16_to_float a st = None.
Proof.
  intros Et Hr1 Hr2 Hx Hy Hz Hd Hreach.
  assert (Hk : 0 <= kernel_radius a) by (unfold kernel_radius; rewrite MAX_spec; lia).
  unfold compute_pixel_region_variance.
  replace (load_buffers powf sf16_to_float a (fst st)) with (@None mem); [reflexivity|].
  symmetry. unfold load_buffers.
  apply (for_loop_fails _ _ (padsize_z a - 1)).
  2: { unfold padsize_z, zd_start, kerneldim. destruct (have_z a); lia. }
  intros m1. apply (for_loop_fails _ _ 1).
  2: { unfold padsize_y, kerneldim. lia. }
  intros m2. apply (for_loop_fails _ _ 1).
  2: { unfold padsize_x, kerneldim. lia. }
  intros m3. cbv zeta. unfold load_texel, load_raw. rewrite Et. unfold load_f32.
  assert (Hc : clamp (padsize_z a - 1 - zd_start a + offset_z a - kernel_radius_z a)
                     0 (dim_z (img a) - 1) <> 0).
  { assert (E : padsize_z a - 1 - zd_start a + offset_z a - kernel_radius_z a
                = size_z a - 1 + offset_z a + kernel_radius_z a).
    { unfold padsize_z, zd_start, kernel_radius_z, kerneldim in *.
      destruct (have_z a); lia. }
    rewrite E. unfold clamp.
    destruct (Z.gtb_spec (size_z a - 1 + offset_z a + kernel_radius_z a) (dim_z (img a) - 1));
      [lia|].
    destruct (Z.gtb_spec (size_z a - 1 + offset_z a + kernel_radius_z a) 0); lia. }
  apply Z.eqb_neq in Hc. now rewrite Hc.
Qed.

(** X13 at a volume of two slices of 32-bit floats *)
Lemma f32_region_beyond_slice_0_asserts_witness :
  (data_type (img region_vol32) = ASTCENC_TYPE_F32 /\
   0 <= avg_var_kernel_radius region_vol32 /\ 0 <= alpha_kernel_radius region_vol32 /\
   1 <= size_x region_vol32 /\ 1 <= size_y region_vol32 /\ 1 <= size_z region_vol32 /\
   2 <= dim_z (img region_vol32) /\
   1 <= size_z region_vol32 - 1 + offset_z region_vol32 + kernel_radius_z region_vol32) /\
  compute_pixel_region_variance powf_12 sf16_01 region_vol32 (mem_count, []) = None.
Proof.
  split; [cbn; repeat split; lia|].
  apply (f32_region_beyond_slice_0_asserts powf_12 sf16_01 region_vol32 (mem_count, []));
    cbn; try reflexivity; lia.
Defined.

(** ** The two averages of alpha *)

(** X14.  With equal radii the alpha average of a pixel is the alpha
    channel of its average: [input_alpha_averages] repeats the fourth
    channel of [input_averages]. *)
Theorem alpha_average_is_average_alpha (powf : Qc -> Qc -> Qc) (sf16_to_float : Z -> Qc)
    (a : pixel_region_variance_args) (wm : mem) (log : list store) :
  region_ok a ->
  avg_var_kernel_radius a = alpha_kernel_radius a ->
  exists m,
    compute_pixel_region_variance powf sf16_to_float a (wm, log)
    = Some (m, log ++ region_stores a m) /\
    forall z y x,
      0 <= z < (if have_z a then size_z a else 1) ->
      0 <= y < size_y a -> 0 <= x < size_x a ->
      alpha_average (pixel a m z y x) = f4a (average (pixel a m z y x)).
Proof.
  intros Hok Heq.
  destruct (region_spec powf sf16_to_float a wm log Hok) as (m & E & Hpix).
  exists m. split; [exact E|]. intros z y x Hz Hy Hx.
  rewrite (Hpix z y x Hz Hy Hx).
  change (f4a (average (window_store powf sf16_to_float a z y x)))
    with (get_channel CH_A (average (window_store powf sf16_to_float a z y x))).
  rewrite window_store_alpha_average, window_store_average.
  unfold avg_var_rsamples.
  now rewrite alpha_rsamples_count, avg_var_samples_count, Heq.
Qed.

(** X14 at the 4 x 4 region *)
Lemma alpha_average_is_average_alpha_witness :
  (region_ok region_4x4 /\
   avg_var_kernel_radius region_4x4 = alpha_kernel_radius region_4x4) /\
  exists m,
    compute_pixel_region_variance powf_12 sf16_01 region_4x4 (mem_count, [])
    = Some (m, [] ++ region_stores region_4x4 m) /\
    forall z y x,
      0 <= z < (if have_z region_4x4 then size_z region_4x4 else 1) ->
      0 <= y < size_y region_4x4 -> 0 <= x < size_x region_4x4 ->
      alpha_average (pixel region_4x4 m z y x) = f4a (average (pixel region_4x4 m z y x)).
Proof.
  split; [split; [exact region_ok_4x4|reflexivity]|].
  exact (alpha_average_is_average_alpha powf_12 sf16_01 region_4x4 mem_count []
           region_ok_4x4 eq_refl).
Defined.

(** ** The units of work, store by store *)

(** A strided loop whose body appends to a projection of the state *)
Lemma for_stride_append {St A : Type} (Pre : St -> Prop) (proj : St -> list A)
    (g : Z -> list A) (step hi : Z) (body : Z -> St -> option St) :
  1 <= step ->
  (forall k s, 0 <= k -> k * step < hi -> Pre s ->
     exists s', body (k * step) s = Some s' /\ Pre s' /\ proj s' = proj s ++ g k) ->
  forall (fuel : nat) (k : Z) (s : St),
    0 <= k <= (hi + step - 1) / step -> Pre s ->
    (hi + step - 1) / step - k < Z.of_nat fuel ->
    exists s',
      for_stride fuel (k * step) hi step body s = Some s' /\ Pre s' /\
      proj s' = proj s ++ flat_map g (Zrange k ((hi + step - 1) / step)).
Proof.
  intros Hs Hbody. induction fuel as [|fuel IH]; intros k s Hk Hpre Hfuel.
  - lia.
  - cbn [for_stride]. destruct (Z.ltb_spec (k * step) hi) as [Hlt|Hge].
    + destruct (Hbody k s ltac:(lia) Hlt Hpre) as (s1 & E1 & Hpre1 & Hp1).
      rewrite E1. replace (k * step + step) with ((k + 1) * step) by ring.
      pose proof (proj1 (blocks_lt k step hi Hs) Hlt) as Hk'.
      destruct (IH (k + 1) s1 ltac:(lia) Hpre1 ltac:(lia)) as (s' & E & Hpre' & Hp').
      exists s'. split; [exact E|]. split; [exact Hpre'|].
      rewrite Hp', Hp1, (Zrange_cons k) by lia. cbn [flat_map].
      now rewrite app_assoc.
    + exists s. split; [reflexivity|]. split; [exact Hpre|].
      rewrite Zrange_nil; [cbn; now rewrite app_nil_r|].
      assert (~ k < (hi + step - 1) / step) by (rewrite <- blocks_lt by lia; lia).
      lia.
Qed.

Section Units.

Variables (powf : Qc -> Qc -> Qc) (sf16_to_float : Z -> Qc).
Variables (im : astcenc_image) (rp ap : Qc) (avr akr : Z) (sw : astcenc_swizzle).
Hypothesis Hslab : one_slab im rp ap avr akr sw.

Local Abbreviation B := (blk_xy im).
Local Abbreviation ag := (fst (init_compute_averages_and_variances im rp ap avr akr sw)).
Local Abbreviation a0 := (arg ag).
Local Abbreviation blk := (block_args im rp ap avr akr sw).

Lemma y_tasks_blocks : y_tasks ag = y_blocks im.
Proof.
  pose proof (dims_int im rp ap avr akr sw Hslab) as (Hx & Hy & Hz).
  pose proof (blk_xy_bounds im) as HB.
  unfold y_tasks. rewrite (init_blk_size im rp ap avr akr sw Hslab), init_img_size.
  cbn [i3g]. now rewrite Z.quot_div_nonneg by lia.
Qed.

Lemma region_results_block (j k : Z) :
  region_results powf sf16_to_float (blk j k)
  = flat_map (fun z =>
      flat_map (fun y =>
        map (fun x =>
               image_store powf sf16_to_float im rp ap avr akr sw (x + k * B) (y + j * B) z)
            (Zrange 0 (MIN B (dim_x im - k * B))))
        (Zrange 0 (MIN B (dim_y im - j * B))))
      (Zrange 0 (dim_z im)).
Proof.
  unfold region_results.
  cbn [have_z block_args size_x size_y size_z size i3r i3g i3b].
  rewrite (slices im rp ap avr akr sw Hslab).
  apply flat_map_ext. intros z. apply flat_map_ext. intros y.
  apply map_ext. intros x. unfold image_store.
  apply window_store_same_pixel.
  - repeat split.
  - reflexivity.
  - cbn. lia.
  - cbn. lia.
  - reflexivity.
Qed.

Lemma process_unit_stores (fuel : nat) (j : Z) (ws : worker_state) :
  0 <= j < y_blocks im -> same_params (fst ws) a0 ->
  x_blocks im < Z.of_nat fuel ->
  exists ws',
    process_unit powf sf16_to_float fuel ag (y_tasks ag) j ws = Some ws' /\
    same_params (fst ws') a0 /\
    snd (snd ws') = snd (snd ws) ++ unit_results powf sf16_to_float im rp ap avr akr sw j.
Proof.
  intros Hj Hpar Hfuel. rewrite y_tasks_blocks.
  pose proof (dims_int im rp ap avr akr sw Hslab) as (Hx & Hy & Hz).
  pose proof (blk_xy_bounds im) as HB.
  assert (Hj' : j * B < dim_y im)
    by (apply (blocks_lt j B (dim_y im)); [lia|apply Hj]).
  unfold INT_MAX in Hx, Hy.
  unfold process_unit.
  rewrite (init_blk_size im rp ap avr akr sw Hslab), init_img_size. cbn [i3r i3g i3b].
  assert (Ez : int32 (uint32 (j / uint32 (y_blocks im) * uint32 (dim_z im))) = 0).
  { assert (y_blocks im <= dim_y im + B - 1).
    { unfold y_blocks. apply Z.div_le_upper_bound; nia. }
    rewrite (uint32_small (y_blocks im)) by lia.
    rewrite Z.div_small by lia. reflexivity. }
  rewrite Ez.
  assert (Ey : int32 (uint32 (uint32 (j - uint32 (0 * y_blocks im)) * uint32 B)) = j * B).
  { rewrite Z.mul_0_l. change (uint32 0) with 0. rewrite Z.sub_0_r.
    rewrite (uint32_small j), (uint32_small B) by lia.
    rewrite uint32_small, int32_small; lia. }
  rewrite Ey, Z.sub_0_r.
  assert (Emin : MIN (dim_z im) (dim_z im) = dim_z im) by (rewrite MIN_spec; lia).
  rewrite Emin.
  set (Pre := fun s : worker_state =>
    same_params (fst s) a0 /\
    i3g (size (fst s)) = MIN B (dim_y im - j * B) /\ i3b (size (fst s)) = dim_z im /\
    i3g (offset (fst s)) = j * B /\ i3b (offset (fst s)) = 0).
  destruct (for_stride_append Pre (fun s : worker_state => snd (snd s))
              (fun k => region_results powf sf16_to_float (blk j k))
              B (dim_x im)
              (fun x ws0 =>
                 let a := set_size_offset_r (fst ws0) (MIN B (dim_x im - x)) x in
                 st <- compute_pixel_region_variance powf sf16_to_float a (snd ws0) ;;
                 Some (a, st))
              ltac:(lia)) with (fuel := fuel) (k := 0)
      (s := (set_size_offset_g (set_size_offset_b (fst ws) (dim_z im) 0)
                               (MIN B (dim_y im - j * B)) (j * B), snd ws))
    as (ws' & E & Hpre' & Hlog).
  - intros k s Hk Hlt (Hp & Hg & Hb & Hog & Hob). cbv zeta.
    rewrite (set_r_block im rp ap avr akr sw (fst s) j k Hp Hg Hb Hog Hob).
    assert (Hkb : 0 <= k < x_blocks im).
    { split; [lia|]. apply (blocks_lt k B (dim_x im)); lia. }
    destruct (snd s) as [wm log] eqn:Es.
    destruct (region_call powf sf16_to_float _ wm log
                (region_ok_block im rp ap avr akr sw Hslab j k Hj Hkb)) as (m & Er).
    rewrite Er. eexists. split; [reflexivity|]. split.
    + unfold Pre. cbn. repeat split; apply Hp.
    + reflexivity.
  - unfold x_blocks in Hfuel.
    pose proof (Z.div_pos (dim_x im + B - 1) B ltac:(lia) ltac:(lia)). lia.
  - unfold Pre. cbn. repeat split; apply Hpar.
  - unfold x_blocks in Hfuel. lia.
  - exists ws'. rewrite Z.mul_0_l in E. split; [exact E|]. split; [apply Hpre'|].
    cbn [snd] in Hlog. rewrite Hlog. f_equal. unfold unit_results.
    apply flat_map_ext. intros k. apply region_results_block.
Qed.

Lemma unit_results_indices (j : Z) :
  0 <= j < y_blocks im ->
  map out_index (unit_results powf sf16_to_float im rp ap avr akr sw j)
  = unit_indices im rp ap avr akr sw j.
Proof.
  intros Hj.
  assert (Hxb : 0 <= x_blocks im).
  { pose proof (dims_int im rp ap avr akr sw Hslab) as (Hx & _).
    pose proof (blk_xy_bounds im). unfold x_blocks. apply Z.div_pos; lia. }
  destruct (process_unit_stores (S (Z.to_nat (x_blocks im))) j (a0, (fun _ => F4.zero, []))
              Hj ltac:(repeat split) ltac:(lia)) as (ws1 & E1 & _ & H1).
  destruct (process_unit_spec powf sf16_to_float im rp ap avr akr sw Hslab
              (S (Z.to_nat (x_blocks im))) j (a0, (fun _ => F4.zero, []))
              Hj ltac:(repeat split) ltac:(lia)) as (ws2 & E2 & _ & H2).
  rewrite y_tasks_blocks in E1. rewrite E1 in E2. injection E2 as <-.
  unfold indices_of in H2. rewrite H1 in H2. exact H2.
Qed.

Lemma unit_log_results (fuel : nat) (wm : mem) (j : Z) :
  0 <= j < y_blocks im -> x_blocks im < Z.of_nat fuel ->
  unit_log powf sf16_to_float fuel ag wm j
  = unit_results powf sf16_to_float im rp ap avr akr sw j.
Proof.
  intros Hj Hfuel. unfold unit_log.
  destruct (process_unit_stores fuel j (a0, (wm, [])) Hj ltac:(repeat split) Hfuel)
    as (ws' & E & _ & H).
  rewrite E. exact H.
Qed.

Lemma units_cover (fuel : nat) (wm : mem) (i : Z) :
  x_blocks im < Z.of_nat fuel ->
  length (filter (fun st => out_index st =? i)
            (flat_map (unit_log powf sf16_to_float fuel ag wm) (Zrange 0 (y_blocks im))))
  = if (0 <=? i) && (i <? dim_x im * dim_y im * dim_z im) then 1%nat else 0%nat.
Proof.
  intros Hfuel.
  rewrite filter_out_index, map_flat_map.
  rewrite (flat_map_ext_in _ (unit_indices im rp ap avr akr sw)).
  2: { intros j Hj. apply in_Zrange in Hj.
       rewrite unit_log_results by assumption. now apply unit_results_indices. }
  fold (run_indices im rp ap avr akr sw).
  destruct (count_NoDup (run_indices im rp ap avr akr sw) i
              (NoDup_run im rp ap avr akr sw Hslab)) as [H1 H0].
  pose proof (in_run_iff im rp ap avr akr sw Hslab i) as Hin.
  destruct (Z.leb_spec 0 i); destruct (Z.ltb_spec i (dim_x im * dim_y im * dim_z im));
    cbn [andb]; try (apply H1, Hin; lia); apply H0; rewrite Hin; lia.
Qed.

End Units.

(** ** The work memory of a run *)

(** X15.  When the product that [init_compute_averages_and_variances]
    takes for [work_memory_size] is within the range of [int], the work
    memory it sizes holds the two buffers of every region of the run: a
    region at an offset inside the image, with the sizes
    [compute_averages_and_variances] gives it, is not empty, is no larger
    than a block, and its [2 * sizeprod] cells fit in [work_memory_size].
    The product taken in [int] is then the product itself. *)
Theorem work_memory_holds_every_region (im : astcenc_image) (rp ap : Qc) (avr akr : Z)
    (sw : astcenc_swizzle) (x y z : Z) :
  1 <= dim_x im -> 1 <= dim_y im -> 1 <= dim_z im ->
  0 <= avr -> 0 <= akr ->
  work_memory_size (fst (init_compute_averages_and_variances im rp ap avr akr sw))
  <= INT_MAX ->
  0 <= x < dim_x im -> 0 <= y < dim_y im -> 0 <= z < dim_z im ->
  let ag := fst (init_compute_averages_and_variances im rp ap avr akr sw) in
  let a := tile_args ag x y z in
  1 <= size_x a <= i3r (blk_size ag) /\
  1 <= size_y a <= i3g (blk_size ag) /\
  1 <= size_z a <= i3b (blk_size ag) /\
  0 < 2 * sizeprod a <= work_memory_size ag /\
  int32 (work_memory_size ag) = work_memory_size ag.
Proof.
  intros Hdx Hdy Hdz Hr1 Hr2 Hw Hx Hy Hz. cbv zeta. revert Hw.
  unfold tile_args, init_compute_averages_and_variances.
  cbn [fst arg blk_size img_size work_memory_size i3r i3g i3b].
  unfold sizeprod, padsize_x, padsize_y, padsize_z, size_x, size_y, size_z, kerneldim,
    kernel_radius.
  cbn [size set_size_offset_r set_size_offset_g set_size_offset_b have_z
       avg_var_kernel_radius alpha_kernel_radius i3r i3g i3b].
  set (K := 2 * MAX avr akr + 1).
  assert (HK : 1 <= K) by (unfold K; rewrite MAX_spec; lia).
  set (Bxy := if dim_z im >? 1 then 16 else 32).
  assert (HB : 16 <= Bxy <= 32) by (unfold Bxy; destruct (dim_z im >? 1); lia).
  set (Bz := MIN (dim_z im) (if dim_z im >? 1 then 16 else 1)).
  assert (HBz : 1 <= Bz <= dim_z im).
  { unfold Bz. rewrite MIN_spec. destruct (Z.gtb_spec (dim_z im) 1); lia. }
  set (KZ := if dim_z im >? 1 then K else 0).
  assert (HKZ : 0 <= KZ) by (unfold KZ; destruct (dim_z im >? 1); lia).
  set (SX := MIN Bxy (dim_x im - x)). set (SY := MIN Bxy (dim_y im - y)).
  set (SZ := MIN Bz (dim_z im - z)).
  assert (HSX : 1 <= SX <= Bxy) by (unfold SX; rewrite MIN_spec; lia).
  assert (HSY : 1 <= SY <= Bxy) by (unfold SY; rewrite MIN_spec; lia).
  assert (HSZ : 1 <= SZ <= Bz) by (unfold SZ; rewrite MIN_spec; lia).
  clearbody SX SY SZ KZ Bz Bxy K.
  assert (H1 : 0 < (SX + K) * (SY + K)) by nia.
  assert (H2 : (SX + K) * (SY + K) <= (Bxy + K) * (Bxy + K)) by nia.
  assert (H3 : (SX + K) * (SY + K) * (SZ + KZ) <= (Bxy + K) * (Bxy + K) * (SZ + KZ))
    by (apply Z.mul_le_mono_nonneg_r; lia).
  assert (H4 : (Bxy + K) * (Bxy + K) * (SZ + KZ) <= (Bxy + K) * (Bxy + K) * (Bz + KZ))
    by (apply Z.mul_le_mono_nonneg_l; lia).
  assert (H5 : 0 < (SX + K) * (SY + K) * (SZ + KZ)) by (apply Z.mul_pos_pos; lia).
  intros Hw. unfold INT_MAX in Hw.
  assert (H6 : 0 < 2 * (Bxy + K) * (Bxy + K) * (Bz + KZ) < 2 ^ 31) by lia.
  repeat split; try lia.
  unfold int32. rewrite Z.mod_small by lia.
  destruct (Z.ltb_spec (2 * (Bxy + K) * (Bxy + K) * (Bz + KZ)) (2 ^ 31)); lia.
Qed.

(** X15 at the last region of a 40 x 33 image, radii 2 and 1 *)
Lemma work_memory_holds_every_region_witness :
  (1 <= dim_x image_40x33 /\ 1 <= dim_y image_40x33 /\ 1 <= dim_z image_40x33 /\
   0 <= 2 /\ 0 <= 1 /\
   work_memory_size
     (fst (init_compute_averages_and_variances image_40x33 1%Qc 1%Qc 2 1 swz_rgba))
   <= INT_MAX /\
   0 <= 32 < dim_x image_40x33 /\ 0 <= 32 < dim_y image_40x33 /\
   0 <= 0 < dim_z image_40x33) /\
  let ag := fst (init_compute_averages_and_variances image_40x33 1%Qc 1%Qc 2 1 swz_rgba) in
  let a := tile_args ag 32 32 0 in
  1 <= size_x a <= i3r (blk_size ag) /\
  1 <= size_y a <= i3g (blk_size ag) /\
  1 <= size_z a <= i3b (blk_size ag) /\
  0 < 2 * sizeprod a <= work_memory_size ag /\
  int32 (work_memory_size ag) = work_memory_size ag.
Proof.
  assert (Hw : work_memory_size
                 (fst (init_compute_averages_and_variances image_40x33 1%Qc 1%Qc 2 1
                         swz_rgba)) <= INT_MAX) by (vm_compute; discriminate).
  split; [repeat split; try exact Hw; cbn; lia|].
  apply (work_memory_holds_every_region image_40x33 1%Qc 1%Qc 2 1 swz_rgba 32 32 0);
    try exact Hw; cbn; lia.
Defined.

(** ** Units of work of an image of one slab *)

Lemma one_slab_40x33 : one_slab image_40x33 1%Qc 1%Qc 2 1 swz_rgba.
Proof. unfold one_slab, INT_MAX. cbn. repeat split; try lia; discriminate. Qed.

(** X16.  For an image of one slab (a 2D image, or a volume of at most 16
    slices) a unit of work stores the pixels of its block row, and in exact
    arithmetic (the floats taken as rationals, no rounding) what it stores
    for a pixel is what the image stores there as one region: the
    unit [j] returns and appends, block after block, the stores of the
    windows about the pixels of the rows [j * 32 ..] (or [j * 16 ..]), each
    taken in the whole image. *)
Theorem unit_stores_block_row (powf : Qc -> Qc -> Qc) (sf16_to_float : Z -> Qc)
    (im : astcenc_image) (rp ap : Qc) (avr akr : Z) (sw : astcenc_swizzle)
    (fuel : nat) (j : Z) (ws : worker_state) :
  one_slab im rp ap avr akr sw ->
  let ag := fst (init_compute_averages_and_variances im rp ap avr akr sw) in
  0 <= j < snd (init_compute_averages_and_variances im rp ap avr akr sw) ->
  same_params (fst ws) (arg ag) ->
  x_blocks im < Z.of_nat fuel ->
  exists ws',
    process_unit powf sf16_to_float fuel ag (y_tasks ag) j ws = Some ws' /\
    same_params (fst ws') (arg ag) /\
    snd (snd ws') = snd (snd ws) ++ unit_results powf sf16_to_float im rp ap avr akr sw j.
Proof.
  intros Hslab ag Hj Hpar Hfuel.
  rewrite (init_total im rp ap avr akr sw Hslab) in Hj.
  now apply process_unit_stores.
Qed.

(** X16 at the second unit of a 40 x 33 image *)
Lemma unit_stores_block_row_witness :
  (one_slab image_40x33 1%Qc 1%Qc 2 1 swz_rgba /\
   0 <= 1 < snd (init_compute_averages_and_variances image_40x33 1%Qc 1%Qc 2 1 swz_rgba) /\
   same_params
     (fst (arg (fst (init_compute_averages_and_variances image_40x33 1%Qc 1%Qc 2 1
                       swz_rgba)),
           (mem_count, @nil store)))
     (arg (fst (init_compute_averages_and_variances image_40x33 1%Qc 1%Qc 2 1 swz_rgba))) /\
   x_blocks image_40x33 < Z.of_nat 3) /\
  let ag := fst (init_compute_averages_and_variances image_40x33 1%Qc 1%Qc 2 1 swz_rgba) in
  exists ws',
    process_unit powf_12 sf16_01 3 ag (y_tasks ag) 1 (arg ag, (mem_count, [])) = Some ws' /\
    same_params (fst ws') (arg ag) /\
    snd (snd ws')
    = snd (snd (arg ag, (mem_count, @nil store)))
      ++ unit_results powf_12 sf16_01 image_40x33 1%Qc 1%Qc 2 1 swz_rgba 1.
Proof.
  assert (Hj : 0 <= 1 < snd (init_compute_averages_and_variances image_40x33 1%Qc 1%Qc 2 1
                               swz_rgba)) by (vm_compute; split; [discriminate|reflexivity]).
  assert (Hf : x_blocks image_40x33 < Z.of_nat 3) by (vm_compute; reflexivity).
  split.
  - split; [exact one_slab_40x33|]. split; [exact Hj|]. split; [repeat split|exact Hf].
  - apply (unit_stores_block_row powf_12 sf16_01 image_40x33 1%Qc 1%Qc 2 1 swz_rgba 3 1
             (arg (fst (init_compute_averages_and_variances image_40x33 1%Qc 1%Qc 2 1
                          swz_rgba)), (mem_count, []))
             one_slab_40x33 Hj); [repeat split|exact Hf].
Defined.

(** X17.  The units of work of an image of one slab store every pixel
    exactly once, whatever worker takes which unit: every unit below the
    count that [init_compute_averages_and_variances] returns runs to its
    end, and the stores of all units together hold exactly one store for
    each index of the output arrays, and none for any other index. *)
Theorem units_store_each_pixel_once (powf : Qc -> Qc -> Qc) (sf16_to_float : Z -> Qc)
    (im : astcenc_image) (rp ap : Qc) (avr akr : Z) (sw : astcenc_swizzle)
    (fuel : nat) (wm : mem) :
  one_slab im rp ap avr akr sw ->
  x_blocks im < Z.of_nat fuel ->
  let ag := fst (init_compute_averages_and_variances im rp ap avr akr sw) in
  let total := snd (init_compute_averages_and_variances im rp ap avr akr sw) in
  (forall base, 0 <= base < total ->
     process_unit powf sf16_to_float fuel ag (y_tasks ag) base (arg ag, (wm, [])) <> None) /\
  forall i,
    length (filter (fun st => out_index st =? i)
              (flat_map (unit_log powf sf16_to_float fuel ag wm) (Zrange 0 total)))
    = if (0 <=? i) && (i <? dim_x im * dim_y im * dim_z im) then 1%nat else 0%nat.
Proof.
  intros Hslab Hfuel ag total. unfold total, ag.
  rewrite (init_total im rp ap avr akr sw Hslab). split.
  - intros base Hb.
    destruct (process_unit_stores powf sf16_to_float im rp ap avr akr sw Hslab fuel base
                (arg (fst (init_compute_averages_and_variances im rp ap avr akr sw)),
                 (wm, [])) Hb ltac:(repeat split) Hfuel) as (ws' & E & _).
    rewrite E. discriminate.
  - intros i. now apply units_cover.
Qed.

(** X17 at a 40 x 33 image *)
Lemma units_store_each_pixel_once_witness :
  (one_slab image_40x33 1%Qc 1%Qc 2 1 swz_rgba /\ x_blocks image_40x33 < Z.of_nat 3) /\
  let ag := fst (init_compute_averages_and_variances image_40x33 1%Qc 1%Qc 2 1 swz_rgba) in
  let total := snd (init_compute_averages_and_variances image_40x33 1%Qc 1%Qc 2 1 swz_rgba) in
  (forall base, 0 <= base < total ->
     process_unit powf_12 sf16_01 3 ag (y_tasks ag) base (arg ag, (mem_count, [])) <> None) /\
  forall i,
    length (filter (fun st => out_index st =? i)
              (flat_map (unit_log powf_12 sf16_01 3 ag mem_count) (Zrange 0 total)))
    = if (0 <=? i) && (i <? dim_x image_40x33 * dim_y image_40x33 * dim_z image_40x33)
      then 1%nat else 0%nat.
Proof.
  assert (Hf : x_blocks image_40x33 < Z.of_nat 3) by (vm_compute; reflexivity).
  split; [split; [exact one_slab_40x33|exact Hf]|].
  exact (units_store_each_pixel_once powf_12 sf16_01 image_40x33 1%Qc 1%Qc 2 1 swz_rgba
           3 mem_count one_slab_40x33 Hf).
Defined.

(** ** The output indices of a region *)

(** X18.  A region that lies inside the image stores inside the output
    arrays, once per index: the call returns, the indices of its stores are
    pairwise different, and each is an index of a pixel of the image. *)
Theorem region_stores_inside_output (powf : Qc -> Qc -> Qc) (sf16_to_float : Z -> Qc)
    (a : pixel_region_variance_args) (wm : mem) (log : list store) :
  region_ok a ->
  0 <= offset_x a -> offset_x a + size_x a <= dim_x (img a) ->
  0 <= offset_y a -> offset_y a + size_y a <= dim_y (img a) ->
  1 <= dim_z (img a) ->
  (have_z a = true -> 0 <= offset_z a /\ offset_z a + size_z a <= dim_z (img a)) ->
  exists m,
    compute_pixel_region_variance powf sf16_to_float a (wm, log)
    = Some (m, log ++ region_stores a m) /\
    NoDup (map out_index (region_stores a m)) /\
    forall st, In st (region_stores a m) ->
      0 <= out_index st < dim_x (img a) * dim_y (img a) * dim_z (img a).
Proof.
  intros Hok Hox Hsx Hoy Hsy Hdz Hz.
  destruct (region_spec powf sf16_to_float a wm log Hok) as (m & E & _).
  exists m. split; [exact E|].
  pose proof Hok as (_ & _ & H1x & H1y & H1z & _).
  assert (Hidx : forall z y x,
            0 <= z < (if have_z a then size_z a else 1) ->
            0 <= y < size_y a -> 0 <= x < size_x a ->
            exists Z0, 0 <= Z0 < dim_z (img a) /\
              out_at a z y x
              = Z0 * (dim_x (img a) * dim_y (img a))
                + (y + offset_y a) * dim_x (img a) + (x + offset_x a)).
  { intros z y x Hzr Hyr Hxr. unfold out_at, zdt, ydt.
    destruct (have_z a).
    - exists (z + offset_z a). specialize (Hz eq_refl). split; [lia|reflexivity].
    - exists 0. split; [lia|]. ring. }
  split.
  - rewrite region_stores_indices. unfold region_indices. apply NoDup_box_list.
    intros z y x z' y' x' Hzr Hyr Hxr Hzr' Hyr' Hxr' Eo.
    destruct (Hidx z y x Hzr Hyr Hxr) as (Z0 & HZ0 & E0).
    destruct (Hidx z' y' x' Hzr' Hyr' Hxr') as (Z1 & HZ1 & E1).
    rewrite E0, E1 in Eo.
    apply idx_inj in Eo; try lia.
    destruct Eo as (EZ & Ey & Ex).
    split; [|lia].
    unfold out_at in E0, E1. destruct (have_z a); [|lia].
    unfold zdt, ydt in E0, E1.
    assert (R0 : Z0 = z + offset_z a).
    { apply (idx_inj (dim_x (img a)) (dim_y (img a)) Z0 (y + offset_y a) (x + offset_x a)
               (z + offset_z a) (y + offset_y a) (x + offset_x a)); lia. }
    assert (R1 : Z1 = z' + offset_z a).
    { apply (idx_inj (dim_x (img a)) (dim_y (img a)) Z1 (y' + offset_y a) (x' + offset_x a)
               (z' + offset_z a) (y' + offset_y a) (x' + offset_x a)); lia. }
    lia.
  - intros st Hst. apply (in_map out_index) in Hst.
    rewrite region_stores_indices in Hst. unfold region_indices in Hst.
    apply in_box_list in Hst. destruct Hst as (z & y & x & Hzr & Hyr & Hxr & ->).
    destruct (Hidx z y x Hzr Hyr Hxr) as (Z0 & HZ0 & ->).
    apply idx_range; lia.
Qed.

(** X18 at the lower right quarter of the 4 x 4 image *)
Lemma region_stores_inside_output_witness :
  (region_ok region_4x4_tile /\
   0 <= offset_x region_4x4_tile /\
   offset_x region_4x4_tile + size_x region_4x4_tile <= dim_x (img region_4x4_tile) /\
   0 <= offset_y region_4x4_tile /\
   offset_y region_4x4_tile + size_y region_4x4_tile <= dim_y (img region_4x4_tile) /\
   1 <= dim_z (img region_4x4_tile) /\
   (have_z region_4x4_tile = true ->
    0 <= offset_z region_4x4_tile /\
    offset_z region_4x4_tile + size_z region_4x4_tile <= dim_z (img region_4x4_tile))) /\
  exists m,
    compute_pixel_region_variance powf_12 sf16_01 region_4x4_tile (mem_count, [])
    = Some (m, [] ++ region_stores region_4x4_tile m) /\
    NoDup (map out_index (region_stores region_4x4_tile m)) /\
    forall st, In st (region_stores region_4x4_tile m) ->
      0 <= out_index st
      < dim_x (img region_4x4_tile) * dim_y (img region_4x4_tile)
        * dim_z (img region_4x4_tile).
Proof.
  split.
  - split; [exact region_ok_4x4_tile|]. cbn. repeat split; try lia; discriminate.
  - apply (region_stores_inside_output powf_12 sf16_01 region_4x4_tile mem_count []
             region_ok_4x4_tile); cbn; try lia; discriminate.
Defined.

(** ** A run, pixel by pixel *)



Section Run.

Variables (powf : Qc -> Qc -> Qc) (sf16_to_float : Z -> Qc).
Variables (im : astcenc_image) (rp ap : Qc) (avr akr : Z) (sw : astcenc_swizzle).
Hypothesis Hslab : one_slab im rp ap avr akr sw.

Local Abbreviation B := (blk_xy im).
Local Abbreviation ag := (fst (init_compute_averages_and_variances im rp ap avr akr sw)).
Local Abbreviation a0 := (arg ag).
Local Abbreviation results := (unit_results powf sf16_to_float im rp ap avr akr sw).







End Run.



(** ** Samples under an affine map *)

Lemma sum_channel_affine (c : channel) (G P Q : Z -> float4) (al be ga : Qc) (hi lo : Z) :
  (forall i, get_channel c (G i)
             = (al * get_channel c (P i) + be * get_channel c (Q i) + ga)%Qc) ->
  lo <= hi ->
  get_channel c (sum G lo hi)
  = (al * get_channel c (sum P lo hi) + be * get_channel c (sum Q lo hi)
     + ga * Zf (hi - lo))%Qc.
Proof.
  intros H. pattern lo. apply (for_loop_ind hi); clear lo.
  - intros lo Hlo Hle. assert (lo = hi) as -> by lia.
    rewrite !sum_nil by lia. rewrite get_channel_zero, Z.sub_diag.
    change (Zf 0) with 0%Qc. ring.
  - intros lo Hlo IH _. rewrite !(sum_first _ lo hi) by lia.
    rewrite !get_channel_add, IH, H by lia.
    replace (hi - lo) with (hi - (lo + 1) + 1) by lia. rewrite Zf_add.
    change (Zf 1) with 1%Qc. ring.
Qed.

Lemma sum2_channel_affine (c : channel) (G P Q : Z -> Z -> float4) (al be ga : Qc)
    (yl yh xl xh : Z) :
  (forall y x, get_channel c (G y x)
               = (al * get_channel c (P y x) + be * get_channel c (Q y x) + ga)%Qc) ->
  yl <= yh -> xl <= xh ->
  get_channel c (sum2 G yl yh xl xh)
  = (al * get_channel c (sum2 P yl yh xl xh) + be * get_channel c (sum2 Q yl yh xl xh)
     + ga * (Zf (yh - yl) * Zf (xh - xl)))%Qc.
Proof.
  intros H Hy Hx. unfold sum2.
  rewrite (sum_channel_affine c _ (fun y => sum (fun x => P y x) xl xh)
             (fun y => sum (fun x => Q y x) xl xh) al be (ga * Zf (xh - xl))%Qc)
    by (intros; try apply sum_channel_affine; auto).
  ring.
Qed.

Lemma sum3_channel_affine (c : channel) (G P Q : Z -> Z -> Z -> float4) (al be ga : Qc)
    (zl zh yl yh xl xh : Z) :
  (forall z y x, get_channel c (G z y x)
                 = (al * get_channel c (P z y x) + be * get_channel c (Q z y x) + ga)%Qc) ->
  zl <= zh -> yl <= yh -> xl <= xh ->
  get_channel c (sum3 G zl zh yl yh xl xh)
  = (al * get_channel c (sum3 P zl zh yl yh xl xh)
     + be * get_channel c (sum3 Q zl zh yl yh xl xh)
     + ga * (Zf (zh - zl) * Zf (yh - yl) * Zf (xh - xl)))%Qc.
Proof.
  intros H Hz Hy Hx. unfold sum3.
  rewrite (sum_channel_affine c _ (fun z => sum2 (P z) yl yh xl xh)
             (fun z => sum2 (Q z) yl yh xl xh) al be
             (ga * (Zf (yh - yl) * Zf (xh - xl)))%Qc)
    by (intros; try apply sum2_channel_affine; auto).
  ring.
Qed.

Section Affine.

Variable powf : Qc -> Qc -> Qc.
Variable sf16_to_float : Z -> Qc.
Variables a b : pixel_region_variance_args.
Variable c : channel.
Variables s k : Qc.

Hypothesis Hz : have_z b = have_z a.
Hypothesis Hsample : forall z y x,
  get_channel c (sample powf sf16_to_float b z y x)
  = (s * get_channel c (sample powf sf16_to_float a z y x) + k)%Qc.

Lemma window_sum_affine (pl : bool) (r z y x : Z) :
  0 <= r ->
  get_channel c (window_sum powf sf16_to_float b (plane_value pl) r z y x)
  = if pl
    then (s * s * get_channel c (window_sum powf sf16_to_float a (plane_value true) r z y x)
          + (s * k + s * k)
            * get_channel c (window_sum powf sf16_to_float a (plane_value false) r z y x)
          + k * k * Zf (window_count a r))%Qc
    else (s * get_channel c (window_sum powf sf16_to_float a (plane_value false) r z y x)
          + k * Zf (window_count a r))%Qc.
Proof.
  intros Hr. unfold window_sum, window_count, plane_value. rewrite Hz.
  destruct (have_z a); destruct pl.
  - rewrite (sum3_channel_affine c _
               (fun z' y' x' => sample powf sf16_to_float a z' y' x'
                                *^ sample powf sf16_to_float a z' y' x')
               (fun z' y' x' => sample powf sf16_to_float a z' y' x')
               (s * s)%Qc (s * k + s * k)%Qc (k * k)%Qc); try lia.
    + rewrite !Zf_mul.
      replace (z + r + 1 - (z - r)) with (2 * r + 1) by lia.
      replace (y + r + 1 - (y - r)) with (2 * r + 1) by lia.
      replace (x + r + 1 - (x - r)) with (2 * r + 1) by lia. reflexivity.
    + intros. rewrite !get_channel_mul, Hsample. ring.
  - rewrite (sum3_channel_affine c _
               (fun z' y' x' => sample powf sf16_to_float a z' y' x')
               (fun _ _ _ => F4.zero) s 0%Qc k); try lia.
    + rewrite !Zf_mul.
      replace (z + r + 1 - (z - r)) with (2 * r + 1) by lia.
      replace (y + r + 1 - (y - r)) with (2 * r + 1) by lia.
      replace (x + r + 1 - (x - r)) with (2 * r + 1) by lia. ring.
    + intros. rewrite Hsample. ring.
  - rewrite (sum2_channel_affine c _
               (fun y' x' => sample powf sf16_to_float a 0 y' x'
                             *^ sample powf sf16_to_float a 0 y' x')
               (fun y' x' => sample powf sf16_to_float a 0 y' x')
               (s * s)%Qc (s * k + s * k)%Qc (k * k)%Qc); try lia.
    + rewrite !Zf_mul.
      replace (y + r + 1 - (y - r)) with (2 * r + 1) by lia.
      replace (x + r + 1 - (x - r)) with (2 * r + 1) by lia. reflexivity.
    + intros. rewrite !get_channel_mul, Hsample. ring.
  - rewrite (sum2_channel_affine c _
               (fun y' x' => sample powf sf16_to_float a 0 y' x')
               (fun _ _ => F4.zero) s 0%Qc k); try lia.
    + rewrite !Zf_mul.
      replace (y + r + 1 - (y - r)) with (2 * r + 1) by lia.
      replace (x + r + 1 - (x - r)) with (2 * r + 1) by lia. ring.
    + intros. rewrite Hsample. ring.
Qed.

End Affine.

(** X20.  Brightness and contrast, in exact arithmetic (the floats taken
    as rationals, no rounding).  Two images of the same dimensions,
    processed with the same region and equal radii: if a channel of every
    texel of the second image is [s] times that of the first plus [k], that
    channel of every average is [s] times that of the first plus [k], and
    that channel of every variance is [s * s] times that of the first. *)
Theorem affine_samples (powf : Qc -> Qc -> Qc) (sf16_to_float : Z -> Qc)
    (a b : pixel_region_variance_args) (wma wmb : mem) (la lb : list store)
    (c : channel) (s k : Qc) :
  region_ok a -> region_ok b ->
  size b = size a -> offset b = offset a -> have_z b = have_z a ->
  avg_var_kernel_radius a = alpha_kernel_radius a ->
  avg_var_kernel_radius b = alpha_kernel_radius a ->
  alpha_kernel_radius b = alpha_kernel_radius a ->
  dim_x (img b) = dim_x (img a) -> dim_y (img b) = dim_y (img a) ->
  dim_z (img b) = dim_z (img a) ->
  1 <= dim_x (img a) -> 1 <= dim_y (img a) -> 1 <= dim_z (img a) ->
  (forall x y z,
     0 <= x < dim_x (img a) -> 0 <= y < dim_y (img a) -> 0 <= z < dim_z (img a) ->
     get_channel c (texel powf sf16_to_float b x y z)
     = (s * get_channel c (texel powf sf16_to_float a x y z) + k)%Qc) ->
  exists ma mb,
    compute_pixel_region_variance powf sf16_to_float a (wma, la)
    = Some (ma, la ++ region_stores a ma) /\
    compute_pixel_region_variance powf sf16_to_float b (wmb, lb)
    = Some (mb, lb ++ region_stores b mb) /\
    forall z y x,
      0 <= z < (if have_z a then size_z a else 1) ->
      0 <= y < size_y a -> 0 <= x < size_x a ->
      get_channel c (average (pixel b mb z y x))
      = (s * get_channel c (average (pixel a ma z y x)) + k)%Qc /\
      get_channel c (variance (pixel b mb z y x))
      = (s * s * get_channel c (variance (pixel a ma z y x)))%Qc.
Proof.
  intros Hoka Hokb Hsz Hoff Hhz Hra Hrb1 Hrb2 Hdx Hdy Hdz H1x H1y H1z Ht.
  destruct (region_spec powf sf16_to_float a wma la Hoka) as (ma & Ea & Hpa).
  destruct (region_spec powf sf16_to_float b wmb lb Hokb) as (mb & Eb & Hpb).
  exists ma, mb. split; [exact Ea|]. split; [exact Eb|].
  intros z y x Hzr Hyr Hxr.
  rewrite (Hpa z y x Hzr Hyr Hxr).
  rewrite (Hpb z y x); [|rewrite Hhz; unfold size_z; now rewrite Hsz
                         |unfold size_y; now rewrite Hsz|unfold size_x; now rewrite Hsz].
  assert (Hsample : forall z' y' x',
            get_channel c (sample powf sf16_to_float b z' y' x')
            = (s * get_channel c (sample powf sf16_to_float a z' y' x') + k)%Qc).
  { intros z' y' x'. unfold sample, offset_x, offset_y, offset_z.
    rewrite Hoff, Hdx, Hdy, Hdz. apply Ht; now apply src_range. }
  pose proof Hoka as (_ & Hr & _).
  rewrite !window_store_average, !window_store_variance.
  rewrite Hrb2.
  rewrite (window_sum_affine powf sf16_to_float a b c s k Hhz Hsample true) by exact Hr.
  rewrite (window_sum_affine powf sf16_to_float a b c s k Hhz Hsample false) by exact Hr.
  assert (EN : avg_var_samples b = avg_var_samples a).
  { unfold avg_var_samples, avg_var_kdim. now rewrite Hhz, Hrb1, Hra. }
  assert (Em : mul1 b = mul1 a) by (unfold mul1; now rewrite EN).
  unfold avg_var_rsamples. rewrite Em, EN, avg_var_samples_count, Hra.
  set (N := Zf (window_count a (alpha_kernel_radius a))).
  assert (HN0 : N <> 0%Qc).
  { apply Zf_nonzero. pose proof (window_count_pos a _ Hr). lia. }
  split; [field; exact HN0|ring].
Qed.

Lemma region_ok_ramp : region_ok region_ramp.
Proof. unfold region_ok, INT_MAX. cbn. repeat split; try lia; try reflexivity. Qed.

Lemma region_ok_ramp_affine : region_ok region_ramp_affine.
Proof. unfold region_ok, INT_MAX. cbn. repeat split; try lia; try reflexivity. Qed.

Lemma ramp_texels (x y z : Z) :
  0 <= x < dim_x (img region_ramp) -> 0 <= y < dim_y (img region_ramp) ->
  0 <= z < dim_z (img region_ramp) ->
  get_channel CH_R (texel powf_12 sf16_01 region_ramp_affine x y z)
  = (Zf 2 * get_channel CH_R (texel powf_12 sf16_01 region_ramp x y z) + 1)%Qc.
Proof.
  cbn [dim_x dim_y dim_z img region_ramp image_ramp]. intros Hx Hy Hz.
  assert (z = 0) as -> by lia.
  assert (Ex : x = 0 \/ x = 1) by lia. assert (Ey : y = 0 \/ y = 1) by lia.
  destruct Ex as [-> | ->], Ey as [-> | ->]; apply Qc_is_canon; reflexivity.
Qed.

(** The red channel of the ramp is not flat: the variance that the window
    about the pixel (0, 0) gives is not 0. *)
Lemma ramp_variance_not_zero :
  get_channel CH_R (variance (window_store powf_12 sf16_01 region_ramp 0 0 0)) <> 0%Qc.
Proof. intros E. apply (f_equal this) in E. vm_compute in E. discriminate E. Qed.

(** X20 at two 2 x 2 images that are not flat, the red channel of the second
    twice that of the first plus 1 *)
Lemma affine_samples_witness :
  (region_ok region_ramp /\ region_ok region_ramp_affine /\
   size region_ramp_affine = size region_ramp /\
   offset region_ramp_affine = offset region_ramp /\
   have_z region_ramp_affine = have_z region_ramp /\
   avg_var_kernel_radius region_ramp = alpha_kernel_radius region_ramp /\
   avg_var_kernel_radius region_ramp_affine = alpha_kernel_radius region_ramp /\
   alpha_kernel_radius region_ramp_affine = alpha_kernel_radius region_ramp /\
   dim_x (img region_ramp_affine) = dim_x (img region_ramp) /\
   dim_y (img region_ramp_affine) = dim_y (img region_ramp) /\
   dim_z (img region_ramp_affine) = dim_z (img region_ramp) /\
   1 <= dim_x (img region_ramp) /\ 1 <= dim_y (img region_ramp) /\
   1 <= dim_z (img region_ramp) /\
   (forall x y z,
      0 <= x < dim_x (img region_ramp) -> 0 <= y < dim_y (img region_ramp) ->
      0 <= z < dim_z (img region_ramp) ->
      get_channel CH_R (texel powf_12 sf16_01 region_ramp_affine x y z)
      = (Zf 2 * get_channel CH_R (texel powf_12 sf16_01 region_ramp x y z) + 1)%Qc)) /\
  exists ma mb,
    compute_pixel_region_variance powf_12 sf16_01 region_ramp (mem_count, [])
    = Some (ma, [] ++ region_stores region_ramp ma) /\
    compute_pixel_region_variance powf_12 sf16_01 region_ramp_affine (mem_count, [])
    = Some (mb, [] ++ region_stores region_ramp_affine mb) /\
    forall z y x,
      0 <= z < (if have_z region_ramp then size_z region_ramp else 1) ->
      0 <= y < size_y region_ramp -> 0 <= x < size_x region_ramp ->
      get_channel CH_R (average (pixel region_ramp_affine mb z y x))
      = (Zf 2 * get_channel CH_R (average (pixel region_ramp ma z y x)) + 1)%Qc /\
      get_channel CH_R (variance (pixel region_ramp_affine mb z y x))
      = (Zf 2 * Zf 2 * get_channel CH_R (variance (pixel region_ramp ma z y x)))%Qc.
Proof.
  split.
  - split; [exact region_ok_ramp|]. split; [exact region_ok_ramp_affine|].
    cbn [dim_x dim_y dim_z img region_ramp image_ramp region_ramp_affine
         image_ramp_affine].
    repeat split; try lia; apply ramp_texels; assumption.
  - apply (affine_samples powf_12 sf16_01 region_ramp region_ramp_affine
             mem_count mem_count [] [] CH_R (Zf 2) 1%Qc region_ok_ramp region_ok_ramp_affine);
      try reflexivity;
      cbn [dim_x dim_y dim_z img region_ramp image_ramp]; try lia; exact ramp_texels.
Defined.

(** ** Windows of variance 0 *)

Lemma Qc_sum_zero (x y : Qc) : (0 <= x -> 0 <= y -> x + y = 0 -> x = 0 /\ y = 0)%Qc.
Proof.
  intros Hx Hy E.
  assert (Eq : (this x + this y == 0)%Q).
  { rewrite <- (Qred_correct (this x + this y)).
    change (Qred (this x + this y)) with (this (x + y)%Qc). now rewrite E. }
  unfold Qcle in Hx, Hy. change (this 0%Qc) with 0%Q in Hx, Hy.
  split; apply Qc_is_canon; change (this 0%Qc) with 0%Q; lra.
Qed.

Lemma Qc_square_zero (x : Qc) : (x * x = 0 -> x = 0)%Qc.
Proof. intros E. now destruct (Qcmult_integral _ _ E). Qed.

Lemma sum_channel_nonneg (c : channel) (f : Z -> float4) (lo hi : Z) :
  (forall i, lo <= i < hi -> (0 <= get_channel c (f i))%Qc) ->
  (0 <= get_channel c (sum f lo hi))%Qc.
Proof.
  intros H. rewrite <- (get_channel_zero c) at 1.
  rewrite <- (sum_zero (fun _ => F4.zero) lo hi) by reflexivity.
  apply sum_channel_le. intros i Hi. rewrite get_channel_zero. now apply H.
Qed.

Lemma sum_channel_zero (c : channel) (f : Z -> float4) (hi lo : Z) :
  (forall i, lo <= i < hi -> (0 <= get_channel c (f i))%Qc) ->
  get_channel c (sum f lo hi) = 0%Qc ->
  forall i, lo <= i < hi -> get_channel c (f i) = 0%Qc.
Proof.
  pattern lo. apply (for_loop_ind hi); clear lo.
  - intros lo Hlo _ _ i Hi. lia.
  - intros lo Hlo IH Hpos E i Hi. rewrite (sum_first _ lo hi), get_channel_add in E by lia.
    apply Qc_sum_zero in E.
    + destruct E as [E0 E1]. destruct (Z.eq_dec i lo) as [->|Hne]; [exact E0|].
      apply IH; [|exact E1|lia]. intros; apply Hpos; lia.
    + apply Hpos. lia.
    + apply sum_channel_nonneg. intros; apply Hpos; lia.
Qed.

Lemma sum2_channel_zero (c : channel) (f : Z -> Z -> float4) (yl yh xl xh : Z) :
  (forall y x, (0 <= get_channel c (f y x))%Qc) ->
  get_channel c (sum2 f yl yh xl xh) = 0%Qc ->
  forall y x, yl <= y < yh -> xl <= x < xh -> get_channel c (f y x) = 0%Qc.
Proof.
  intros Hpos E y x Hy Hx. unfold sum2 in E.
  apply (sum_channel_zero c (fun x => f y x) xh xl); [intros; apply Hpos| |exact Hx].
  apply (sum_channel_zero c (fun y => sum (fun x => f y x) xl xh) yh yl);
    [|exact E|exact Hy].
  intros. apply sum_channel_nonneg. intros; apply Hpos.
Qed.

Lemma sum3_channel_zero (c : channel) (f : Z -> Z -> Z -> float4) (zl zh yl yh xl xh : Z) :
  (forall z y x, (0 <= get_channel c (f z y x))%Qc) ->
  get_channel c (sum3 f zl zh yl yh xl xh) = 0%Qc ->
  forall z y x, zl <= z < zh -> yl <= y < yh -> xl <= x < xh ->
    get_channel c (f z y x) = 0%Qc.
Proof.
  intros Hpos E z y x Hz Hy Hx. unfold sum3 in E.
  apply (sum2_channel_zero c (f z) yl yh xl xh); [intros; apply Hpos| |exact Hy|exact Hx].
  apply (sum_channel_zero c (fun z => sum2 (f z) yl yh xl xh) zh zl);
    [|exact E|exact Hz].
  intros. unfold sum2. apply sum_channel_nonneg. intros.
  apply sum_channel_nonneg. intros; apply Hpos.
Qed.

Lemma window_sum_channel_zero (powf : Qc -> Qc -> Qc) (sf16_to_float : Z -> Qc)
    (a : pixel_region_variance_args) (c : channel) (F : float4 -> float4)
    (r z y x : Z) :
  (forall v, (0 <= get_channel c (F v))%Qc) ->
  get_channel c (window_sum powf sf16_to_float a F r z y x) = 0%Qc ->
  forall z' y' x', in_window a r z y x z' y' x' ->
    get_channel c (F (sample powf sf16_to_float a z' y' x')) = 0%Qc.
Proof.
  intros Hpos E z' y' x' (Hz & Hy & Hx). unfold window_sum in E.
  destruct (have_z a).
  - apply (sum3_channel_zero c (fun z' y' x' => F (sample powf sf16_to_float a z' y' x'))
             (z - r) (z + r + 1) (y - r) (y + r + 1) (x - r) (x + r + 1));
      [intros; apply Hpos|exact E|lia..].
  - subst z'.
    apply (sum2_channel_zero c (fun y' x' => F (sample powf sf16_to_float a 0 y' x'))
             (y - r) (y + r + 1) (x - r) (x + r + 1));
      [intros; apply Hpos|exact E|lia..].
Qed.

Lemma mul1_nonzero (a : pixel_region_variance_args) :
  0 <= avg_var_kernel_radius a -> mul1 a <> 0%Qc.
Proof.
  intros Hr. unfold mul1. destruct (Qc_eqb (avg_var_samples a) 1%Qc) eqn:E1.
  - intros E. discriminate E.
  - assert (HN : avg_var_samples a <> 0%Qc).
    { rewrite avg_var_samples_count. apply Zf_nonzero.
      pose proof (window_count_pos a _ Hr). lia. }
    assert (HN1 : (avg_var_samples a - 1)%Qc <> 0%Qc).
    { intros E. assert (E' : avg_var_samples a = 1%Qc).
      { replace (avg_var_samples a) with (avg_var_samples a - 1 + 1)%Qc by ring.
        rewrite E. ring. }
      apply Qc_eqb_eq in E'. congruence. }
    intros E.
    assert (Ep : (1 / (avg_var_samples a * (avg_var_samples a - 1))
                  * (avg_var_samples a * (avg_var_samples a - 1)) = 1)%Qc)
      by (field; split; assumption).
    rewrite E in Ep. revert Ep. rewrite Qcmult_0_l. intros Ep. discriminate Ep.
Qed.

(** X21.  In exact arithmetic (the floats taken as rationals, no rounding)
    and with equal radii a variance of 0 means a flat window: if a
    channel of the variance stored for a pixel is 0, that channel has one
    value at every sample of the window about the pixel, and the value is
    the average stored. *)
Theorem zero_variance_flat_window (powf : Qc -> Qc -> Qc) (sf16_to_float : Z -> Qc)
    (a : pixel_region_variance_args) (wm : mem) (log : list store) (c : channel) :
  region_ok a ->
  avg_var_kernel_radius a = alpha_kernel_radius a ->
  exists m,
    compute_pixel_region_variance powf sf16_to_float a (wm, log)
    = Some (m, log ++ region_stores a m) /\
    forall z y x,
      0 <= z < (if have_z a then size_z a else 1) ->
      0 <= y < size_y a -> 0 <= x < size_x a ->
      get_channel c (variance (pixel a m z y x)) = 0%Qc ->
      forall z' y' x', in_window a (alpha_kernel_radius a) z y x z' y' x' ->
        get_channel c (sample powf sf16_to_float a z' y' x')
        = get_channel c (average (pixel a m z y x)).
Proof.
  intros Hok Heq.
  destruct (region_spec powf sf16_to_float a wm log Hok) as (m & E & Hpix).
  exists m. split; [exact E|]. intros z y x Hz Hy Hx.
  rewrite (Hpix z y x Hz Hy Hx). rewrite window_store_variance, window_store_average.
  pose proof Hok as (Hr1 & Hr2 & _).
  unfold avg_var_rsamples. rewrite avg_var_samples_count, Heq.
  set (r := alpha_kernel_radius a). set (N := Zf (window_count a r)).
  set (S := get_channel c (window_sum powf sf16_to_float a (plane_value false) r z y x)).
  set (Q := get_channel c (window_sum powf sf16_to_float a (plane_value true) r z y x)).
  assert (HN0 : N <> 0%Qc).
  { apply Zf_nonzero. pose proof (window_count_pos a r Hr2). lia. }
  intros Ev z' y' x' Hw.
  apply Qcmult_integral in Ev. destruct Ev as [Ev|Ev];
    [now apply mul1_nonzero in Ev|].
  set (X := F4.splat (S / N)%Qc).
  assert (HX : get_channel c X = (S / N)%Qc) by (destruct c; reflexivity).
  assert (Hdev : get_channel c (window_sum powf sf16_to_float a
                                  (fun v => (v -^ X) *^ (v -^ X)) r z y x) = 0%Qc).
  { rewrite window_sum_deviations, window_sum_const by exact Hr2.
    rewrite get_channel_add, get_channel_sub, get_channel_mul, get_channel_scale,
      get_channel_mul, get_channel_add, HX.
    fold N S Q.
    replace (Q - (S / N + S / N) * S + S / N * (S / N) * N)%Qc
      with ((Q * N - S * S) / N)%Qc by (field; exact HN0).
    rewrite Ev. field. exact HN0. }
  pose proof (window_sum_channel_zero powf sf16_to_float a c
                (fun v => (v -^ X) *^ (v -^ X)) r z y x
                ltac:(intros; cbv beta; rewrite get_channel_mul; apply Qc_square_nonneg)
                Hdev z' y' x' Hw) as Hs.
  cbv beta in Hs. rewrite get_channel_mul, get_channel_sub, HX in Hs.
  apply Qc_square_zero in Hs.
  replace (get_channel c (sample powf sf16_to_float a z' y' x'))
    with (get_channel c (sample powf sf16_to_float a z' y' x') - S / N + S / N)%Qc by ring.
  rewrite Hs. field. exact HN0.
Qed.

(** X21 at the red channel of the 2 x 2 image of one colour *)
Lemma zero_variance_flat_window_witness :
  (region_ok region_flat_eq /\
   avg_var_kernel_radius region_flat_eq = alpha_kernel_radius region_flat_eq) /\
  exists m,
    compute_pixel_region_variance powf_12 sf16_01 region_flat_eq (mem_count, [])
    = Some (m, [] ++ region_stores region_flat_eq m) /\
    forall z y x,
      0 <= z < (if have_z region_flat_eq then size_z region_flat_eq else 1) ->
      0 <= y < size_y region_flat_eq -> 0 <= x < size_x region_flat_eq ->
      get_channel CH_R (variance (pixel region_flat_eq m z y x)) = 0%Qc ->
      forall z' y' x',
        in_window region_flat_eq (alpha_kernel_radius region_flat_eq) z y x z' y' x' ->
        get_channel CH_R (sample powf_12 sf16_01 region_flat_eq z' y' x')
        = get_channel CH_R (average (pixel region_flat_eq m z y x)).
Proof.
  split; [split; [exact region_ok_flat_eq|reflexivity]|].
  exact (zero_variance_flat_window powf_12 sf16_01 region_flat_eq mem_count [] CH_R
           region_ok_flat_eq eq_refl).
Defined.
